(** * A shallow embedding of the custom DNS resolver

    The embedded program is [src/src/custom_resolver.py] (the resolver
    server: cache, recursive attempt, iterative root/TLD/authoritative walk,
    per-hop trace) and the hand-written response decoder [parse_response] of
    [src/custom_dns_resolver.py].

    The network, the system resolver and the two clocks are an oracle
    ([Env]) indexed by the number of interactions performed so far, so that
    an upstream may answer differently every time it is asked.  Python
    exceptions are an explicit outcome, and the only unbounded loop of the
    program ([while servers:]) is run for a given number of passes. *)

From Stdlib Require Import QArith Ascii String DecimalString.
From Stdlib.Strings Require Import Byte.
From stdpp Require Import gmap strings list fin_maps.

Local Open Scope string_scope.
Local Open Scope list_scope.
Local Open Scope Z_scope.

(** ** Data model *)

(** [time.time()] and [time.perf_counter()] return seconds; they are kept
    exact as rationals. *)
Abbreviation Instant := Q.

(** Constants of [dns.rcode] and [dns.rdatatype]. *)
Module rcode.
Definition NOERROR : Z := 0.
Definition SERVFAIL : Z := 2.
Definition NXDOMAIN : Z := 3.
End rcode.

Module rdatatype.
Definition A : Z := 1.
Definition NS : Z := 2.
Definition AAAA : Z := 28.
End rdatatype.

(** One RDATA item.  [A] and [AAAA] items have an [address] attribute, [NS]
    items a [target]; every item has a text form. *)
Inductive Rdata :=
| RdA (address : string)
| RdAAAA (address : string)
| RdNS (target : string)
| RdOther (text : string).

Definition rdata_to_text (rr : Rdata) : string :=
  match rr with
  | RdA a => a
  | RdAAAA a => a
  | RdNS t => t
  | RdOther t => t
  end.

(** [getattr(rr, "address", rr.to_text())] *)
Definition rdata_address (rr : Rdata) : string :=
  match rr with
  | RdA a => a
  | RdAAAA a => a
  | _ => rdata_to_text rr
  end.

(** [rr.target]: only [NS] items have it ([None] is [AttributeError]). *)
Definition rdata_target (rr : Rdata) : option string :=
  match rr with
  | RdNS t => Some t
  | _ => None
  end.

Record RRset := mkRRset {
  rr_name : string;
  rdtype : Z;
  ttl : Z;
  items : list Rdata
}.

Record Message := mkMessage {
  msg_rcode : Z;
  answer : list RRset;
  authority : list RRset;
  additional : list RRset
}.

Record CacheEntry := mkCacheEntry {
  rrsets : list RRset;
  expiry : Instant
}.

Record TraceEvent := mkTraceEvent {
  server : string;
  step : string;
  response : string;
  rtt : Instant;
  total_time : Instant;
  cache_status : string;
  event_time : Instant
}.

(** Exceptions the resolver meets. *)
Inductive exn :=
| Timeout
| OSError
| NXDOMAIN_exn
| NoNameservers
| AttributeError
| OtherError.

(** ** The world: cache, interaction counter, servers contacted *)

Abbreviation Cache := (gmap (string * Z) CacheEntry).

Record World := mkWorld {
  cache : Cache;
  tick : nat;
  contacted : list string
}.

Definition bump (w : World) : World :=
  mkWorld (cache w) (S (tick w)) (contacted w).

Definition set_cache (c : Cache) (w : World) : World :=
  mkWorld c (tick w) (contacted w).

Definition note_contact (s : string) (w : World) : World :=
  mkWorld (cache w) (tick w) (contacted w ++ [s]).

(** What the program cannot compute by itself.  The first argument of each
    oracle is the value of [tick] when the call is made. *)
Record Env := mkEnv {
  (** [dns.query.udp(query, server_ip, timeout)] for a query of
      [(qname, qtype)] with the RD flag as given *)
  udp : nat -> string -> string -> Z -> bool -> exn + Message;
  (** [resolver.resolve(name, rdtype, raise_on_no_answer=False)] with the
      given [resolver.nameservers]: the response, or the exception *)
  resolver_resolve : nat -> list string -> string -> Z -> exn + Message;
  perf_counter : nat -> Instant;
  time_time : nat -> Instant;
  (** [dns.resolver.Resolver(configure=True).nameservers] *)
  system_nameservers : list string;
  (** [ipaddress.ip_address(ns)]: [None] is [ValueError], otherwise
      [(is_loopback, is_unspecified)] *)
  ip_address : string -> option (bool * bool);
  (** [dns.rcode.to_text] *)
  rcode_to_text : Z -> string;
  (** [str.lower()], the method of the library on the text of a name *)
  str_lower : string -> string
}.

(** The fields of [ResolverServer] the resolution reads. *)
Record Server := mkServer {
  cache_enabled : bool;
  root_servers : list string
}.

(** ** Outcomes and the state monad *)

Inductive Outcome (A : Type) :=
| Ret (a : A) (w : World)
| Exc (e : exn) (w : World)
| Spin (w : World).
Arguments Ret {A} a w.
Arguments Exc {A} e w.
Arguments Spin {A} w.

Definition M (A : Type) : Type := World -> Outcome A.

Definition ret {A} (a : A) : M A := fun w => Ret a w.

Definition bind {A B} (c : M A) (k : A -> M B) : M B :=
  fun w =>
    match c w with
    | Ret a w' => k a w'
    | Exc e w' => Exc e w'
    | Spin w' => Spin w'
    end.

Declare Scope m_scope.
Delimit Scope m_scope with m.
Notation "x <- c ;; k" := (bind c (fun x => k))
  (at level 20, c at level 99, k at level 200, only parsing) : m_scope.
Notation "' p <- c ;; k" := (bind c (fun x => match x with p => k end))
  (at level 20, p pattern, c at level 99, k at level 200, only parsing)
  : m_scope.

Definition raise {A} (e : exn) : M A := fun w => Exc e w.

(** [try: c  except (dns.exception.Timeout, OSError): continue]: [None]
    when one of the two was caught; any other exception goes on. *)
Definition try_query {A} (c : M A) : M (option A) :=
  fun w =>
    match c w with
    | Ret a w' => Ret (Some a) w'
    | Exc Timeout w' | Exc OSError w' => Ret None w'
    | Exc e w' => Exc e w'
    | Spin w' => Spin w'
    end.

Definition world_of {A} (o : Outcome A) : World :=
  match o with
  | Ret _ w => w
  | Exc _ w => w
  | Spin w => w
  end.

(** One interaction with the environment: read the oracle at the current
    count and advance the count. *)
Definition ask {A} (f : nat -> A) : M A := fun w => Ret (f (tick w)) (bump w).

(** ** Cache helpers *)

(** The text of a name is kept as the bytes of its UTF-8 form.
    [str.lower()] folds every cased code point, so it is a function of
    the library ([str_lower] of the environment). On ASCII text it is the
    folding of the letters A to Z below, which the concrete environments
    use. *)
Definition lower_ascii (c : ascii) : ascii :=
  let n := nat_of_ascii c in
  if ((65 <=? n)%nat && (n <=? 90)%nat)%bool then ascii_of_nat (n + 32) else c.

Fixpoint lower (s : string) : string :=
  match s with
  | EmptyString => EmptyString
  | String c r => String (lower_ascii c) (lower r)
  end.

(** Text all of whose bytes are below 128 *)
Definition ascii_text (s : string) : Prop :=
  Forall (fun c => (nat_of_ascii c < 128)%nat) (list_ascii_of_string s).

(** [(qname.lower(), qtype)] *)
Definition _cache_key (env : Env) (qname : string) (qtype : Z) : string * Z :=
  (str_lower env qname, qtype).

Definition Qltb (a b : Q) : bool :=
  match Qcompare a b with
  | Lt => true
  | _ => false
  end.

(** [CacheEntry.fresh], with the reading of [time.time()] as argument *)
Definition fresh (now : Instant) (entry : CacheEntry) : bool :=
  Qltb now (expiry entry).

(** [rrset.copy()]: a new object with the same contents *)
Definition rrset_copy (r : RRset) : RRset :=
  mkRRset (rr_name r) (rdtype r) (ttl r) (items r).

Definition copy_rrsets (l : list RRset) : list RRset := map rrset_copy l.

Definition _cache_lookup (env : Env) (qname : string) (qtype : Z)
  : M (option (list RRset)) :=
  fun w =>
    let key := _cache_key env qname qtype in
    match cache w !! key with
    | None => Ret None w
    | Some entry =>
        let now := time_time env (tick w) in
        let w1 := bump w in
        if fresh now entry then Ret (Some (copy_rrsets (rrsets entry))) w1
        else Ret None (set_cache (delete key (cache w1)) w1)
    end.

(** [min(ttl_values)] for a non-empty list, given as head and tail *)
Definition min_ttl (t : Z) (ts : list Z) : Z := fold_left Z.min ts t.

Definition _cache_store (env : Env) (srv : Server) (qname : string) (qtype : Z)
    (rrs : list RRset) : M unit :=
  fun w =>
    if negb (cache_enabled srv) then Ret tt w
    else
      match map ttl rrs with
      | [] => Ret tt w
      | t :: ts =>
          let ttl := min_ttl t ts in
          if ttl <=? 0 then Ret tt w
          else
            let expiry := Qplus (time_time env (tick w)) (inject_Z ttl) in
            let w1 := bump w in
            let key := _cache_key env qname qtype in
            Ret tt (set_cache
                      (<[key := mkCacheEntry (copy_rrsets rrs) expiry]> (cache w1))
                      w1)
      end.

(** ** Resolution pipeline *)

Definition nonempty {A} (l : list A) : bool :=
  match l with
  | [] => false
  | _ => true
  end.

(** The test of one candidate in [_safe_system_nameservers] *)
Definition usable_ns (env : Env) (ns : string) : bool :=
  match ip_address env ns with
  | Some (is_loopback, is_unspecified) => negb (is_loopback || is_unspecified)
  | None => false
  end.

Definition _safe_system_nameservers (env : Env) : list string :=
  let usable := List.filter (usable_ns env) (system_nameservers env) in
  if nonempty usable then usable else ["8.8.8.8"; "1.1.1.1"].

(** [resolver.nameservers] after
    [if safe_ns: resolver.nameservers = list(safe_ns)] *)
Definition resolver_nameservers (env : Env) : list string :=
  let safe_ns := _safe_system_nameservers env in
  if nonempty safe_ns then safe_ns else system_nameservers env.

(** [dns.query.udp]: one datagram to [server_ip], recorded in [contacted] *)
Definition send_udp (env : Env) (server_ip qname : string) (qtype : Z)
    (recursion_desired : bool) : M Message :=
  fun w =>
    let w1 := bump (note_contact server_ip w) in
    match udp env (tick w) server_ip qname qtype recursion_desired with
    | inl e => Exc e w1
    | inr m => Ret m w1
    end.

Definition _query_server (env : Env) (server_ip qname : string) (qtype : Z)
    (recursion_desired : bool) : M (Message * Instant) :=
  (start <- ask (perf_counter env) ;;
   response <- send_udp env server_ip qname qtype recursion_desired ;;
   stop <- ask (perf_counter env) ;;
   ret (response, Qminus stop start))%m.

Definition _step_name (depth : nat) : string :=
  match depth with
  | O => "Root"
  | S O => "TLD"
  | _ => "Authoritative"
  end.

(** [sorted({...})]: insertion into a strictly increasing list *)
Fixpoint insert_sorted (s : string) (l : list string) : list string :=
  match l with
  | [] => [s]
  | x :: r =>
      match String.compare s x with
      | Lt => s :: l
      | Eq => l
      | Gt => x :: insert_sorted s r
      end
  end.

Definition sorted_set (l : list string) : list string :=
  fold_right insert_sorted [] l.

Definition _summarize (env : Env) (response : Message) : string :=
  let rcode := msg_rcode response in
  if rcode =? rcode.NXDOMAIN then "NXDOMAIN"
  else if nonempty (answer response) then "ANSWER"
  else if nonempty (authority response) then
    let ns_names :=
      String.concat ","
        (sorted_set (flat_map (fun rrset => map rdata_to_text (items rrset))
                              (authority response))) in
    if String.eqb ns_names EmptyString then "REFERRAL" else ("REFERRAL " ++ ns_names)%string
  else rcode_to_text env rcode.

Definition _extract_glue_ips (response : Message) : list string :=
  flat_map (fun rrset =>
              if (rdtype rrset =? rdatatype.A) || (rdtype rrset =? rdatatype.AAAA)
              then map rdata_address (items rrset)
              else [])
           (additional response).

(** [names.append(rr.target.to_text())] for every item of one NS rrset *)
Fixpoint ns_targets (rrs : list Rdata) : exn + list string :=
  match rrs with
  | [] => inr []
  | rr :: rest =>
      match rdata_target rr with
      | None => inl AttributeError
      | Some t =>
          match ns_targets rest with
          | inl e => inl e
          | inr ts => inr (t :: ts)
          end
      end
  end.

Fixpoint ns_names_of (auth : list RRset) : exn + list string :=
  match auth with
  | [] => inr []
  | rrset :: rest =>
      if negb (rdtype rrset =? rdatatype.NS) then ns_names_of rest
      else
        match ns_targets (items rrset) with
        | inl e => inl e
        | inr ts =>
            match ns_names_of rest with
            | inl e => inl e
            | inr names => inr (ts ++ names)
            end
        end
  end.

Definition _extract_ns_names (response : Message) : exn + list string :=
  ns_names_of (authority response).

(** The addresses one secondary answer contributes *)
Definition a_addresses (response : Message) : list string :=
  flat_map (fun rrset =>
              if negb (rdtype rrset =? rdatatype.A) then []
              else map rdata_address (items rrset))
           (answer response).

(** The [for ns_name in ns_names] loop of [_resolve_ns_addresses], [ips]
    being the addresses collected so far *)
Fixpoint resolve_ns_loop (env : Env) (nameservers : list string)
    (ns_names : list string) (ips : list string) : M (list string) :=
  match ns_names with
  | [] => ret ips
  | ns_name :: rest =>
      (r <- ask (fun t => resolver_resolve env t nameservers ns_name rdatatype.A) ;;
       match r with
       | inl NXDOMAIN_exn | inl Timeout | inl NoNameservers =>
           resolve_ns_loop env nameservers rest ips
       | inl e => raise e
       | inr response =>
           resolve_ns_loop env nameservers rest (ips ++ a_addresses response)
       end)%m
  end.

Definition _resolve_ns_addresses (env : Env) (ns_names : list string)
  : M (list string) :=
  resolve_ns_loop env (resolver_nameservers env) ns_names [].

Definition LookupResult : Type := list RRset * Z * list TraceEvent.

Definition _recursive_lookup (env : Env) (qname : string) (qtype : Z)
  : M LookupResult :=
  let nameservers := resolver_nameservers env in
  let server_logged := hd "SYSTEM" nameservers in
  (start <- ask (perf_counter env) ;;
   r <- ask (fun t => resolver_resolve env t nameservers qname qtype) ;;
   match r with
   | inr response =>
       let rcode := msg_rcode response in
       stop <- ask (perf_counter env) ;;
       let total := Qminus stop start in
       let summary :=
         if nonempty (answer response) then "ANSWER"
         else rcode_to_text env rcode in
       now <- ask (time_time env) ;;
       ret (answer response, rcode,
            [mkTraceEvent server_logged "Recursive" summary total total
                          "MISS" now])
   | inl Timeout | inl NXDOMAIN_exn =>
       stop <- ask (perf_counter env) ;;
       let total := Qminus stop start in
       now <- ask (time_time env) ;;
       ret ([], rcode.NXDOMAIN,
            [mkTraceEvent server_logged "Recursive" "TIMEOUT_OR_NXDOMAIN"
                          total total "MISS" now])
   | inl e => raise e
   end)%m.

(** How one [for server in servers] pass of [_iterative_lookup] ends:
    a [return], a [break] with the next candidate set, or the [else]
    branch of the loop (every server tried). *)
Inductive PassResult :=
| PassReturn (answers : list RRset) (rcode : Z) (trace : list TraceEvent)
| PassBreak (servers : list string) (last_rcode : Z) (trace : list TraceEvent)
| PassElse (last_rcode : Z) (trace : list TraceEvent).

Fixpoint for_servers (env : Env) (start : Instant) (step_name qname : string)
    (qtype : Z) (recursion_desired : bool) (todo : list string)
    (last_rcode : Z) (trace : list TraceEvent) : M PassResult :=
  match todo with
  | [] => ret (PassElse last_rcode trace)
  | server :: rest =>
      (r <- try_query (_query_server env server qname qtype recursion_desired) ;;
       match r with
       | None =>
           for_servers env start step_name qname qtype recursion_desired
                       rest last_rcode trace
       | Some (response, rtt) =>
           let last_rcode := msg_rcode response in
           let summary := _summarize env response in
           now <- ask (perf_counter env) ;;
           let total := Qminus now start in
           event_time <- ask (time_time env) ;;
           let trace :=
             trace ++ [mkTraceEvent server step_name summary rtt total
                                    "MISS" event_time] in
           if (last_rcode =? rcode.NOERROR) && nonempty (answer response)
           then ret (PassReturn (answer response) rcode.NOERROR trace)
           else if last_rcode =? rcode.NXDOMAIN
           then ret (PassReturn [] rcode.NXDOMAIN trace)
           else
             let glue_ips := _extract_glue_ips response in
             if nonempty glue_ips
             then ret (PassBreak glue_ips last_rcode trace)
             else
               match _extract_ns_names response with
               | inl e => raise e
               | inr [] =>
                   for_servers env start step_name qname qtype
                               recursion_desired rest last_rcode trace
               | inr ns_names =>
                   resolved_ips <- _resolve_ns_addresses env ns_names ;;
                   if nonempty resolved_ips
                   then ret (PassBreak resolved_ips last_rcode trace)
                   else for_servers env start step_name qname qtype
                                    recursion_desired rest last_rcode trace
               end
       end)%m
  end.

(** The variables of [_iterative_lookup] at the head of [while servers:] *)
Record LoopCfg := mkLoopCfg {
  servers : list string;
  depth : nat;
  last_rcode : Z;
  trace : list TraceEvent
}.

Inductive LoopStatus :=
| AtHead (c : LoopCfg)
| Returned (r : LookupResult).

(** At most [n] passes of [while servers:] from the loop head [c]:
    [AtHead c'] when the loop is back at its head after [n] passes,
    [Returned r] when the function has returned before. *)
Fixpoint loop_iter (env : Env) (start : Instant) (qname : string) (qtype : Z)
    (recursion_desired : bool) (n : nat) (c : LoopCfg) : M LoopStatus :=
  match n with
  | O => ret (AtHead c)
  | S n' =>
      match servers c with
      | [] => ret (Returned ([], last_rcode c, trace c))
      | _ =>
          let step_name := _step_name (depth c) in
          let depth' := Nat.min (depth c + 1) 2 in
          (r <- for_servers env start step_name qname qtype recursion_desired
                            (servers c) (last_rcode c) (trace c) ;;
           match r with
           | PassReturn answers rcode trace => ret (Returned (answers, rcode, trace))
           | PassBreak servers' last_rcode' trace' =>
               loop_iter env start qname qtype recursion_desired n'
                         (mkLoopCfg servers' depth' last_rcode' trace')
           | PassElse last_rcode' trace' =>
               ret (Returned ([], last_rcode', trace'))
           end)%m
      end
  end.

Definition loop_init (srv : Server) : LoopCfg :=
  mkLoopCfg (root_servers srv) 0 rcode.SERVFAIL [].

(** [_iterative_lookup] with a budget of [fuel] passes of the [while] loop;
    [Spin] when the loop is still running after them. *)
Definition _iterative_lookup (env : Env) (srv : Server) (fuel : nat)
    (qname : string) (qtype : Z) (recursion_desired : bool) : M LookupResult :=
  (start <- ask (perf_counter env) ;;
   st <- loop_iter env start qname qtype recursion_desired fuel (loop_init srv) ;;
   match st with
   | Returned r => ret r
   | AtHead _ => fun w => Spin w
   end)%m.

Definition ResolveResult : Type := list RRset * Z * list TraceEvent * bool.

(** The tail of [resolve] shared by both modes: the iterative lookup, then
    the store of a positive answer. *)
Definition resolve_iterative (env : Env) (srv : Server) (fuel : nat)
    (qname : string) (qtype : Z) (recursion_requested : bool) : M ResolveResult :=
  ('(answers, rcode, trace) <-
     _iterative_lookup env srv fuel qname qtype recursion_requested ;;
   if nonempty answers && (rcode =? rcode.NOERROR)
   then (_ <- _cache_store env srv qname qtype answers ;;
         ret (answers, rcode, trace, false))
   else ret (answers, rcode, trace, false))%m.

Definition resolve (env : Env) (srv : Server) (fuel : nat) (qname : string)
    (qtype : Z) (recursion_requested : bool) : M ResolveResult :=
  (cached <- _cache_lookup env qname qtype ;;
   match cached with
   | Some cached =>
       now <- ask (time_time env) ;;
       ret (cached, rcode.NOERROR,
            [mkTraceEvent "CACHE" "CACHE" "ANSWER_FROM_CACHE" 0%Q 0%Q "HIT" now],
            true)
   | None =>
       if recursion_requested then
         '(answers, rcode, trace) <- _recursive_lookup env qname qtype ;;
         if nonempty answers && (rcode =? rcode.NOERROR)
         then (_ <- _cache_store env srv qname qtype answers ;;
               ret (answers, rcode, trace, false))
         else resolve_iterative env srv fuel qname qtype recursion_requested
       else resolve_iterative env srv fuel qname qtype recursion_requested
   end)%m.


(** ** The request handler and the logger *)

Record Question := mkQuestion {
  q_name : string;
  q_rdtype : Z
}.

(** What the handler reads of a decoded request. *)
Record Request := mkRequest {
  req_id : Z;
  req_rd : bool;
  req_question : list Question
}.

(** What the handler sets of the response, beside what
    [dns.message.make_response] has put into it. *)
Record Response := mkResponse {
  resp_id : Z;
  resp_rd : bool;
  resp_ra : bool;
  resp_question : list Question;
  resp_answer : list RRset;
  resp_rcode : Z
}.

(** One row of the CSV log, in the order of its columns. *)
Record LogRow := mkLogRow {
  row_timestamp : string;
  row_domain : string;
  row_mode : string;
  row_server_contacted : string;
  row_step : string;
  row_response_or_referral : string;
  row_rtt_s : string;
  row_total_time_s : string;
  row_cache_status : string;
  row_request_id : string
}.

(** The library calls of the handler and of the logger. *)
Record Host := mkHost {
  (** [dns.message.from_wire(data)]; [None] when it raises *)
  from_wire : list byte -> option Request;
  (** [dns.message.make_response(request)]: the response, or the
      exception it raises (a request that is itself a response) *)
  make_response : Request -> exn + Response;
  (** [str(uuid.uuid4())], by the count of interactions *)
  uuid4 : nat -> string;
  (** [time.strftime("%Y-%m-%d %H:%M:%S", time.localtime(t))] *)
  strftime_local : Instant -> string;
  (** [f"{x:.6f}"] *)
  format_6f : Instant -> string;
  (** [self._writer.writerow(row)] then [self._file.flush()], by the
      count of interactions: [None] when the row is written, otherwise
      the exception (the log file is closed, the disk is full) *)
  writerow : nat -> LogRow -> option exn;
  (** [self._socket.sendto(response.to_wire(), addr)], by the count of
      interactions: [None] when the datagram is sent, otherwise the
      exception *)
  sendto : nat -> Response -> option exn
}.

(** The row [ResolverLogger.log_event] hands to [writerow] for one
    event *)
Definition log_row (host : Host) (domain mode : string) (event : TraceEvent)
    (request_id : string) : LogRow :=
  mkLogRow (strftime_local host (event_time event)) domain mode
           (server event) (step event) (response event)
           (format_6f host (rtt event)) (format_6f host (total_time event))
           (cache_status event) request_id.

(** [ResolverLogger.log_event]: the row is written and returned, or the
    exception of the write is raised. *)
Definition log_event (host : Host) (domain mode : string) (event : TraceEvent)
    (request_id : string) : M LogRow :=
  let row := log_row host domain mode event request_id in
  (failed <- ask (fun t => writerow host t row) ;;
   match failed with
   | None => ret row
   | Some e => raise e
   end)%m.

(** How the handling of one datagram ends once the response is made:
    nothing is sent, the response is sent, the send fails with [OSError]
    (which is passed over), the send raises another exception, or a write
    to the log raises; the last two exceptions leave the handler, after
    the rows it has written. *)
Inductive Delivery :=
| NoReply
| Sent (r : Response)
| SendFailed (r : Response)
| SendRaised (e : exn) (r : Response)
| LogRaised (e : exn).

(** [for event in trace: ... self.logger.log_event(...)]: the rows
    written, [written] being those written before, and the exception that
    ended the loop, if any. *)
Fixpoint log_events (host : Host) (qname mode : string) (cache_hit : bool)
    (request_id : string) (trace : list TraceEvent) (written : list LogRow)
  : M (list LogRow * option exn) :=
  match trace with
  | [] => ret (written, None)
  | event :: rest =>
      let cache_status := if cache_hit then "HIT" else cache_status event in
      fun w =>
        match log_event host qname mode
                        (mkTraceEvent (server event) (step event)
                                      (response event) (rtt event)
                                      (total_time event) cache_status
                                      (event_time event))
                        request_id w with
        | Ret row w' =>
            log_events host qname mode cache_hit request_id rest
                       (written ++ [row]) w'
        | Exc e w' => Ret (written, Some e) w'
        | Spin w' => Spin w'
        end
  end.

(** [_handle_request]: the rows written to the log, in order, and what
    became of the response. An exception of the resolution or of
    [make_response] leaves the handler before any row is written.
    [recursive_default] is the field of the server of that name. *)
Definition _handle_request (env : Env) (host : Host) (srv : Server)
    (recursive_default : bool) (fuel : nat) (data : list byte)
  : M (list LogRow * Delivery) :=
  match from_wire host data with
  | None => ret ([], NoReply)
  | Some request =>
      match req_question request with
      | [] => ret ([], NoReply)
      | question :: _ =>
          let qname := q_name question in
          let qtype := q_rdtype question in
          let recursion_requested := req_rd request || recursive_default in
          ('(answers, rcode, trace, cache_hit) <-
             resolve env srv fuel qname qtype recursion_requested ;;
           match make_response host request with
           | inl e => raise e
           | inr made =>
               let reply :=
                 mkResponse (resp_id made) (resp_rd made)
                            (if recursion_requested then true else resp_ra made)
                            (resp_question made)
                            (resp_answer made ++ answers) rcode in
               let mode :=
                 if recursion_requested then "recursive" else "iterative" in
               request_id <- ask (uuid4 host) ;;
               '(rows, failed) <-
                 log_events host qname mode cache_hit request_id trace [] ;;
               match failed with
               | Some e => ret (rows, LogRaised e)
               | None =>
                   sent <- ask (fun t => sendto host t reply) ;;
                   match sent with
                   | None => ret (rows, Sent reply)
                   | Some OSError => ret (rows, SendFailed reply)
                   | Some e => ret (rows, SendRaised e reply)
                   end
               end
           end)%m
      end
  end.

(** ** Notions used to state the properties *)

(** A relation between the worlds before and after a computation holds
    whatever the outcome. *)
Definition respects (R : World -> World -> Prop) {A} (c : M A) : Prop :=
  forall w, R w (world_of (c w)).

(** A computation that never runs out of passes. *)
Definition never_spins {A} (c : M A) : Prop := forall w w', c w <> Spin w'.

Definition same_cache (w w' : World) : Prop := cache w' = cache w.

Definition later (w w' : World) : Prop := (tick w <= tick w')%nat.

Definition same_contacted (w w' : World) : Prop := contacted w' = contacted w.

(** [m] is the least element of [l]. *)
Definition is_min (m : Z) (l : list Z) : Prop :=
  In m l /\ forall x, In x l -> m <= x.

Definition status_trace (st : LoopStatus) : list TraceEvent :=
  match st with
  | AtHead c => trace c
  | Returned (_, _, tr) => tr
  end.

Definition pass_trace (r : PassResult) : list TraceEvent :=
  match r with
  | PassReturn _ _ tr => tr
  | PassBreak _ _ tr => tr
  | PassElse _ tr => tr
  end.


(** The labels of a trace in which pass number [k], [k + 1], ... of the
    [while] loop logged [counts] events each. *)
Fixpoint pass_labels (k : nat) (counts : list nat) : list string :=
  match counts with
  | [] => []
  | c :: rest => repeat (_step_name (Nat.min k 2)) c ++ pass_labels (S k) rest
  end.

(** The phase of pass number [k] of the walk, counted from 0, as the
    claim words it. *)
Definition phase_of (k : nat) : string :=
  match k with
  | O => "Root"
  | S O => "TLD"
  | _ => "Authoritative"
  end.

Definition phase_rank (label : string) : nat :=
  if String.eqb label "Root" then 0%nat
  else if String.eqb label "TLD" then 1%nat
  else 2%nat.

Fixpoint nondecreasing (l : list nat) : Prop :=
  match l with
  | x :: (y :: _) as rest => (x <= y)%nat /\ nondecreasing rest
  | _ => True
  end.

(** A list of strings in strictly increasing order, each element below
    the next. *)
Fixpoint increasing (l : list string) : Prop :=
  match l with
  | x :: (y :: _) as rest => String.compare x y = Lt /\ increasing rest
  | _ => True
  end.

(** The trace starts with one event for each of the servers [s1], [s2]
    and [s3], in this order. *)
Definition three_events_for (s1 s2 s3 : string) (tr : list TraceEvent) : Prop :=
  exists e1 e2 e3 rest,
    tr = e1 :: e2 :: e3 :: rest
    /\ server e1 = s1 /\ server e2 = s2 /\ server e3 = s3.

(** A reply that is followed as a referral through its glue: it is neither
    a positive answer nor NXDOMAIN, and its additional section holds at
    least one A or AAAA address. *)
Definition glue_referral (m : Message) : Prop :=
  ((msg_rcode m =? rcode.NOERROR) && nonempty (answer m) = false)
  /\ (msg_rcode m =? rcode.NXDOMAIN) = false
  /\ nonempty (_extract_glue_ips m) = true.

(** A reply that does not lead to a next candidate set. *)
Definition no_referral (m : Message) : Prop :=
  _extract_glue_ips m = [] /\ _extract_ns_names m = inr [].

(** Two environments that differ at most in what the system resolver
    answers to lookups of another type than A. *)
Definition same_A_lookups (env env' : Env) : Prop :=
  (forall t ns name,
     resolver_resolve env t ns name rdatatype.A
     = resolver_resolve env' t ns name rdatatype.A)
  /\ system_nameservers env = system_nameservers env'
  /\ ip_address env = ip_address env'.

(** ** The hand-written response decoder of [custom_dns_resolver.py] *)

Module Legacy.
Local Open Scope nat_scope.

(** What the body of the [try] can raise. [NoFuel] is not a Python
    exception: it marks a [while] loop of the model that used up its
    bound, which is shown never to happen. *)
Inductive err :=
| IndexError
| StructError
| NoFuel.

(** [data[a:b]] *)
Definition slice (data : list byte) (a b : nat) : list byte :=
  take (b - a) (drop a data).

(** [str(n)] *)
Definition str (n : nat) : string := NilEmpty.string_of_uint (Nat.to_uint n).

(** [struct.unpack("!H", bs)[0]] *)
Definition unpack_H (bs : list byte) : err + nat :=
  match bs with
  | [hi; lo] => inr (256 * to_nat hi + to_nat lo)
  | _ => inl StructError
  end.

(** [struct.unpack("!HHIH", bs)] *)
Definition unpack_HHIH (bs : list byte) : err + (nat * nat * N * nat) :=
  match bs with
  | [t1; t0; c1; c0; l3; l2; l1; l0; r1; r0] =>
      inr (256 * to_nat t1 + to_nat t0,
           256 * to_nat c1 + to_nat c0,
           (16777216 * to_N l3 + 65536 * to_N l2 + 256 * to_N l1 + to_N l0)%N,
           256 * to_nat r1 + to_nat r0)
  | _ => inl StructError
  end.

(** [b & 0xC0 == 0xC0] *)
Definition is_pointer (b : byte) : bool := Nat.land (to_nat b) 192 =? 192.

(** [while data[offset] != 0: offset += data[offset] + 1] *)
Fixpoint skip_labels (fuel : nat) (data : list byte) (offset : nat)
  : err + nat :=
  match fuel with
  | O => inl NoFuel
  | S fuel' =>
      match data !! offset with
      | None => inl IndexError
      | Some b =>
          if to_nat b =? 0 then inr offset
          else skip_labels fuel' data (offset + to_nat b + 1)
      end
  end.

(** The owner name of a record: a two-byte pointer, or labels and the
    closing zero. *)
Definition skip_owner (data : list byte) (offset : nat) : err + nat :=
  match data !! offset with
  | None => inl IndexError
  | Some b =>
      if is_pointer b then inr (offset + 2)
      else
        match skip_labels (S (length data)) data offset with
        | inl e => inl e
        | inr offset' => inr (offset' + 1)
        end
  end.

(** The number of records the header announces ([total]), 0 when the
    header is cut. *)
Definition announced (data : list byte) : nat :=
  match unpack_H (slice data 6 8), unpack_H (slice data 8 10),
        unpack_H (slice data 10 12) with
  | inr ancount, inr nscount, inr arcount => ancount + nscount + arcount
  | _, _, _ => 0
  end.

Section Decoder.
(** [bytes.decode(errors="ignore")] *)
Variable decode_ignore : list byte -> string.

(** The [while i < len(rdata) and rdata[i] != 0] loop over an NS
    RDATA; [None] when the bound of the model is used up. *)
Fixpoint ns_labels (fuel : nat) (rdata : list byte) (i : nat)
    (ns : list string) : option (list string) :=
  match fuel with
  | O => None
  | S fuel' =>
      match rdata !! i with
      | None => Some ns
      | Some b =>
          if to_nat b =? 0 then Some ns
          else if is_pointer b then Some ns
          else
            let l := to_nat b in
            ns_labels fuel' rdata (i + l + 1)
                      (ns ++ [decode_ignore (slice rdata (i + 1) (i + 1 + l))])
      end
  end.

(** [for _ in range(n)] over the records, from [offset], with the two
    result lists as they stand; the exception that ended the loop, if
    any, comes with the lists as they were when it was raised. *)
Fixpoint records (data : list byte) (n : nat) (offset : nat)
    (ips nss : list string) : list string * list string * option err :=
  match n with
  | O => (ips, nss, None)
  | S n' =>
      match skip_owner data offset with
      | inl e => (ips, nss, Some e)
      | inr offset =>
          match unpack_HHIH (slice data offset (offset + 10)) with
          | inl e => (ips, nss, Some e)
          | inr (rtype, rclass, ttl, rdlength) =>
              let offset := offset + 10 in
              let rdata := slice data offset (offset + rdlength) in
              let offset := offset + rdlength in
              if (rtype =? 1) && (rdlength =? 4) then
                records data n' offset
                        (ips ++ [String.concat "." (map str (map to_nat rdata))])
                        nss
              else if rtype =? 2 then
                match ns_labels (S (length rdata)) rdata 0 [] with
                | None => (ips, nss, Some NoFuel)
                | Some ns =>
                    records data n' offset ips (nss ++ [String.concat "." ns])
                end
              else records data n' offset ips nss
          end
      end
  end.

(** The body of the [try] of [parse_response]: the two lists when it
    was left, and the exception that left it, if any. *)
Definition parse_body (data : list byte)
  : list string * list string * option err :=
  match unpack_H (slice data 6 8) with
  | inl e => ([], [], Some e)
  | inr ancount =>
      match unpack_H (slice data 8 10) with
      | inl e => ([], [], Some e)
      | inr nscount =>
          match unpack_H (slice data 10 12) with
          | inl e => ([], [], Some e)
          | inr arcount =>
              let total := ancount + nscount + arcount in
              if total =? 0 then ([], [], None)
              else
                match skip_labels (S (length data)) data 12 with
                | inl e => ([], [], Some e)
                | inr offset => records data total (offset + 5) [] []
                end
          end
      end
  end.

(** [except Exception: pass], then [return ips, nss] *)
Definition parse_response (data : list byte) : list string * list string :=
  fst (parse_body data).
End Decoder.




Section Records.
Variable decode_ignore : list byte -> string.


End Records.

(** *** The query builder and the listener's own parsing *)

(** [s.split(".")] *)
Fixpoint split_dot (s : string) : list string :=
  match s with
  | EmptyString => [EmptyString]
  | String c r =>
      if Ascii.eqb c "."%char then EmptyString :: split_dot r
      else
        match split_dot r with
        | [] => [String c EmptyString]
        | x :: xs => String c x :: xs
        end
  end.

(** [struct.pack("!H", n)]; [None] is [struct.error] *)
Definition pack_H (n : nat) : option (list byte) :=
  match of_nat (n / 256), of_nat (n mod 256) with
  | Some hi, Some lo => Some [hi; lo]
  | _, _ => None
  end.

(** The answer record the listener writes: a pointer to the question
    name, [struct.pack("!HHI", 1, 1, 60)], [struct.pack("!H", 4)] and the
    address bytes. *)
Definition answer_record (octets : list byte) : list byte :=
  [xc0; x0c; x00; x01; x00; x01; x00; x00; x00; x3c; x00; x04] ++ octets.

(** How the listener's loop over the question name ends. *)
Inductive Parts :=
| PartsDone (parts : list string)
| PartsRaised
| PartsNoFuel.

Section Query.
(** [str.encode()] *)
Variable encode : string -> list byte.
(** [bytes.decode()]; [None] is [UnicodeDecodeError] *)
Variable decode : list byte -> option string.
(** [int(s)]; [None] is [ValueError] *)
Variable int : string -> option Z.

(** A label the length byte of which is right and which decodes back:
    not empty, and as many bytes as characters, which is the case of
    ASCII text. *)
Definition sound_label (x : string) : Prop :=
  x <> EmptyString
  /\ length (encode x) = String.length x
  /\ decode (encode x) = Some x.

(** [bytes([len(x)]) + x.encode()]; [None] is the [ValueError] of
    [bytes] for a length above 255 *)
Definition label_bytes (x : string) : option (list byte) :=
  match of_nat (String.length x) with
  | Some b => Some (b :: encode x)
  | None => None
  end.

(** [b"".join(... for x in labels)] *)
Fixpoint qname_labels (labels : list string) : option (list byte) :=
  match labels with
  | [] => Some []
  | x :: rest =>
      match label_bytes x with
      | None => None
      | Some b =>
          match qname_labels rest with
          | None => None
          | Some bs => Some (b ++ bs)
          end
      end
  end.

(** [build_query(domain)], [tid] being the value of
    [random.randint(0, 65535)]; [None] when it raises *)
Definition build_query (tid : nat) (domain : string) : option (nat * list byte) :=
  match pack_H tid with
  | None => None
  | Some tid_bytes =>
      let header :=
        tid_bytes ++ [x01; x00; x00; x01; x00; x00; x00; x00; x00; x00] in
      match qname_labels (split_dot domain) with
      | None => None
      | Some labels =>
          let qname := labels ++ [x00] in
          let question := qname ++ [x00; x01; x00; x01] in
          Some (tid, header ++ question)
      end
  end.

(** The loop of [main] over the question name of a datagram:
    [while data[i] != 0: l = data[i];
     parts.append(data[i+1:i+1+l].decode()); i += l+1] *)
Fixpoint question_parts (fuel : nat) (data : list byte) (i : nat)
    (parts : list string) : Parts :=
  match fuel with
  | O => PartsNoFuel
  | S fuel' =>
      match data !! i with
      | None => PartsRaised
      | Some b =>
          if to_nat b =? 0 then PartsDone parts
          else
            let l := to_nat b in
            match decode (slice data (i + 1) (i + 1 + l)) with
            | None => PartsRaised
            | Some x => question_parts fuel' data (i + l + 1) (parts ++ [x])
            end
      end
  end.

(** The domain [main] reads from a datagram; [None] when the datagram is
    passed over ([if not domain: continue]), an exception of the parsing
    having been caught. *)
Definition parse_domain (data : list byte) : option string :=
  match question_parts (S (length data)) data 12 [] with
  | PartsDone parts =>
      let domain := String.concat "." parts in
      if String.eqb domain EmptyString then None else Some domain
  | _ => None
  end.

(** [bytes(map(int, ip.split(".")))]; [None] when [int] or [bytes]
    raises [ValueError] *)
Fixpoint octets_of (fields : list string) : option (list byte) :=
  match fields with
  | [] => Some []
  | x :: rest =>
      match int x with
      | None => None
      | Some n =>
          if (0 <=? n)%Z && (n <=? 255)%Z then
            match of_nat (Z.to_nat n), octets_of rest with
            | Some b, Some bs => Some (b :: bs)
            | _, _ => None
            end
          else None
      end
  end.

(** The reply [main] builds for the datagram [data] and the address
    [ip]; [None] when building it raises. *)
Definition build_reply (data : list byte) (ip : string) : option (list byte) :=
  let tid := slice data 0 2 in
  let header :=
    tid ++ [x81; x80] ++ [x00; x01] ++ [x00; x01] ++ [x00; x00] ++ [x00; x00] in
  match skip_labels (S (length data)) data 12 with
  | inl _ => None
  | inr i =>
      let question := slice data 12 (i + 5) in
      match octets_of (split_dot ip) with
      | None => None
      | Some octets => Some (header ++ question ++ answer_record octets)
      end
  end.
End Query.

(** *** The resolver of the listener *)

Definition ROOT_SERVERS : list string :=
  ["198.41.0.4"; "199.9.14.201"; "192.33.4.12"; "199.7.91.13";
   "192.203.230.10"; "192.5.5.241"; "192.112.36.4"; "198.97.190.53"].

Definition CACHE_TTL : Z := 300%Z.

(** The arguments of one call of [log_entry], after the time stamp it
    takes itself. The two durations are the values passed, in
    milliseconds; the line written renders them rounded to two places. *)
Record LogEntry := mkLogEntry {
  le_timestamp : string;
  le_domain : string;
  le_mode : string;
  le_client_ip : string;
  le_step : string;
  le_server_ip : string;
  le_response : string;
  le_rtt : Q;
  le_total_time : Q;
  le_cache_status : string
}.

(** The global [CACHE], the lines of the log file, the count of
    interactions and the servers datagrams were sent to. *)
Record LState := mkLState {
  l_cache : gmap string (string * Q);
  l_log : list LogEntry;
  l_tick : nat;
  l_sent : list string
}.

(** What the listener's resolver cannot compute by itself, by the count of
    interactions. *)
Record LNet := mkLNet {
  l_time : nat -> Q;
  l_utcnow : nat -> string;
  l_randint : nat -> nat;
  (** [sendto] then [recvfrom] on a fresh socket: the datagram received,
      [None] when either raises *)
  l_exchange : nat -> string -> list byte -> option (list byte);
  (** [socket.gethostbyname]; [None] when it raises *)
  l_gethostbyname : nat -> string -> option string
}.

(** How a call ends: with its return value, or with the exception of
    [build_query]. *)
Inductive LResult :=
| LReturn (ip : option string)
| LRaise.

Definition l_bump (st : LState) : LState :=
  mkLState (l_cache st) (l_log st) (S (l_tick st)) (l_sent st).

Section Resolver.
Variable encode : string -> list byte.
Variable decode_ignore : list byte -> string.
Variable net : LNet.

(** [log_entry(...)]: one line appended, stamped with the clock *)
Definition log_entry (domain mode client_ip step server_ip response : string)
    (rtt total_time : Q) (cache_status : string) (st : LState) : LState :=
  mkLState (l_cache st)
           (l_log st ++ [mkLogEntry (l_utcnow net (l_tick st)) domain mode
                                    client_ip step server_ip response rtt
                                    total_time cache_status])
           (S (l_tick st)) (l_sent st).

(** The [for ns in nss] loop over the names of a referral *)
Fixpoint next_servers_of (nss : list string) (acc : list string) (st : LState)
  : list string * LState :=
  match nss with
  | [] => (acc, st)
  | ns :: rest =>
      match l_gethostbyname net (l_tick st) ns with
      | Some ns_ip => next_servers_of rest (acc ++ [ns_ip]) (l_bump st)
      | None => next_servers_of rest acc (l_bump st)
      end
  end.

Definition ms (later earlier : Q) : Q := Qmult (Qminus later earlier) (inject_Z 1000).

(** The body of [for depth in range(3)], for the depths still to run,
    and what follows the loop. *)
Fixpoint resolve_depths (domain client_ip : string) (start_total : Q)
    (depths : list nat) (current_servers : list string) (step : string)
    (st : LState) : LResult * LState :=
  match depths with
  | [] =>
      let total_time := ms (l_time net (l_tick st)) start_total in
      (LReturn None,
       log_entry domain "Iterative" client_ip step "N/A" "Unresolved" 0%Q
                 total_time "MISS" (l_bump st))
  | depth :: later =>
      match current_servers with
      | [] => (LRaise, st)
      | server_ip :: _ =>
          match build_query encode (l_randint net (l_tick st)) domain with
          | None => (LRaise, l_bump st)
          | Some (tid, packet) =>
              let st := l_bump st in
              let step_start := l_time net (l_tick st) in
              let st := l_bump st in
              let st_sent :=
                mkLState (l_cache st) (l_log st) (S (l_tick st))
                         (l_sent st ++ [server_ip]) in
              match l_exchange net (l_tick st) server_ip packet with
              | None =>
                  let total := ms (l_time net (l_tick st_sent)) start_total in
                  (LReturn None,
                   log_entry domain "Iterative" client_ip step server_ip
                             "TIMEOUT" 0%Q total "MISS" (l_bump st_sent))
              | Some data =>
                  let st := st_sent in
                  let rtt := ms (l_time net (l_tick st)) step_start in
                  let st := l_bump st in
                  let '(ips, nss) := parse_response decode_ignore data in
                  match ips with
                  | ip :: _ =>
                      let total_time := ms (l_time net (l_tick st)) start_total in
                      let st := l_bump st in
                      let expiry :=
                        Qplus (l_time net (l_tick st)) (inject_Z CACHE_TTL) in
                      let st :=
                        mkLState (<[domain := (ip, expiry)]> (l_cache st))
                                 (l_log st) (S (l_tick st)) (l_sent st) in
                      (LReturn (Some ip),
                       log_entry domain "Iterative" client_ip step server_ip ip
                                 rtt total_time "MISS" st)
                  | [] =>
                      match nss with
                      | [] =>
                          resolve_depths domain client_ip start_total later
                                         current_servers step st
                      | _ :: _ =>
                          let step :=
                            if (depth =? 0)%nat then "TLD" else "Authoritative" in
                          let '(next_servers, st) := next_servers_of nss [] st in
                          match next_servers with
                          | [] =>
                              let total :=
                                ms (l_time net (l_tick st)) start_total in
                              (LReturn None,
                               log_entry domain "Iterative" client_ip step
                                         server_ip "Referral w/ no A" rtt total
                                         "MISS" (l_bump st))
                          | _ :: _ =>
                              let total :=
                                ms (l_time net (l_tick st)) start_total in
                              let st :=
                                log_entry domain "Iterative" client_ip step
                                          server_ip (String.concat "," nss) rtt
                                          total "MISS" (l_bump st) in
                              resolve_depths domain client_ip start_total later
                                             next_servers step st
                          end
                      end
                  end
              end
          end
      end
  end.

(** [iterative_resolve(domain, client_ip)] *)
Definition iterative_resolve (domain client_ip : string) (st : LState)
  : LResult * LState :=
  let cached :=
    match l_cache st !! domain with
    | Some (ip, expiry) =>
        if Qltb (l_time net (l_tick st)) expiry then Some (ip, l_bump st)
        else None
    | None => None
    end in
  match cached with
  | Some (ip, st) =>
      (LReturn (Some ip),
       log_entry domain "Iterative" client_ip "Cache" ip ip 0%Q 0%Q "HIT" st)
  | None =>
      let st := match l_cache st !! domain with
                | Some _ => l_bump st
                | None => st
                end in
      let start_total := l_time net (l_tick st) in
      resolve_depths domain client_ip start_total [0; 1; 2]%nat ROOT_SERVERS
                     "Root" (l_bump st)
  end.
End Resolver.

(** What every row logged by a walk carries: the domain, the mode and the
    client of the call, and the mark MISS. *)
Definition walk_row (domain client_ip : string) (row : LogEntry) : Prop :=
  le_domain row = domain /\ le_mode row = "Iterative"%string
  /\ le_client_ip row = client_ip /\ le_cache_status row = "MISS"%string.

(** A decoder for tests: ASCII text as it is. *)
Definition decode_ascii (bs : list byte) : string :=
  string_of_list_ascii (map ascii_of_byte bs).

(** Codecs for tests: ASCII text as its bytes, and unsigned decimal
    numbers. *)
Definition encode_ascii (x : string) : list byte := list_byte_of_string x.

Definition decode_strict_ascii (bs : list byte) : option string :=
  Some (string_of_list_byte bs).

Definition int_decimal (x : string) : option Z :=
  match NilEmpty.uint_of_string x with
  | Some u => Some (Z.of_nat (Nat.of_uint u))
  | None => None
  end.

(** A network for tests: every exchange returns the same response, one A
    record for example.com; the clock advances by one second per
    interaction. *)
Definition one_answer : list byte :=
  [x00; x01; x81; x80; x00; x01; x00; x01; x00; x00; x00; x00;
   x07; x65; x78; x61; x6d; x70; x6c; x65; x03; x63; x6f; x6d; x00;
   x00; x01; x00; x01;
   xc0; x0c; x00; x01; x00; x01; x00; x00; x01; x2c; x00; x04;
   x5d; xb8; xd8; x22].

Definition answering_net : LNet :=
  mkLNet (fun t => inject_Z (Z.of_nat t)) (fun _ => "2025-01-01T00:00:00")
         (fun _ => 4660) (fun _ _ _ => Some one_answer) (fun _ _ => None).

Definition l0 : LState := mkLState ∅ [] 0 [].
End Legacy.

(** ** Concrete upstreams *)

Module Demo.
Definition glue_a (name addr : string) : RRset :=
  mkRRset name rdatatype.A 172800 [RdA addr].

Definition glue_aaaa (name addr : string) : RRset :=
  mkRRset name rdatatype.AAAA 172800 [RdAAAA addr].

Definition ns_set (zone target : string) : RRset :=
  mkRRset zone rdatatype.NS 172800 [RdNS target].

Definition referral (zone ns : string) (glue : list RRset) : Message :=
  mkMessage rcode.NOERROR [] [ns_set zone ns] glue.

Definition example_answer : list RRset :=
  [mkRRset "example.com." rdatatype.A 300 [RdA "93.184.216.34"]].

Definition com_referral : Message :=
  referral "com." "a.gtld-servers.net."
           [glue_a "a.gtld-servers.net." "192.5.6.30";
            glue_aaaa "a.gtld-servers.net." "2001:503:a83e::2:30"].

(** Of three root servers only the third replies, with a referral to
    the com. servers; two more referrals lead to a server that answers
    for example.com. and knows no other name. *)
Definition walk_udp (t : nat) (server qname : string) (qtype : Z) (rd : bool)
  : exn + Message :=
  if String.eqb server "192.33.4.12" then inr com_referral
  else if String.eqb server "192.5.6.30" then
    inr (referral "example.com." "ns1.example.com."
                  [glue_a "ns1.example.com." "203.0.113.1"])
  else if String.eqb server "203.0.113.1" then
    inr (referral "example.com." "ns2.example.com."
                  [glue_a "ns2.example.com." "203.0.113.2"])
  else if String.eqb server "203.0.113.2" then
    if String.eqb qname "example.com."
    then inr (mkMessage rcode.NOERROR example_answer [] [])
    else inr (mkMessage rcode.NXDOMAIN [] [] [])
  else inl Timeout.

Definition text_of_rcode (r : Z) : string :=
  if r =? 0 then "NOERROR"
  else if r =? 2 then "SERVFAIL"
  else if r =? 3 then "NXDOMAIN"
  else "RCODE".

Definition seconds (t : nat) : Instant := inject_Z (Z.of_nat t).

Definition local_only (ns : string) : option (bool * bool) :=
  if String.eqb ns "127.0.0.53" then Some (true, false) else Some (false, false).

(** The system resolver times out on every lookup. *)
Definition walk_env : Env :=
  mkEnv walk_udp (fun _ _ _ _ => inl Timeout) seconds seconds
        ["127.0.0.53"] local_only text_of_rcode lower.

(** Every server answers every query with the same glued referral, which
    leads back to the candidate set it was reached from. *)
Definition loop_referral : Message :=
  referral "com." "ns.loop.example." [glue_a "ns.loop.example." "192.0.2.1"].

Definition loop_env : Env :=
  mkEnv (fun _ _ _ _ _ => inr loop_referral) (fun _ _ _ _ => inl Timeout)
        seconds seconds ["127.0.0.53"] local_only text_of_rcode lower.

(** The referral of the only root carries an AAAA glue record only. *)
Definition v6_referral : Message :=
  referral "com." "a.gtld-servers.net."
           [glue_aaaa "a.gtld-servers.net." "2001:503:a83e::2:30"].

Definition v6_env : Env :=
  mkEnv (fun _ _ _ _ _ => inr v6_referral) (fun _ _ _ _ => inl Timeout)
        seconds seconds ["127.0.0.53"] local_only text_of_rcode lower.

(** The walk of [walk_env] up to the twelfth interaction; from then on
    every server replies SERVFAIL with empty sections. *)
Definition fading_udp (t : nat) (server qname : string) (qtype : Z) (rd : bool)
  : exn + Message :=
  if (t <? 12)%nat then walk_udp t server qname qtype rd
  else inr (mkMessage rcode.SERVFAIL [] [] []).

Definition fading_env : Env :=
  mkEnv fading_udp (fun _ _ _ _ => inl Timeout) seconds seconds
        ["127.0.0.53"] local_only text_of_rcode lower.

(** A record set one of whose TTLs has run down to zero. *)
Definition stale_answer : list RRset :=
  [mkRRset "example.com." rdatatype.A 300 [RdA "93.184.216.34"];
   mkRRset "example.com." rdatatype.A 0 [RdA "93.184.216.35"]].

Definition srv : Server :=
  mkServer true ["198.41.0.4"; "199.9.14.201"; "192.33.4.12"].

(** A referral that names a server without giving its address; the system
    resolver knows the address. *)
Definition unglued_referral : Message :=
  referral "example.net." "ns1.example.net." [].

Definition ns1_answer : Message :=
  mkMessage rcode.NOERROR
            [mkRRset "ns1.example.net." rdatatype.A 3600 [RdA "203.0.113.9"]]
            [] [].

Definition unglued_env : Env :=
  mkEnv (fun _ _ _ _ _ => inr unglued_referral)
        (fun _ _ name _ =>
           if String.eqb name "ns1.example.net." then inr ns1_answer
           else inl NXDOMAIN_exn)
        seconds seconds ["127.0.0.53"] local_only text_of_rcode lower.

(** The system resolver answers every name with the answer for
    example.com. *)
Definition answering_env : Env :=
  mkEnv walk_udp
        (fun _ _ _ _ => inr (mkMessage rcode.NOERROR example_answer [] []))
        seconds seconds ["127.0.0.53"] local_only text_of_rcode lower.

Definition srv_no_cache : Server :=
  mkServer false ["198.41.0.4"; "199.9.14.201"; "192.33.4.12"].

(** A host whose decoder accepts the one-byte datagram [x01] as a query
    for example.com. of type A without the RD flag, and the one-byte
    datagram [x02] as a message without question. *)
Definition demo_request : Request :=
  mkRequest 7 false [mkQuestion "example.com." 1].

Definition demo_host : Host :=
  mkHost (fun data =>
            match data with
            | [x01] => Some demo_request
            | [x02] => Some (mkRequest 8 false [])
            | _ => None
            end)
         (fun r =>
            inr (mkResponse (req_id r) (req_rd r) false (req_question r) [] 0))
         (fun _ => "3f2b8c1e-0000-4000-8000-000000000001")
         (fun _ => "2025-01-01 00:00:00")
         (fun _ => "0.000000")
         (fun _ _ => None)
         (fun _ _ => None).

(** The same host with a log that raises from interaction 29 on, as a
    log file closed meanwhile does: of the four rows of the walk for
    example.com. from [w0], two are written. *)
Definition closing_log_host : Host :=
  mkHost (from_wire demo_host) (make_response demo_host) (uuid4 demo_host)
         (strftime_local demo_host) (format_6f demo_host)
         (fun t _ => if (t <? 29)%nat then None else Some OtherError)
         (sendto demo_host).

Definition w0 : World := mkWorld ∅ 0 [].

(** A world whose cache holds the answer for example.com. until
    second 300. *)
Definition w_cached : World :=
  mkWorld {[ ("example.com.", 1) := mkCacheEntry example_answer (inject_Z 300) ]}
          0 [].
End Demo.

(** ** Basic facts *)

Lemma Qltb_lt (a b : Q) : Qltb a b = true <-> (a < b)%Q.
Proof.
  unfold Qltb. rewrite Qlt_alt.
  destruct (a ?= b)%Q; split; intro H; congruence.
Qed.

Lemma Qltb_ge (a b : Q) : Qltb a b = false <-> (b <= a)%Q.
Proof.
  unfold Qltb. rewrite Qge_alt.
  destruct (a ?= b)%Q; split; intro H; congruence.
Qed.

Lemma copy_rrsets_id (l : list RRset) : copy_rrsets l = l.
Proof.
  unfold copy_rrsets. induction l as [|[n t l0 i] l IH]; simpl; [reflexivity|].
  unfold rrset_copy at 1. simpl. now rewrite IH.
Qed.

Lemma min_ttl_le_acc (ts : list Z) (t : Z) : min_ttl t ts <= t.
Proof.
  unfold min_ttl. revert t.
  induction ts as [|x ts IH]; intros t; simpl; [lia|].
  specialize (IH (Z.min t x)). lia.
Qed.

Lemma min_ttl_lower (ts : list Z) (t x : Z) : In x ts -> min_ttl t ts <= x.
Proof.
  unfold min_ttl. revert t.
  induction ts as [|y ts IH]; intros t Hin; simpl in *; [contradiction|].
  destruct Hin as [->|Hin].
  - pose proof (min_ttl_le_acc ts (Z.min t x)) as H. unfold min_ttl in H. lia.
  - now apply IH.
Qed.

Lemma min_ttl_in (ts : list Z) (t : Z) : In (min_ttl t ts) (t :: ts).
Proof.
  unfold min_ttl. revert t.
  induction ts as [|y ts IH]; intros t; simpl; [now left|].
  destruct (IH (Z.min t y)) as [H|H].
  - rewrite <- H. destruct (Z.min_spec t y) as [[_ ->]|[_ ->]]; auto.
  - now right; right.
Qed.

Lemma min_ttl_is_min (t : Z) (ts : list Z) : is_min (min_ttl t ts) (t :: ts).
Proof.
  split; [apply min_ttl_in|].
  intros x [<-|Hin]; [apply min_ttl_le_acc | now apply min_ttl_lower].
Qed.

Lemma is_min_unique (m m' : Z) (l : list Z) : is_min m l -> is_min m' l -> m = m'.
Proof.
  intros [Hin Hle] [Hin' Hle']. specialize (Hle _ Hin'). specialize (Hle' _ Hin). lia.
Qed.

(** [_cache_store] never removes a key. *)
Lemma cache_store_keeps_keys env srv qname qtype rrs (w w' : World) k :
  _cache_store env srv qname qtype rrs w = Ret tt w' ->
  is_Some (cache w !! k) -> is_Some (cache w' !! k).
Proof.
  unfold _cache_store. intros H Hk.
  destruct (negb (cache_enabled srv)); [now inversion H; subst|].
  destruct (map ttl rrs) as [|t ts]; [now inversion H; subst|].
  destruct (min_ttl t ts <=? 0); [now inversion H; subst|].
  inversion H; subst; clear H. simpl.
  destruct (decide (_cache_key env qname qtype = k)) as [->|Hne].
  - rewrite lookup_insert_eq. eauto.
  - now rewrite lookup_insert_ne.
Qed.

(** A lookup of a key that is not in the cache is a miss and changes
    nothing, whatever the clock says. *)
Lemma cache_lookup_absent env qname qtype (w : World) :
  cache w !! _cache_key env qname qtype = None ->
  _cache_lookup env qname qtype w = Ret None w.
Proof. unfold _cache_lookup. now intros ->. Qed.

(** After any lookup that misses, the key is not in the cache. *)
Lemma cache_lookup_miss env qname qtype (w w' : World) :
  _cache_lookup env qname qtype w = Ret None w' ->
  cache w' !! _cache_key env qname qtype = None
  /\ (forall k, k <> _cache_key env qname qtype -> cache w' !! k = cache w !! k)
  /\ contacted w' = contacted w.
Proof.
  unfold _cache_lookup.
  destruct (cache w !! _cache_key env qname qtype) as [e|] eqn:He.
  - destruct (fresh _ e); intros H; inversion H; subst; clear H. simpl.
    rewrite lookup_delete_eq. split; [reflexivity|]. split; [|reflexivity].
    intros k Hk. now rewrite lookup_delete_ne.
  - intros H; inversion H; subst. auto.
Qed.

(** ** The answer cache *)

(** C1. For a key that is in the cache, a lookup returns the stored records
    exactly when the clock reading is strictly before the entry's expiry,
    and then leaves the cache as it is; at or after the expiry it returns
    absent and removes the entry in that same call. The store operation
    never removes a key, so removal happens in a lookup only. *)
Theorem cache_lookup_expiry env qname qtype (w : World) (e : CacheEntry) :
  cache w !! _cache_key env qname qtype = Some e ->
  let now := time_time env (tick w) in
  exists r w',
    _cache_lookup env qname qtype w = Ret r w'
    /\ (r = Some (rrsets e) <-> (now < expiry e)%Q)
    /\ ((now < expiry e)%Q -> cache w' = cache w)
    /\ ((expiry e <= now)%Q ->
        r = None /\ cache w' = delete (_cache_key env qname qtype) (cache w))
    /\ (forall srv qn qt rrs k w0 w1,
          _cache_store env srv qn qt rrs w0 = Ret tt w1 ->
          is_Some (cache w0 !! k) -> is_Some (cache w1 !! k)).
Proof.
  intros He now. unfold _cache_lookup. rewrite He. fold now. unfold fresh.
  destruct (Qltb now (expiry e)) eqn:Hf.
  - apply Qltb_lt in Hf.
    exists (Some (copy_rrsets (rrsets e))), (bump w).
    rewrite copy_rrsets_id. split_and!; auto.
    + tauto.
    + intros Hle. exfalso. exact (Qle_not_lt _ _ Hle Hf).
    + intros. eapply cache_store_keeps_keys; eauto.
  - apply Qltb_ge in Hf.
    eexists None, _. split; [reflexivity|]. split_and!; auto.
    + split; [discriminate|].
      intros Hlt. exfalso. exact (Qle_not_lt _ _ Hf Hlt).
    + intros Hlt. exfalso. exact (Qle_not_lt _ _ Hf Hlt).
    + intros. eapply cache_store_keeps_keys; eauto.
Qed.

(** C3. The store operation uses the least TTL [m] of the supplied record
    set. When [m <= 0] it changes nothing, so that a lookup of a key that
    was not in the cache before still returns absent; when [0 < m] and the
    cache is enabled the entry it writes holds the supplied records and
    expires [m] seconds after the clock reading. *)
Theorem cache_store_min_ttl env srv qname qtype (rrs : list RRset) (w : World)
    (m : Z) :
  is_min m (map ttl rrs) ->
  (m <= 0 ->
     _cache_store env srv qname qtype rrs w = Ret tt w
     /\ (forall env', cache w !! _cache_key env' qname qtype = None ->
                      _cache_lookup env' qname qtype w = Ret None w))
  /\ (0 < m -> cache_enabled srv = true ->
      exists w',
        _cache_store env srv qname qtype rrs w = Ret tt w'
        /\ cache w' !! _cache_key env qname qtype
           = Some (mkCacheEntry rrs
                     (Qplus (time_time env (tick w)) (inject_Z m)))).
Proof.
  intros Hmin. unfold _cache_store.
  destruct (map ttl rrs) as [|t ts] eqn:Httl; [destruct Hmin as [[] _]|].
  rewrite (is_min_unique _ _ _ Hmin (min_ttl_is_min t ts)).
  split.
  - intros Hle. split.
    + destruct (negb (cache_enabled srv)); [reflexivity|].
      destruct (Z.leb_spec (min_ttl t ts) 0); [reflexivity | lia].
    + intros env' Hnone. now apply cache_lookup_absent.
  - intros Hpos ->. simpl.
    destruct (Z.leb_spec (min_ttl t ts) 0); [lia|].
    eexists. split; [reflexivity|]. simpl.
    now rewrite lookup_insert_eq, copy_rrsets_id.
Qed.

(** C4. A query answered from the cache yields exactly one trace event,
    with cache status HIT and both times zero; no server is contacted. *)
Theorem resolve_cache_hit env srv fuel qname qtype rd (w w1 : World)
    (cached : list RRset) :
  _cache_lookup env qname qtype w = Ret (Some cached) w1 ->
  exists ev w',
    resolve env srv fuel qname qtype rd w
      = Ret (cached, rcode.NOERROR, [ev], true) w'
    /\ cache_status ev = "HIT"
    /\ rtt ev = 0%Q
    /\ total_time ev = 0%Q
    /\ contacted w' = contacted w.
Proof.
  intros Hhit. unfold resolve, bind. rewrite Hhit. unfold ask, ret.
  eexists _, _. split; [reflexivity|]. simpl. repeat split; auto.
  unfold _cache_lookup in Hhit.
  destruct (cache w !! _cache_key env qname qtype) as [e|]; [|discriminate].
  destruct (fresh _ e); inversion Hhit; subst. reflexivity.
Qed.

(** ** What the resolution leaves unchanged *)

Section Frame.
Variable R : World -> World -> Prop.
Hypothesis R_refl : forall w, R w w.
Hypothesis R_trans : forall a b c, R a b -> R b c -> R a c.
Hypothesis R_bump : forall w, R w (bump w).
Hypothesis R_note : forall s w, R w (note_contact s w).

Lemma respects_ret {A} (a : A) : respects R (ret a).
Proof. intros w. apply R_refl. Qed.

Lemma respects_raise {A} (e : exn) : respects R (@raise A e).
Proof. intros w. apply R_refl. Qed.

Lemma respects_ask {A} (f : nat -> A) : respects R (ask f).
Proof. intros w. apply R_bump. Qed.

Lemma respects_bind {A B} (c : M A) (k : A -> M B) :
  respects R c -> (forall a, respects R (k a)) -> respects R (bind c k).
Proof.
  intros Hc Hk w. unfold bind. specialize (Hc w).
  destruct (c w) as [a w1|e w1|w1]; simpl in *; auto.
  eapply R_trans; [exact Hc | apply Hk].
Qed.

Lemma respects_try_query {A} (c : M A) :
  respects R c -> respects R (try_query c).
Proof.
  intros Hc w. unfold try_query. specialize (Hc w).
  destruct (c w) as [a w1|[] w1|w1]; simpl in *; auto.
Qed.

Lemma respects_send_udp env server_ip qname qtype rd :
  respects R (send_udp env server_ip qname qtype rd).
Proof.
  intros w. unfold send_udp.
  assert (R w (bump (note_contact server_ip w))) as H
    by (eapply R_trans; [apply R_note | apply R_bump]).
  destruct (udp env (tick w) server_ip qname qtype rd); exact H.
Qed.

Lemma respects_query_server env server_ip qname qtype rd :
  respects R (_query_server env server_ip qname qtype rd).
Proof.
  unfold _query_server.
  apply respects_bind; [apply respects_ask | intros start].
  apply respects_bind; [apply respects_send_udp | intros m].
  apply respects_bind; [apply respects_ask | intros stop].
  apply respects_ret.
Qed.

Lemma respects_resolve_ns_loop env nameservers ns_names ips :
  respects R (resolve_ns_loop env nameservers ns_names ips).
Proof.
  revert ips. induction ns_names as [|n ns IH]; intros ips; simpl.
  - apply respects_ret.
  - apply respects_bind; [apply respects_ask | intros [[]|m]];
      auto using respects_raise.
Qed.

Lemma respects_recursive_lookup env qname qtype :
  respects R (_recursive_lookup env qname qtype).
Proof.
  unfold _recursive_lookup.
  apply respects_bind; [apply respects_ask | intros start].
  apply respects_bind; [apply respects_ask | intros [[]|m]];
    try apply respects_raise;
    (apply respects_bind; [apply respects_ask | intros stop];
     apply respects_bind; [apply respects_ask | intros now];
     apply respects_ret).
Qed.

Lemma respects_for_servers env start step_name qname qtype rd todo lr tr :
  respects R (for_servers env start step_name qname qtype rd todo lr tr).
Proof.
  revert lr tr. induction todo as [|s rest IH]; intros lr tr; simpl.
  - apply respects_ret.
  - apply respects_bind;
      [apply respects_try_query, respects_query_server | intros [[m rtt]|]];
      [|apply IH].
    apply respects_bind; [apply respects_ask | intros now].
    apply respects_bind; [apply respects_ask | intros et].
    repeat case_match; auto using respects_ret, respects_raise.
    apply respects_bind; [apply respects_resolve_ns_loop | intros ips].
    case_match; auto using respects_ret.
Qed.

Lemma respects_loop_iter env start qname qtype rd n c :
  respects R (loop_iter env start qname qtype rd n c).
Proof.
  revert c. induction n as [|n IH]; intros c; simpl.
  - apply respects_ret.
  - destruct (servers c); [apply respects_ret|].
    apply respects_bind; [apply respects_for_servers | intros [a rc tr|s' lr tr|lr tr]];
      auto using respects_ret.
Qed.

Lemma respects_iterative_lookup env srv fuel qname qtype rd :
  respects R (_iterative_lookup env srv fuel qname qtype rd).
Proof.
  unfold _iterative_lookup.
  apply respects_bind; [apply respects_ask | intros start].
  apply respects_bind; [apply respects_loop_iter | intros [c|r]].
  - intros w. apply R_refl.
  - apply respects_ret.
Qed.
End Frame.

Lemma recursive_lookup_same_cache env qname qtype :
  respects same_cache (_recursive_lookup env qname qtype).
Proof. apply respects_recursive_lookup; unfold same_cache; simpl; congruence. Qed.

Lemma iterative_lookup_same_cache env srv fuel qname qtype rd :
  respects same_cache (_iterative_lookup env srv fuel qname qtype rd).
Proof. apply respects_iterative_lookup; unfold same_cache; simpl; congruence. Qed.

(** ** Stepping through monadic code *)

Lemma bind_ret_inv {A B} (c : M A) (k : A -> M B) (w w' : World) (b : B) :
  bind c k w = Ret b w' -> exists a w1, c w = Ret a w1 /\ k a w1 = Ret b w'.
Proof.
  unfold bind. destruct (c w) as [a w1|e w1|w1]; intros H; try discriminate.
  eauto.
Qed.

Lemma bind_ret_eq {A B} (c : M A) (k : A -> M B) (w w1 : World) (a : A) :
  c w = Ret a w1 -> bind c k w = k a w1.
Proof. unfold bind. now intros ->. Qed.

Ltac ret_inv H :=
  match type of H with
  | ret _ _ = Ret _ _ => unfold ret in H; inversion H; subst; clear H
  | Ret _ _ = Ret _ _ => inversion H; subst; clear H
  | raise _ _ = Ret _ _ => discriminate H
  end.

(** ** One pass over a candidate set *)

Ltac one_event ev :=
  exists [ev];
  split; [reflexivity|];
  split; [constructor; [now subst ev | constructor]|];
  split; [simpl; lia|].

(** Whatever a pass returns, it has appended to the trace at most one event
    per candidate, each labelled with the phase of the pass and MISS; a
    [return] carries a positive answer or an empty NXDOMAIN; a [break]
    carries a next candidate set that is not empty and has logged the
    referral it comes from. *)
Lemma for_servers_result env start sn qname qtype rd todo lr tr w r w' :
  for_servers env start sn qname qtype rd todo lr tr w = Ret r w' ->
  exists evs,
    pass_trace r = tr ++ evs
    /\ Forall (fun e => step e = sn /\ cache_status e = "MISS") evs
    /\ (length evs <= length todo)%nat
    /\ match r with
       | PassReturn a rc _ =>
           (a <> [] /\ rc = rcode.NOERROR) \/ (a = [] /\ rc = rcode.NXDOMAIN)
       | PassBreak s _ _ => s <> [] /\ evs <> []
       | PassElse _ _ => True
       end.
Proof.
  revert lr tr w. induction todo as [|s rest IH]; intros lr tr w H; simpl in H.
  - ret_inv H. exists []. simpl. rewrite app_nil_r. auto.
  - apply bind_ret_inv in H as ([[m rtt]|] & w1 & _ & H).
    2:{ apply IH in H as (evs & ? & ? & ? & ?). exists evs. simpl. auto with lia. }
    cbn [bind ask] in H.
    set (ev := mkTraceEvent _ _ _ _ _ _ _) in H.
    assert (Hmore : forall w2,
               for_servers env start sn qname qtype rd rest (msg_rcode m)
                           (tr ++ [ev]) w2 = Ret r w' ->
               exists evs,
                 pass_trace r = tr ++ evs
                 /\ Forall (fun e => step e = sn /\ cache_status e = "MISS") evs
                 /\ (length evs <= length (s :: rest))%nat
                 /\ match r with
                    | PassReturn a rc _ =>
                        (a <> [] /\ rc = rcode.NOERROR)
                        \/ (a = [] /\ rc = rcode.NXDOMAIN)
                    | PassBreak s _ _ => s <> [] /\ evs <> []
                    | PassElse _ _ => True
                    end).
    { intros w2 Hrec. apply IH in Hrec as (evs & Htr & Hall & Hlen & Hr).
      exists (ev :: evs). rewrite Htr, <- app_assoc. simpl.
      split; [reflexivity|]. split; [constructor; [now subst ev | exact Hall]|].
      split; [lia|]. destruct r; auto. destruct Hr. split; [auto | discriminate]. }
    destruct ((msg_rcode m =? rcode.NOERROR) && nonempty (answer m)) eqn:Hans.
    { ret_inv H. one_event ev. left. split; [|reflexivity].
      apply andb_true_iff in Hans as [_ Hne]. now destruct (answer m). }
    destruct (msg_rcode m =? rcode.NXDOMAIN) eqn:Hnx.
    { ret_inv H. one_event ev. now right. }
    destruct (nonempty (_extract_glue_ips m)) eqn:Hglue.
    { ret_inv H. one_event ev.
      split; [now destruct (_extract_glue_ips m) | discriminate]. }
    destruct (_extract_ns_names m) as [e|[|n ns]]; [discriminate H | eauto |].
    apply bind_ret_inv in H as (ips & w3 & _ & H).
    destruct (nonempty ips) eqn:Hips; [|eauto].
    ret_inv H. one_event ev. split; [now destruct ips | discriminate].
Qed.

(** A result of the loop with records has response code NOERROR. *)
Lemma loop_iter_answers env start qname qtype rd n c w a rc tr w' :
  loop_iter env start qname qtype rd n c w = Ret (Returned (a, rc, tr)) w' ->
  a = [] \/ rc = rcode.NOERROR.
Proof.
  revert c w. induction n as [|n IH]; intros c w H; simpl in H.
  - ret_inv H.
  - destruct (servers c); [ret_inv H; auto|].
    apply bind_ret_inv in H as (r & w1 & Hpass & H).
    apply for_servers_result in Hpass as (evs & _ & _ & _ & Hr).
    destruct r as [a0 rc0 tr0|s' lr0 tr0|lr0 tr0].
    + ret_inv H. destruct Hr as [[_ ->]|[-> _]]; auto.
    + eauto.
    + ret_inv H. auto.
Qed.

Lemma iterative_lookup_answers env srv fuel qname qtype rd w a rc tr w' :
  _iterative_lookup env srv fuel qname qtype rd w = Ret (a, rc, tr) w' ->
  a = [] \/ rc = rcode.NOERROR.
Proof.
  unfold _iterative_lookup. intros H.
  apply bind_ret_inv in H as (start & w1 & _ & H).
  apply bind_ret_inv in H as ([c|r] & w2 & Hloop & H); [discriminate H|].
  ret_inv H. eapply loop_iter_answers; eauto.
Qed.

(** ** NXDOMAIN is not cached *)

(** C2. When a resolution returns the response code NXDOMAIN, recursion
    requested or not, it returns no records and is not a cache hit, the
    cache holds nothing for the key of the query afterwards and every other
    key is as before, so that a lookup made in the resulting world, whatever
    the clock reads (in any environment with the same lower-casing of the
    name), returns absent. *)
Theorem nxdomain_not_cached env srv fuel qname qtype rd (w w' : World)
    answers trace hit :
  resolve env srv fuel qname qtype rd w
    = Ret (answers, rcode.NXDOMAIN, trace, hit) w' ->
  answers = [] /\ hit = false
  /\ cache w' !! _cache_key env qname qtype = None
  /\ (forall k, k <> _cache_key env qname qtype -> cache w' !! k = cache w !! k)
  /\ (forall env', str_lower env' qname = str_lower env qname ->
                   _cache_lookup env' qname qtype w' = Ret None w').
Proof.
  intros H. unfold resolve in H.
  apply bind_ret_inv in H as ([cached|] & w1 & Hlook & H).
  { cbn [bind ask] in H. ret_inv H. }
  apply cache_lookup_miss in Hlook as (Hkey & Hother & _).
  assert (Hiter : forall w2, cache w2 = cache w1 ->
            resolve_iterative env srv fuel qname qtype rd w2
              = Ret (answers, rcode.NXDOMAIN, trace, hit) w' ->
            answers = [] /\ hit = false /\ cache w' = cache w1).
  { intros w2 Hc Hit. unfold resolve_iterative in Hit.
    apply bind_ret_inv in Hit as ([[a rc] tr] & w3 & Hlk & Hit).
    pose proof (iterative_lookup_same_cache env srv fuel qname qtype rd w2) as Hsame.
    rewrite Hlk in Hsame. unfold same_cache in Hsame. simpl in Hsame.
    destruct (nonempty a && (rc =? rcode.NOERROR)) eqn:Hok.
    - apply bind_ret_inv in Hit as ([] & w4 & _ & Hit). ret_inv Hit.
      apply andb_true_iff in Hok as [_ Hrc]. discriminate Hrc.
    - ret_inv Hit. split_and!; [|reflexivity|congruence].
      apply iterative_lookup_answers in Hlk as [->|Hrc]; [reflexivity|discriminate Hrc]. }
  assert (Hfin : answers = [] /\ hit = false /\ cache w' = cache w1).
  { destruct rd; [|now apply (Hiter w1)].
    apply bind_ret_inv in H as ([[a rc] tr] & w2 & Hrec & H).
    pose proof (recursive_lookup_same_cache env qname qtype w1) as Hsame.
    rewrite Hrec in Hsame. unfold same_cache in Hsame. simpl in Hsame.
    destruct (nonempty a && (rc =? rcode.NOERROR)) eqn:Hok.
    - apply bind_ret_inv in H as ([] & w4 & _ & H). ret_inv H.
      apply andb_true_iff in Hok as [_ Hrc]. discriminate Hrc.
    - now apply (Hiter w2). }
  destruct Hfin as (-> & -> & Hc). rewrite Hc.
  split_and!; auto.
  intros env' Hlow. apply cache_lookup_absent. unfold _cache_key.
  rewrite Hlow, Hc. exact Hkey.
Qed.

(** ** Recursive attempt, then the iterative walk *)



(** ** Phase labels *)

Lemma pass_labels_app (k : nat) (l1 l2 : list nat) :
  pass_labels k (l1 ++ l2) = pass_labels k l1 ++ pass_labels (k + length l1) l2.
Proof.
  revert k. induction l1 as [|c l1 IH]; intros k; simpl.
  - now rewrite Nat.add_0_r.
  - rewrite IH, <- app_assoc. do 3 f_equal. lia.
Qed.

Lemma pass_labels_last (counts : list nat) (last : nat) :
  pass_labels 0 (counts ++ [last])
  = pass_labels 0 counts ++ repeat (_step_name (Nat.min (length counts) 2)) last.
Proof. rewrite pass_labels_app. simpl. now rewrite app_nil_r. Qed.

Lemma steps_of_pass (sn : string) (evs : list TraceEvent) :
  Forall (fun e => step e = sn /\ cache_status e = "MISS") evs ->
  map step evs = repeat sn (length evs).
Proof.
  induction 1 as [|e evs [He _] _ IH]; simpl; [reflexivity|]. now rewrite He, IH.
Qed.

Lemma phase_rank_step_name (k : nat) :
  phase_rank (_step_name (Nat.min k 2)) = Nat.min k 2.
Proof. destruct k as [|[|[|k]]]; reflexivity. Qed.

Lemma nondecreasing_cons (x : nat) (l : list nat) :
  Forall (fun y => (x <= y)%nat) l -> nondecreasing l -> nondecreasing (x :: l).
Proof. destruct l as [|y l]; simpl; [auto|]. intros H Hl. inversion H; subst. auto. Qed.

Lemma pass_labels_ranks (counts : list nat) (k : nat) :
  Forall (fun y => (Nat.min k 2 <= y)%nat) (map phase_rank (pass_labels k counts))
  /\ nondecreasing (map phase_rank (pass_labels k counts)).
Proof.
  revert k. induction counts as [|c rest IH]; intros k; simpl; [auto|].
  destruct (IH (S k)) as [Hlow Hnd].
  assert (Hlow' : Forall (fun y => (Nat.min k 2 <= y)%nat)
                         (map phase_rank (pass_labels (S k) rest))).
  { eapply Forall_impl; [exact Hlow|]. simpl. intros y Hy. lia. }
  induction c as [|c IHc]; simpl; [auto|].
  destruct IHc as [Hl Hn]. rewrite phase_rank_step_name. split.
  - constructor; [lia | exact Hl].
  - apply nondecreasing_cons; assumption.
Qed.

(** The labels of the trace at any point of the loop, from a loop head at
    which [counts] passes have logged their events. *)
Lemma loop_iter_labels env start qname qtype rd n c w st w' (counts : list nat) :
  map step (trace c) = pass_labels 0 counts ->
  depth c = Nat.min (length counts) 2 ->
  Forall (fun x => (1 <= x)%nat) counts ->
  loop_iter env start qname qtype rd n c w = Ret st w' ->
  exists counts' last,
    map step (status_trace st) = pass_labels 0 (counts' ++ [last])
    /\ Forall (fun x => (1 <= x)%nat) counts'
    /\ (length counts' <= length counts + n)%nat.
Proof.
  revert c w counts. induction n as [|n IH]; intros c w counts Hlab Hdepth Hpos H;
    simpl in H.
  - ret_inv H. exists counts, 0%nat. rewrite pass_labels_last. simpl.
    rewrite app_nil_r. auto with lia.
  - destruct (servers c) eqn:Hs.
    { ret_inv H. exists counts, 0%nat. rewrite pass_labels_last. simpl.
      rewrite app_nil_r. auto with lia. }
    apply bind_ret_inv in H as (r & w1 & Hpass & H).
    apply for_servers_result in Hpass as (evs & Htr & Hall & _ & Hr).
    apply steps_of_pass in Hall.
    assert (Hnew : map step (pass_trace r)
                   = pass_labels 0 (counts ++ [length evs])).
    { rewrite Htr, map_app, Hlab, Hall, pass_labels_last. now rewrite Hdepth. }
    destruct r as [a rc tr|s' lr tr|lr tr]; simpl in Hnew.
    + ret_inv H. exists counts, (length evs). auto with lia.
    + eapply IH in H; [| exact Hnew | |].
      * destruct H as (counts' & last & ? & ? & Hlen). exists counts', last.
        rewrite length_app in Hlen. simpl in Hlen. auto with lia.
      * simpl. rewrite length_app. simpl. lia.
      * apply Forall_app. split; [exact Hpos|]. constructor; [|constructor].
        destruct Hr as [_ Hne]. destruct evs; [contradiction|simpl; lia].
    + ret_inv H. exists counts, (length evs). auto with lia.
Qed.

(** One more pass: the loop run for [S n] passes is the loop run for [n]
    passes followed, when it is still at its head, by one pass. *)
Lemma loop_iter_snoc env start qname qtype rd n c (w : World) :
  loop_iter env start qname qtype rd (S n) c w
  = match loop_iter env start qname qtype rd n c w with
    | Ret (AtHead c') w1 => loop_iter env start qname qtype rd 1 c' w1
    | Ret (Returned r) w1 => Ret (Returned r) w1
    | Exc e w1 => Exc e w1
    | Spin w1 => Spin w1
    end.
Proof.
  revert c w. induction n as [|n IH]; intros c w; [reflexivity|].
  change (loop_iter env start qname qtype rd (S (S n)) c w)
    with (match servers c with
          | [] => ret (Returned ([], last_rcode c, trace c))
          | _ =>
              bind (for_servers env start (_step_name (depth c)) qname qtype rd
                                (servers c) (last_rcode c) (trace c))
                   (fun r =>
                      match r with
                      | PassReturn answers rcode trace =>
                          ret (Returned (answers, rcode, trace))
                      | PassBreak servers' last_rcode' trace' =>
                          loop_iter env start qname qtype rd (S n)
                                    (mkLoopCfg servers' (Nat.min (depth c + 1) 2)
                                               last_rcode' trace')
                      | PassElse last_rcode' trace' =>
                          ret (Returned ([], last_rcode', trace'))
                      end)
          end w).
  change (loop_iter env start qname qtype rd (S n) c w)
    with (match servers c with
          | [] => ret (Returned ([], last_rcode c, trace c))
          | _ =>
              bind (for_servers env start (_step_name (depth c)) qname qtype rd
                                (servers c) (last_rcode c) (trace c))
                   (fun r =>
                      match r with
                      | PassReturn answers rcode trace =>
                          ret (Returned (answers, rcode, trace))
                      | PassBreak servers' last_rcode' trace' =>
                          loop_iter env start qname qtype rd n
                                    (mkLoopCfg servers' (Nat.min (depth c + 1) 2)
                                               last_rcode' trace')
                      | PassElse last_rcode' trace' =>
                          ret (Returned ([], last_rcode', trace'))
                      end)
          end w).
  destruct (servers c) as [|s ss]; [reflexivity|].
  unfold bind.
  destruct (for_servers env start (_step_name (depth c)) qname qtype rd (s :: ss)
                        (last_rcode c) (trace c) w) as [r w1|e w1|w1];
    [|reflexivity|reflexivity].
  destruct r as [a rc tr|s' lr tr|lr tr]; [reflexivity| |reflexivity].
  apply IH.
Qed.

(** One pass from a loop head: the events it logs carry the label of the
    depth of the head; a pass that leads back to the head has logged at
    least one and has advanced the depth by one, up to 2. *)
Lemma loop_iter_one_pass env start qname qtype rd c (w w' : World) st :
  loop_iter env start qname qtype rd 1 c w = Ret st w' ->
  exists new,
    status_trace st = trace c ++ new
    /\ Forall (fun e => step e = _step_name (depth c)) new
    /\ (forall c1, st = AtHead c1 ->
          new <> [] /\ depth c1 = Nat.min (depth c + 1) 2).
Proof.
  intros H. simpl in H. destruct (servers c) eqn:Hs.
  { ret_inv H. exists []. simpl. rewrite app_nil_r.
    split; [reflexivity|]. split; [constructor|]. discriminate. }
  apply bind_ret_inv in H as (r & w1 & Hpass & H).
  apply for_servers_result in Hpass as (evs & Htr & Hall & _ & Hr).
  assert (Hlab : Forall (fun e => step e = _step_name (depth c)) evs)
    by (eapply Forall_impl; [exact Hall|]; simpl; tauto).
  destruct r as [a rc tr|s' lr tr|lr tr]; simpl in Htr; subst tr; ret_inv H.
  - exists evs. split; [reflexivity|]. split; [exact Hlab|]. discriminate.
  - exists evs. split; [reflexivity|]. split; [exact Hlab|].
    intros c1 Hc1. inversion Hc1; subst. simpl. split; [apply Hr|reflexivity].
  - exists evs. split; [reflexivity|]. split; [exact Hlab|]. discriminate.
Qed.

(** At a loop head reached after [n] passes every pass has logged its
    events, and the depth is [n], up to 2. *)
Lemma loop_iter_head env start qname qtype rd n c w c' w' (counts : list nat) :
  map step (trace c) = pass_labels 0 counts ->
  depth c = Nat.min (length counts) 2 ->
  Forall (fun x => (1 <= x)%nat) counts ->
  loop_iter env start qname qtype rd n c w = Ret (AtHead c') w' ->
  exists more,
    map step (trace c') = pass_labels 0 (counts ++ more)
    /\ Forall (fun x => (1 <= x)%nat) more
    /\ length more = n
    /\ depth c' = Nat.min (length counts + n) 2.
Proof.
  revert c w counts. induction n as [|n IH]; intros c w counts Hlab Hdepth Hpos H;
    simpl in H.
  - ret_inv H. exists []. rewrite app_nil_r, Nat.add_0_r. auto.
  - destruct (servers c) eqn:Hs; [ret_inv H|].
    apply bind_ret_inv in H as (r & w1 & Hpass & H).
    apply for_servers_result in Hpass as (evs & Htr & Hall & _ & Hr).
    apply steps_of_pass in Hall.
    destruct r as [a rc tr|s' lr tr|lr tr]; simpl in Htr; subst tr;
      [ret_inv H| |ret_inv H].
    destruct Hr as [_ Hne].
    assert (Hev : (1 <= length evs)%nat) by (destruct evs; [contradiction|simpl; lia]).
    eapply (IH _ _ (counts ++ [length evs])) in H.
    + destruct H as (more & Hm & Hp & Hl & Hd).
      exists (length evs :: more). rewrite <- app_assoc in Hm. simpl in Hm.
      split; [exact Hm|]. split; [constructor; assumption|].
      split; [simpl; lia|]. rewrite Hd, length_app. simpl. f_equal. lia.
    + simpl. rewrite map_app, Hlab, Hall, pass_labels_last.
      now rewrite Hdepth.
    + simpl. rewrite length_app. simpl. lia.
    + apply Forall_app. split; [exact Hpos|]. constructor; [exact Hev|constructor].
Qed.

(** C6. The phase label advances by one per referral followed, from Root
    to TLD to Authoritative, and stays Authoritative from the third pass
    on. At a loop head reached after [n] passes, each of them ended by a
    referral to a new candidate set, the trace is made of [n] blocks of at
    least one event each, the events of block number [k] (from 0) being
    labelled Root for [k = 0], TLD for [k = 1] and Authoritative for every
    [k >= 2], and the depth is [min n 2]. The events that pass number [n]
    adds to the trace, whether it returns or leads to the next head, are
    all labelled with the phase of [n], and a pass that leads to the next
    head adds at least one. In every trace, at a head or returned, the
    phase of the events never decreases. *)
Theorem iterative_phase_order env srv start qname qtype rd n (w w' : World) st :
  loop_iter env start qname qtype rd n (loop_init srv) w = Ret st w' ->
  (exists counts last,
     map step (status_trace st) = pass_labels 0 (counts ++ [last])
     /\ Forall (fun c => (1 <= c)%nat) counts
     /\ (length counts <= n)%nat
     /\ (forall c, st = AtHead c ->
           length counts = n /\ last = 0%nat /\ depth c = Nat.min n 2))
  /\ nondecreasing (map phase_rank (map step (status_trace st)))
  /\ (forall k, _step_name (Nat.min k 2) = phase_of k)
  /\ (forall st1 w1,
        loop_iter env start qname qtype rd (S n) (loop_init srv) w = Ret st1 w1 ->
        exists new,
          status_trace st1 = status_trace st ++ new
          /\ (forall c, st = AtHead c ->
                Forall (fun e => step e = phase_of n) new)
          /\ (forall r, st = Returned r -> new = [])
          /\ (forall c c1, st = AtHead c -> st1 = AtHead c1 -> new <> [])).
Proof.
  intros H.
  assert (Hname : forall k, _step_name (Nat.min k 2) = phase_of k)
    by (intros [|[|k]]; reflexivity).
  assert (Hold : exists counts last,
             map step (status_trace st) = pass_labels 0 (counts ++ [last])
             /\ Forall (fun c => (1 <= c)%nat) counts
             /\ (length counts <= n)%nat
             /\ (forall c, st = AtHead c ->
                   length counts = n /\ last = 0%nat /\ depth c = Nat.min n 2)).
  { destruct st as [c|r].
    - eapply (loop_iter_head _ _ _ _ _ _ _ _ _ _ []) in H; simpl; auto.
      destruct H as (more & Hlab & Hpos & Hlen & Hd). simpl in Hlab, Hd.
      exists more, 0%nat. rewrite pass_labels_last. simpl. rewrite app_nil_r.
      split; [exact Hlab|]. split; [exact Hpos|]. split; [lia|].
      intros c0 Heq. inversion Heq; subst. auto.
    - eapply (loop_iter_labels _ _ _ _ _ _ _ _ _ _ []) in H; simpl; auto.
      destruct H as (counts & last & Hlab & Hpos & Hlen).
      exists counts, last. split; [exact Hlab|]. split; [exact Hpos|].
      split; [exact Hlen|]. discriminate. }
  split; [exact Hold|]. split.
  { destruct Hold as (counts & last & Hlab & _). rewrite Hlab.
    apply pass_labels_ranks. }
  split; [exact Hname|].
  intros st1 w1 H1. rewrite loop_iter_snoc, H in H1.
  destruct st as [c|r].
  - pose proof H as Hhead.
    eapply (loop_iter_head _ _ _ _ _ _ _ _ _ _ []) in Hhead; simpl; auto.
    destruct Hhead as (_ & _ & _ & _ & Hd). simpl in Hd.
    apply loop_iter_one_pass in H1 as (new & Htr & Hlab & Hnext).
    exists new. split; [exact Htr|]. split.
    + intros _ _. rewrite <- Hname, <- Hd. exact Hlab.
    + split; [discriminate|]. intros _ c1 _ Hc1. apply (Hnext c1 Hc1).
  - ret_inv H1. exists []. simpl. rewrite app_nil_r.
    split; [reflexivity|]. split; [discriminate|]. split; [reflexivity|].
    discriminate.
Qed.

(** ** Timeouts and referrals within a pass *)

(** One exchange with a server, spelled out: a clock reading, the datagram,
    and a second clock reading when a response came back. *)
Lemma query_server_eq env s qname qtype rd (w : World) :
  _query_server env s qname qtype rd w
  = match udp env (S (tick w)) s qname qtype rd with
    | inl e => Exc e (mkWorld (cache w) (S (S (tick w))) (contacted w ++ [s]))
    | inr m =>
        Ret (m, Qminus (perf_counter env (S (S (tick w))))
                       (perf_counter env (tick w)))
            (mkWorld (cache w) (3 + tick w) (contacted w ++ [s]))
    end.
Proof.
  unfold _query_server, send_udp, bind, ask, ret. simpl.
  destruct (udp env (S (tick w)) s qname qtype rd); reflexivity.
Qed.

(** A server that times out is skipped: the pass goes on with the rest of
    the candidates, the trace and the last response code as they were. *)
Lemma for_servers_timeout env start sn qname qtype rd s rest lr tr (w : World) :
  udp env (S (tick w)) s qname qtype rd = inl Timeout ->
  for_servers env start sn qname qtype rd (s :: rest) lr tr w
  = for_servers env start sn qname qtype rd rest lr tr
                (mkWorld (cache w) (S (S (tick w))) (contacted w ++ [s])).
Proof.
  intros Hudp. simpl. unfold bind at 1, try_query.
  now rewrite query_server_eq, Hudp.
Qed.

(** A glued referral ends the pass: its event is appended and the glue
    addresses, as extracted, are the next candidate set. *)
Lemma for_servers_glue env start sn qname qtype rd s rest lr tr (w : World) m :
  udp env (S (tick w)) s qname qtype rd = inr m ->
  glue_referral m ->
  exists ev,
    for_servers env start sn qname qtype rd (s :: rest) lr tr w
    = Ret (PassBreak (_extract_glue_ips m) (msg_rcode m) (tr ++ [ev]))
          (mkWorld (cache w) (5 + tick w) (contacted w ++ [s]))
    /\ server ev = s /\ step ev = sn /\ response ev = _summarize env m
    /\ cache_status ev = "MISS".
Proof.
  intros Hudp (Hans & Hnx & Hglue). simpl. unfold bind at 1, try_query.
  rewrite query_server_eq, Hudp. cbn [bind ask ret tick bump cache contacted].
  rewrite Hans, Hnx, Hglue. eexists. split; [reflexivity|]. auto.
Qed.

(** C7, as the code has it. When the first two root servers time out and
    the third replies with a glued referral, the first pass contacts the
    three in order and logs one event only, that of the third server,
    labelled Root with the summary of its reply; the servers that timed
    out leave no event. The loop goes on with exactly the glue addresses
    of that reply as candidates, at depth 1. *)
Theorem third_root_referral env srv start qname qtype rd (w : World)
    (r1 r2 r3 : string) (rest : list string) (m : Message) :
  root_servers srv = r1 :: r2 :: r3 :: rest ->
  (forall t, udp env t r1 qname qtype rd = inl Timeout) ->
  (forall t, udp env t r2 qname qtype rd = inl Timeout) ->
  (forall t, udp env t r3 qname qtype rd = inr m) ->
  glue_referral m ->
  exists ev w',
    loop_iter env start qname qtype rd 1 (loop_init srv) w
    = Ret (AtHead (mkLoopCfg (_extract_glue_ips m) 1 (msg_rcode m) [ev])) w'
    /\ server ev = r3 /\ step ev = "Root" /\ response ev = _summarize env m
    /\ contacted w' = contacted w ++ [r1; r2; r3]
    /\ (forall n,
          loop_iter env start qname qtype rd (S n) (loop_init srv) w
          = loop_iter env start qname qtype rd n
                      (mkLoopCfg (_extract_glue_ips m) 1 (msg_rcode m) [ev]) w').
Proof.
  intros Hroots H1 H2 H3 Hm.
  set (w1 := mkWorld (cache w) (S (S (tick w))) (contacted w ++ [r1])).
  set (w2 := mkWorld (cache w1) (S (S (tick w1))) (contacted w1 ++ [r2])).
  destruct (for_servers_glue env start (_step_name 0) qname qtype rd r3 rest
              rcode.SERVFAIL [] w2 m (H3 _) Hm) as (ev & Hpass & Hs & Hst & Hr & _).
  assert (Hfirst : for_servers env start (_step_name 0) qname qtype rd
                     (r1 :: r2 :: r3 :: rest) rcode.SERVFAIL [] w
                   = Ret (PassBreak (_extract_glue_ips m) (msg_rcode m) [ev])
                         (mkWorld (cache w2) (5 + tick w2) (contacted w2 ++ [r3]))).
  { rewrite (for_servers_timeout _ _ _ _ _ _ _ _ _ _ w (H1 _)). fold w1.
    rewrite (for_servers_timeout _ _ _ _ _ _ _ _ _ _ w1 (H2 _)). fold w2.
    exact Hpass. }
  exists ev, (mkWorld (cache w2) (5 + tick w2) (contacted w2 ++ [r3])).
  assert (Hn : forall n,
             loop_iter env start qname qtype rd (S n) (loop_init srv) w
             = loop_iter env start qname qtype rd n
                 (mkLoopCfg (_extract_glue_ips m) 1 (msg_rcode m) [ev])
                 (mkWorld (cache w2) (5 + tick w2) (contacted w2 ++ [r3]))).
  { intros n. cbn [loop_iter loop_init servers depth last_rcode trace].
    rewrite Hroots. now rewrite (bind_ret_eq _ _ _ _ _ Hfirst). }
  split_and!; auto.
  simpl. now rewrite <- !app_assoc.
Qed.

(** ** How long the iterative walk runs *)

Lemma later_refl (w : World) : later w w.
Proof. unfold later. lia. Qed.

Lemma later_trans (a b c : World) : later a b -> later b c -> later a c.
Proof. unfold later. lia. Qed.

Lemma later_bump (w : World) : later w (bump w).
Proof. unfold later. simpl. lia. Qed.

Lemma later_note (s : string) (w : World) : later w (note_contact s w).
Proof. unfold later. simpl. lia. Qed.

Lemma resolve_ns_later env ns_names (w : World) :
  later w (world_of (_resolve_ns_addresses env ns_names w)).
Proof.
  apply (respects_resolve_ns_loop later later_refl later_trans later_bump).
Qed.

Lemma resolve_ns_same_contacted env ns_names (w : World) :
  contacted (world_of (_resolve_ns_addresses env ns_names w)) = contacted w.
Proof.
  apply (respects_resolve_ns_loop same_contacted); unfold same_contacted;
    simpl; congruence.
Qed.

(** A pass contacts at most as many servers as its candidate set has. *)
Lemma for_servers_contacts env start sn qname qtype rd todo lr tr (w : World) :
  (length (contacted (world_of
             (for_servers env start sn qname qtype rd todo lr tr w)))
   <= length (contacted w) + length todo)%nat.
Proof.
  revert lr tr w. induction todo as [|s rest IH]; intros lr tr w; simpl; [lia|].
  unfold bind at 1, try_query. rewrite query_server_eq.
  destruct (udp env (S (tick w)) s qname qtype rd) as [e|m].
  - set (w1 := mkWorld _ _ _).
    assert (Hw1 : length (contacted w1) = S (length (contacted w)))
      by (subst w1; simpl; rewrite length_app; simpl; lia).
    destruct e; cbn [world_of];
      first [etransitivity; [apply IH | lia] | lia].
  - cbn [bind ask]. set (w2 := bump (bump _)).
    assert (Hw2 : length (contacted w2) = S (length (contacted w)))
      by (subst w2; simpl; rewrite length_app; simpl; lia).
    assert (Hrec : forall lr' tr',
               (length (contacted (world_of
                  (for_servers env start sn qname qtype rd rest lr' tr' w2)))
                <= length (contacted w) + S (length rest))%nat).
    { intros lr' tr'. etransitivity; [apply IH | lia]. }
    destruct ((msg_rcode m =? rcode.NOERROR) && nonempty (answer m));
      [unfold ret; cbn [world_of]; lia|].
    destruct (msg_rcode m =? rcode.NXDOMAIN); [unfold ret; cbn [world_of]; lia|].
    destruct (nonempty (_extract_glue_ips m)); [unfold ret; cbn [world_of]; lia|].
    destruct (_extract_ns_names m) as [e|[|n ns]];
      [unfold raise; cbn [world_of]; lia | apply Hrec |].
    unfold bind.
    pose proof (resolve_ns_same_contacted env (n :: ns) w2) as Hns.
    destruct (_resolve_ns_addresses env (n :: ns) w2) as [ips w3|e w3|w3];
      cbn [world_of] in Hns |- *; rewrite ?Hns; try lia.
    destruct (nonempty ips); [unfold ret; cbn [world_of]; rewrite Hns; lia|].
    etransitivity; [apply IH | rewrite Hns; lia].
Qed.

(** A pass that ends in a [break] has received, during the pass, a reply
    that carries glue or NS names. *)
Lemma for_servers_break_reply env start sn qname qtype rd todo lr tr
    (w w' : World) s' lr' tr' :
  for_servers env start sn qname qtype rd todo lr tr w
    = Ret (PassBreak s' lr' tr') w' ->
  exists t srv m,
    (tick w <= t < tick w')%nat
    /\ udp env t srv qname qtype rd = inr m
    /\ ~ no_referral m.
Proof.
  revert lr tr w. induction todo as [|s rest IH]; intros lr tr w H; simpl in H.
  - ret_inv H.
  - unfold bind at 1, try_query in H. rewrite query_server_eq in H.
    destruct (udp env (S (tick w)) s qname qtype rd) as [e|m] eqn:Hudp.
    + destruct e; try discriminate H;
        (apply IH in H as (t & srv0 & m & Ht & Hm & Hno); simpl in Ht;
         exists t, srv0, m; split; [lia | auto]).
    + cbn [bind ask] in H. set (w2 := bump (bump _)) in H.
      assert (Hw2 : tick w2 = (5 + tick w)%nat) by reflexivity.
      assert (Hrec : forall lr0 tr0 w3,
                 later w2 w3 ->
                 for_servers env start sn qname qtype rd rest lr0 tr0 w3
                   = Ret (PassBreak s' lr' tr') w' ->
                 exists t srv m,
                   (tick w <= t < tick w')%nat
                   /\ udp env t srv qname qtype rd = inr m
                   /\ ~ no_referral m).
      { intros lr0 tr0 w3 Hl Hrec. unfold later in Hl.
        apply IH in Hrec as (t & srv0 & m0 & Ht & Hm & Hno).
        exists t, srv0, m0. split; [lia | auto]. }
      destruct ((msg_rcode m =? rcode.NOERROR) && nonempty (answer m));
        [ret_inv H|].
      destruct (msg_rcode m =? rcode.NXDOMAIN); [ret_inv H|].
      destruct (nonempty (_extract_glue_ips m)) eqn:Hglue.
      { ret_inv H. exists (S (tick w)), s, m. split; [rewrite Hw2; lia|].
        split; [exact Hudp|]. intros [Hg _]. now rewrite Hg in Hglue. }
      destruct (_extract_ns_names m) as [e|[|n ns]] eqn:Hns;
        [discriminate H | eapply Hrec; [apply later_refl | exact H] |].
      apply bind_ret_inv in H as (ips & w3 & Hres & H).
      pose proof (resolve_ns_later env (n :: ns) w2) as Hl.
      rewrite Hres in Hl. simpl in Hl.
      destruct (nonempty ips); [|eapply Hrec; eauto].
      ret_inv H. unfold later in Hl. exists (S (tick w)), s, m.
      split; [lia|]. split; [exact Hudp|]. intros [_ Hn]. congruence.
Qed.

Lemma for_servers_later env start sn qname qtype rd todo lr tr (w : World) :
  later w (world_of (for_servers env start sn qname qtype rd todo lr tr w)).
Proof.
  apply (respects_for_servers later later_refl later_trans later_bump later_note).
Qed.

Lemma bind_never_spins {A B} (c : M A) (k : A -> M B) :
  never_spins c -> (forall a, never_spins (k a)) -> never_spins (bind c k).
Proof.
  intros Hc Hk w w'. unfold bind. specialize (Hc w).
  destruct (c w) as [a w1|e w1|w1]; [apply Hk | discriminate | now destruct (Hc w1)].
Qed.

Lemma ask_never_spins {A} (f : nat -> A) : never_spins (ask f).
Proof. intros w w'. discriminate. Qed.

Lemma ret_never_spins {A} (a : A) : never_spins (ret a).
Proof. intros w w'. discriminate. Qed.

Lemma raise_never_spins {A} (e : exn) : never_spins (@raise A e).
Proof. intros w w'. discriminate. Qed.

Lemma resolve_ns_never_spins env nameservers ns_names ips :
  never_spins (resolve_ns_loop env nameservers ns_names ips).
Proof.
  revert ips. induction ns_names as [|n ns IH]; intros ips; simpl.
  - apply ret_never_spins.
  - apply bind_never_spins; [apply ask_never_spins | intros [[]|m]];
      auto using raise_never_spins.
Qed.

Lemma for_servers_never_spins env start sn qname qtype rd todo lr tr :
  never_spins (for_servers env start sn qname qtype rd todo lr tr).
Proof.
  revert lr tr. induction todo as [|s rest IH]; intros lr tr; simpl.
  - apply ret_never_spins.
  - apply bind_never_spins.
    + intros w w'. unfold try_query. rewrite query_server_eq.
      destruct (udp env (S (tick w)) s qname qtype rd) as [[]|m]; discriminate.
    + intros [[m rtt]|]; [|apply IH].
      apply bind_never_spins; [apply ask_never_spins | intros now].
      apply bind_never_spins; [apply ask_never_spins | intros et].
      repeat case_match; auto using ret_never_spins, raise_never_spins.
      apply bind_never_spins; [apply resolve_ns_never_spins | intros ips].
      case_match; auto using ret_never_spins.
Qed.

Lemma loop_iter_never_spins env start qname qtype rd n c :
  never_spins (loop_iter env start qname qtype rd n c).
Proof.
  revert c. induction n as [|n IH]; intros c; simpl.
  - apply ret_never_spins.
  - destruct (servers c); [apply ret_never_spins|].
    apply bind_never_spins; [apply for_servers_never_spins | intros [a rc tr|s' lr tr|lr tr]];
      auto using ret_never_spins.
Qed.

(** Once no reply leads any further, the loop returns within the passes it
    is given. *)
Lemma loop_iter_returns env start qname qtype rd (K : nat) :
  (forall t s m, (K <= t)%nat -> udp env t s qname qtype rd = inr m -> no_referral m) ->
  forall n c (w w' : World) st,
    (1 <= n)%nat -> (K <= tick w + (n - 1))%nat ->
    loop_iter env start qname qtype rd n c w = Ret st w' ->
    exists r, st = Returned r.
Proof.
  intros Hstop. induction n as [|n IH]; intros c w w' st Hn HK H; [lia|].
  simpl in H. destruct (servers c); [ret_inv H; eauto|].
  apply bind_ret_inv in H as (r & w1 & Hpass & H).
  destruct r as [a rc tr|s' lr tr|lr tr]; [ret_inv H; eauto | | ret_inv H; eauto].
  apply for_servers_break_reply in Hpass as (t & srv0 & m & Ht & Hm & Hno).
  destruct (Nat.le_gt_cases K t) as [Hle|Hlt].
  - exfalso. apply Hno. eapply Hstop; eauto.
  - eapply IH; [| |exact H]; lia.
Qed.

(** Against an upstream whose every reply is a referral with glue, every
    pass ends in a [break] after its first server, and the loop is back at
    its head with a candidate set that is not empty. *)
Lemma glued_referrals_keep_going env start qname qtype rd n c (w : World) :
  (forall t s, exists m, udp env t s qname qtype rd = inr m /\ glue_referral m) ->
  servers c <> [] ->
  exists c' w',
    loop_iter env start qname qtype rd n c w = Ret (AtHead c') w'
    /\ servers c' <> []
    /\ length (contacted w') = (length (contacted w) + n)%nat.
Proof.
  intros Hglue. revert c w. induction n as [|n IH]; intros c w Hne; simpl.
  - exists c, w. split; [reflexivity|]. auto with lia.
  - destruct (servers c) as [|s rest] eqn:Hs; [contradiction|].
    destruct (Hglue (S (tick w)) s) as (m & Hudp & Hm).
    destruct (for_servers_glue env start (_step_name (depth c)) qname
                qtype rd s rest (last_rcode c) (trace c) w m Hudp Hm)
      as (ev & Hpass & _).
    rewrite (bind_ret_eq _ _ _ _ _ Hpass).
    edestruct IH as (c' & w' & Hrun & Hne' & Hlen); [|rewrite Hrun].
    + simpl. destruct Hm as (_ & _ & Hg).
      destruct (_extract_glue_ips m); [discriminate Hg|discriminate].
    + exists c', w'. split; [reflexivity|]. split; [exact Hne'|].
      rewrite Hlen. simpl. rewrite length_app. simpl. lia.
Qed.

(** C9, as the code has it. A pass over a candidate set contacts at most
    one server per candidate. The number of passes has no bound of its
    own: it is bounded by what the upstream sends. If from the [K]-th
    interaction on no reply carries glue or NS names, then the lookup
    given more than [K] passes does not run out of them: it returns, or
    raises. If the root list is not empty and every reply is a referral
    that carries glue addresses, the lookup never returns: whatever the
    number of passes it is given, it is still at the head of its loop
    after them, one more server contacted in each. *)
Theorem iterative_lookup_returns env srv qname qtype rd :
  (forall (K fuel : nat) (w : World),
     (forall t s m, (K <= t)%nat -> udp env t s qname qtype rd = inr m ->
                    no_referral m) ->
     (K < fuel)%nat ->
     exists w',
       (exists r, _iterative_lookup env srv fuel qname qtype rd w = Ret r w')
       \/ (exists e, _iterative_lookup env srv fuel qname qtype rd w = Exc e w'))
  /\ (forall start sn todo lr tr w0,
        (length (contacted (world_of
                   (for_servers env start sn qname qtype rd todo lr tr w0)))
         <= length (contacted w0) + length todo)%nat)
  /\ (root_servers srv <> [] ->
      (forall t s, exists m, udp env t s qname qtype rd = inr m
                             /\ glue_referral m) ->
      forall (fuel : nat) (w : World),
        (exists w',
           _iterative_lookup env srv fuel qname qtype rd w = Spin w'
           /\ length (contacted w') = (length (contacted w) + fuel)%nat)
        /\ ~ (exists w', (exists r, _iterative_lookup env srv fuel qname qtype rd w
                                    = Ret r w')
                         \/ (exists e, _iterative_lookup env srv fuel qname qtype
                                                         rd w = Exc e w'))).
Proof.
  split; [|split; [intros; apply for_servers_contacts|]].
  - intros K fuel w Hstop Hfuel.
    unfold _iterative_lookup. cbn [bind ask]. unfold bind.
    destruct (loop_iter env (perf_counter env (tick w)) qname qtype rd fuel
                        (loop_init srv) (bump w)) as [st w1|e w1|w1] eqn:Hloop.
    + eapply (loop_iter_returns _ _ _ _ _ K Hstop) in Hloop as [r ->];
        [|lia|simpl; lia].
      exists w1. left. exists r. reflexivity.
    + exists w1. right. eauto.
    + exfalso. exact (loop_iter_never_spins _ _ _ _ _ _ _ _ _ Hloop).
  - intros Hroots Hglue fuel w.
    assert (Hspin : exists w',
               _iterative_lookup env srv fuel qname qtype rd w = Spin w'
               /\ length (contacted w') = (length (contacted w) + fuel)%nat).
    { unfold _iterative_lookup. cbn [bind ask].
      destruct (glued_referrals_keep_going env (perf_counter env (tick w)) qname
                  qtype rd fuel (loop_init srv) (bump w) Hglue Hroots)
        as (c' & w' & Hrun & _ & Hlen).
      rewrite (bind_ret_eq _ _ _ _ _ Hrun). exists w'.
      split; [reflexivity|exact Hlen]. }
    split; [exact Hspin|].
    destruct Hspin as (w1 & Hspin & _). rewrite Hspin.
    intros (w' & [[r H]|[e H]]); discriminate H.
Qed.

(** A referral loop: with an upstream that answers every query with a
    glued referral, every pass ends in a [break] and the loop is back at
    its head, one more server contacted. *)
Lemma loop_env_keeps_going start qname qtype rd n c (w : World) :
  servers c <> [] ->
  exists c' w',
    loop_iter Demo.loop_env start qname qtype rd n c w = Ret (AtHead c') w'
    /\ servers c' <> []
    /\ length (contacted w') = (length (contacted w) + n)%nat.
Proof.
  revert c w. induction n as [|n IH]; intros c w Hne; simpl.
  - exists c, w. split; [reflexivity|]. auto with lia.
  - destruct (servers c) as [|s rest] eqn:Hs; [contradiction|].
    destruct (for_servers_glue Demo.loop_env start (_step_name (depth c)) qname
                qtype rd s rest (last_rcode c) (trace c) w Demo.loop_referral
                eq_refl)
      as (ev & Hpass & _); [repeat split|].
    rewrite (bind_ret_eq _ _ _ _ _ Hpass).
    edestruct IH as (c' & w' & Hrun & Hne' & Hlen); [|rewrite Hrun].
    + simpl. discriminate.
    + exists c', w'. split; [reflexivity|]. split; [exact Hne'|].
      rewrite Hlen. simpl. rewrite length_app. simpl. lia.
Qed.

Lemma referral_loop_spins (fuel : nat) :
  exists w',
    _iterative_lookup Demo.loop_env Demo.srv fuel "example.com." 1 false Demo.w0
      = Spin w'
    /\ length (contacted w') = fuel.
Proof.
  unfold _iterative_lookup. cbn [bind ask].
  destruct (loop_env_keeps_going (perf_counter Demo.loop_env (tick Demo.w0))
              "example.com." 1 false fuel (loop_init Demo.srv) (bump Demo.w0))
    as (c' & w' & Hrun & _ & Hlen); [discriminate|].
  rewrite (bind_ret_eq _ _ _ _ _ Hrun). exists w'. split; [reflexivity|].
  rewrite Hlen. reflexivity.
Qed.

(** C9, as stated, fails: against an upstream whose every reply is the same
    glued referral the lookup has not returned after any number of passes,
    and has contacted one server in each of them; no number of passes
    makes it return or raise. *)
Lemma referral_loop_never_returns :
  (forall fuel, exists w',
     _iterative_lookup Demo.loop_env Demo.srv fuel "example.com." 1 false Demo.w0
       = Spin w'
     /\ length (contacted w') = fuel)
  /\ ~ (exists fuel w',
         (exists r, _iterative_lookup Demo.loop_env Demo.srv fuel "example.com."
                                      1 false Demo.w0 = Ret r w')
         \/ (exists e, _iterative_lookup Demo.loop_env Demo.srv fuel
                                         "example.com." 1 false Demo.w0
                       = Exc e w')).
Proof.
  split; [exact referral_loop_spins|].
  intros (fuel & w' & H).
  destruct (referral_loop_spins fuel) as (w1 & Hspin & _).
  rewrite Hspin in H. destruct H as [[r H]|[e H]]; discriminate H.
Qed.

(** ** Glue addresses *)

Lemma extract_glue_ips_spec (m : Message) (a : string) :
  In a (_extract_glue_ips m) <->
  exists rrset rr,
    In rrset (additional m)
    /\ (rdtype rrset = rdatatype.A \/ rdtype rrset = rdatatype.AAAA)
    /\ In rr (items rrset) /\ a = rdata_address rr.
Proof.
  unfold _extract_glue_ips. rewrite in_flat_map. split.
  - intros (rrset & Hin & Ha).
    destruct ((rdtype rrset =? rdatatype.A) || (rdtype rrset =? rdatatype.AAAA)) eqn:Ht;
      [|contradiction].
    apply in_map_iff in Ha as (rr & <- & Hrr).
    exists rrset, rr. split_and!; auto.
    apply orb_true_iff in Ht as [Ht|Ht]; apply Z.eqb_eq in Ht; auto.
  - intros (rrset & rr & Hin & Ht & Hrr & ->).
    exists rrset. split; [exact Hin|].
    assert ((rdtype rrset =? rdatatype.A) || (rdtype rrset =? rdatatype.AAAA) = true) as ->.
    { apply orb_true_iff. destruct Ht as [->| ->]; auto. }
    now apply in_map.
Qed.

Lemma a_addresses_spec (m : Message) (a : string) :
  In a (a_addresses m) ->
  exists rrset rr,
    In rrset (answer m) /\ rdtype rrset = rdatatype.A
    /\ In rr (items rrset) /\ a = rdata_address rr.
Proof.
  unfold a_addresses. rewrite in_flat_map. intros (rrset & Hin & Ha).
  destruct (rdtype rrset =? rdatatype.A) eqn:Ht; simpl in Ha; [|contradiction].
  apply in_map_iff in Ha as (rr & <- & Hrr).
  apply Z.eqb_eq in Ht. exists rrset, rr. auto.
Qed.

Lemma resolver_nameservers_same (env env' : Env) :
  same_A_lookups env env' -> resolver_nameservers env = resolver_nameservers env'.
Proof.
  intros (_ & Hsys & Hip).
  unfold resolver_nameservers, _safe_system_nameservers, usable_ns.
  now rewrite Hsys, Hip.
Qed.

Lemma resolve_ns_loop_same (env env' : Env) nameservers ns_names ips (w : World) :
  same_A_lookups env env' ->
  resolve_ns_loop env nameservers ns_names ips w
  = resolve_ns_loop env' nameservers ns_names ips w.
Proof.
  intros Hsame. revert ips w.
  induction ns_names as [|n ns IH]; intros ips w; simpl; [reflexivity|].
  cbn [bind ask]. destruct Hsame as (HA & _). rewrite HA.
  destruct (resolver_resolve env' (tick w) nameservers n rdatatype.A) as [[]|m];
    auto.
Qed.

(** C10. The glue addresses of a reply are exactly the addresses of the
    items of its additional rrsets of type A or AAAA, and a pass that meets
    a glued referral takes them as the next candidate set, so that an IPv6
    address can be a candidate: with a referral whose only glue is an AAAA
    record the next candidate set is that IPv6 address. The secondary
    lookups for unglued NS names ask for type A only (what the system
    resolver would answer for another type does not matter) and keep the
    addresses of type A rrsets only. *)
Theorem glue_accepts_A_and_AAAA :
  (forall m a,
     In a (_extract_glue_ips m) <->
     exists rrset rr,
       In rrset (additional m)
       /\ (rdtype rrset = rdatatype.A \/ rdtype rrset = rdatatype.AAAA)
       /\ In rr (items rrset) /\ a = rdata_address rr)
  /\ (forall env start sn qname qtype rd s rest lr tr w m,
        udp env (S (tick w)) s qname qtype rd = inr m ->
        glue_referral m ->
        exists ev w',
          for_servers env start sn qname qtype rd (s :: rest) lr tr w
          = Ret (PassBreak (_extract_glue_ips m) (msg_rcode m) (tr ++ [ev])) w')
  /\ (exists c w',
        loop_iter Demo.v6_env 0%Q "example.com." 1 false 1 (loop_init Demo.srv)
                  Demo.w0 = Ret (AtHead c) w'
        /\ servers c = ["2001:503:a83e::2:30"])
  /\ (forall env env' ns_names w,
        same_A_lookups env env' ->
        _resolve_ns_addresses env ns_names w = _resolve_ns_addresses env' ns_names w)
  /\ (forall m a,
        In a (a_addresses m) ->
        exists rrset rr,
          In rrset (answer m) /\ rdtype rrset = rdatatype.A
          /\ In rr (items rrset) /\ a = rdata_address rr).
Proof.
  split_and!.
  - apply extract_glue_ips_spec.
  - intros env start sn qname qtype rd s rest lr tr w m Hudp Hm.
    destruct (for_servers_glue env start sn qname qtype rd s rest lr tr w m Hudp Hm)
      as (ev & Hpass & _). eauto.
  - eexists _, _. split; [vm_compute; reflexivity | reflexivity].
  - intros env env' ns_names w Hsame. unfold _resolve_ns_addresses.
    rewrite (resolver_nameservers_same _ _ Hsame).
    now apply resolve_ns_loop_same.
  - apply a_addresses_spec.
Qed.

(** ** The response decoder *)

Module LegacyFacts.
Import Legacy.
Local Open Scope nat_scope.



Section WithDecoder.
Variable decode_ignore : list byte -> string.



End WithDecoder.
End LegacyFacts.

Module LegacyRecordFacts.
Import Legacy.
Local Open Scope nat_scope.


Section WithDecoder.
Variable decode_ignore : list byte -> string.


End WithDecoder.
End LegacyRecordFacts.



(** C7, as stated, fails: with two root servers that time out before the
    third refers, all three are contacted in order, yet the trace starts
    with the event of the third; no event stands for the two that timed
    out. *)
Lemma timed_out_roots_leave_no_event :
  exists a tr w',
    _iterative_lookup Demo.walk_env Demo.srv 10 "example.com." 1 false Demo.w0
      = Ret (a, rcode.NOERROR, tr) w'
    /\ contacted w'
       = ["198.41.0.4"; "199.9.14.201"; "192.33.4.12"; "192.5.6.30";
          "203.0.113.1"; "203.0.113.2"]
    /\ map server tr
       = ["192.33.4.12"; "192.5.6.30"; "203.0.113.1"; "203.0.113.2"]
    /\ map response tr
       = ["REFERRAL a.gtld-servers.net."; "REFERRAL ns1.example.com.";
          "REFERRAL ns2.example.com."; "ANSWER"]
    /\ ~ three_events_for "198.41.0.4" "199.9.14.201" "192.33.4.12" tr.
Proof.
  eexists _, _, _. split; [vm_compute; reflexivity|].
  split_and!; try reflexivity.
  intros (e1 & e2 & e3 & rest & Heq & H1 & _).
  inversion Heq; subst. discriminate H1.
Qed.

(** ** The theorems at concrete inputs *)

Lemma cache_lookup_expiry_witness :
  cache Demo.w_cached !! _cache_key Demo.walk_env "Example.COM." 1
    = Some (mkCacheEntry Demo.example_answer (inject_Z 300))
  /\ exists r w',
       _cache_lookup Demo.walk_env "Example.COM." 1 Demo.w_cached = Ret r w'
       /\ (r = Some Demo.example_answer
           <-> (time_time Demo.walk_env 0 < inject_Z 300)%Q).
Proof.
  assert (H : cache Demo.w_cached !! _cache_key Demo.walk_env "Example.COM." 1
              = Some (mkCacheEntry Demo.example_answer (inject_Z 300)))
    by (vm_compute; reflexivity).
  split; [exact H|].
  destruct (cache_lookup_expiry Demo.walk_env "Example.COM." 1 Demo.w_cached _ H)
    as (r & w' & Hrun & Hiff & _).
  exists r, w'. split; [exact Hrun | exact Hiff].
Defined.

Lemma nxdomain_not_cached_witness :
  exists tr w',
    resolve Demo.walk_env Demo.srv 10 "nx.example.com." 1 true Demo.w0
      = Ret ([], rcode.NXDOMAIN, tr, false) w'
    /\ cache w' !! _cache_key Demo.walk_env "nx.example.com." 1 = None.
Proof.
  assert (H : exists tr w',
             resolve Demo.walk_env Demo.srv 10 "nx.example.com." 1 true Demo.w0
             = Ret ([], rcode.NXDOMAIN, tr, false) w')
    by (eexists _, _; vm_compute; reflexivity).
  destruct H as (tr & w' & H). exists tr, w'. split; [exact H|].
  exact (proj1 (proj2 (proj2
           (nxdomain_not_cached _ _ _ _ _ _ _ _ _ _ _ H)))).
Defined.

Lemma cache_store_min_ttl_witness :
  is_min 0 (map ttl Demo.stale_answer)
  /\ _cache_store Demo.walk_env Demo.srv "example.com." 1 Demo.stale_answer
                  Demo.w0 = Ret tt Demo.w0.
Proof.
  assert (H : is_min 0 (map ttl Demo.stale_answer)).
  { split; [simpl; auto|]. simpl. intros x [<-|[<-|[]]]; lia. }
  split; [exact H|].
  refine (proj1 (proj1 (cache_store_min_ttl Demo.walk_env Demo.srv "example.com."
                          1 Demo.stale_answer Demo.w0 0 H) _)).
  lia.
Defined.

Lemma resolve_cache_hit_witness :
  _cache_lookup Demo.walk_env "example.com." 1 Demo.w_cached
    = Ret (Some Demo.example_answer) (bump Demo.w_cached)
  /\ exists ev w',
       resolve Demo.walk_env Demo.srv 10 "example.com." 1 false Demo.w_cached
         = Ret (Demo.example_answer, rcode.NOERROR, [ev], true) w'
       /\ cache_status ev = "HIT" /\ rtt ev = 0%Q /\ total_time ev = 0%Q.
Proof.
  assert (H : _cache_lookup Demo.walk_env "example.com." 1 Demo.w_cached
              = Ret (Some Demo.example_answer) (bump Demo.w_cached))
    by (vm_compute; reflexivity).
  split; [exact H|].
  destruct (resolve_cache_hit Demo.walk_env Demo.srv 10 "example.com." 1 false
              _ _ _ H) as (ev & w' & Hrun & Hhit & Hrtt & Htot & _).
  exists ev, w'. auto.
Defined.


Lemma iterative_phase_order_witness :
  exists st w',
    loop_iter Demo.walk_env 0%Q "example.com." 1 false 10 (loop_init Demo.srv)
              Demo.w0 = Ret st w'
    /\ map step (status_trace st) = ["Root"; "TLD"; "Authoritative"; "Authoritative"]
    /\ nondecreasing (map phase_rank (map step (status_trace st))).
Proof.
  assert (H : exists st w',
             loop_iter Demo.walk_env 0%Q "example.com." 1 false 10
                       (loop_init Demo.srv) Demo.w0 = Ret st w'
             /\ map step (status_trace st)
                = ["Root"; "TLD"; "Authoritative"; "Authoritative"])
    by (eexists _, _; split; vm_compute; reflexivity).
  destruct H as (st & w' & H & Hlab). exists st, w'.
  split; [exact H|]. split; [exact Hlab|].
  destruct (iterative_phase_order _ _ _ _ _ _ _ _ _ _ H) as (_ & Hnd & _).
  exact Hnd.
Defined.

Lemma third_root_referral_witness :
  glue_referral Demo.com_referral
  /\ exists ev w',
       loop_iter Demo.walk_env 0%Q "example.com." 1 false 1 (loop_init Demo.srv)
                 Demo.w0
       = Ret (AtHead (mkLoopCfg ["192.5.6.30"; "2001:503:a83e::2:30"] 1 0 [ev])) w'
       /\ server ev = "192.33.4.12" /\ step ev = "Root"
       /\ contacted w' = ["198.41.0.4"; "199.9.14.201"; "192.33.4.12"].
Proof.
  assert (Hm : glue_referral Demo.com_referral) by (repeat split).
  split; [exact Hm|].
  destruct (third_root_referral Demo.walk_env Demo.srv 0%Q "example.com." 1 false
              Demo.w0 "198.41.0.4" "199.9.14.201" "192.33.4.12" []
              Demo.com_referral eq_refl (fun _ => eq_refl) (fun _ => eq_refl)
              (fun _ => eq_refl) Hm)
    as (ev & w' & Hrun & Hs & Hst & _ & Hc & _).
  exists ev, w'. auto.
Defined.

Lemma iterative_lookup_returns_witness :
  (forall t s m, (12 <= t)%nat ->
     udp Demo.fading_env t s "example.com." 1 false = inr m -> no_referral m)
  /\ exists w',
       (exists r, _iterative_lookup Demo.fading_env Demo.srv 13 "example.com." 1
                                    false Demo.w0 = Ret r w')
       \/ (exists e, _iterative_lookup Demo.fading_env Demo.srv 13 "example.com." 1
                                       false Demo.w0 = Exc e w').
Proof.
  assert (H : forall t s m, (12 <= t)%nat ->
            udp Demo.fading_env t s "example.com." 1 false = inr m -> no_referral m).
  { intros t s m Ht. simpl. unfold Demo.fading_udp.
    destruct (Nat.ltb_spec t 12) as [Hlt|_]; [lia|].
    intros Hm. inversion Hm. split; reflexivity. }
  split; [exact H|].
  refine (proj1 (iterative_lookup_returns Demo.fading_env Demo.srv "example.com."
                   1 false) 12%nat 13%nat Demo.w0 H _).
  lia.
Defined.

(** * Further properties of the resolver *)

(** ** Cache keys *)

Lemma lower_ascii_not_upper (c : ascii) :
  ~ (65 <= nat_of_ascii (lower_ascii c) <= 90)%nat.
Proof.
  unfold lower_ascii. cbv zeta.
  destruct ((65 <=? nat_of_ascii c)%nat && (nat_of_ascii c <=? 90)%nat)%bool eqn:Hup.
  - apply andb_true_iff in Hup as [H1 H2].
    apply Nat.leb_le in H1, H2. rewrite nat_ascii_embedding; lia.
  - apply andb_false_iff in Hup as [H|H]; apply Nat.leb_gt in H; lia.
Qed.

Lemma lower_ascii_idempotent (c : ascii) :
  lower_ascii (lower_ascii c) = lower_ascii c.
Proof.
  pose proof (lower_ascii_not_upper c) as H.
  unfold lower_ascii at 1. cbv zeta.
  destruct ((65 <=? nat_of_ascii (lower_ascii c))%nat
            && (nat_of_ascii (lower_ascii c) <=? 90)%nat)%bool eqn:Hup;
    [|reflexivity].
  apply andb_true_iff in Hup as [H1 H2]. apply Nat.leb_le in H1, H2. lia.
Qed.

Lemma lower_idempotent (s : string) : lower (lower s) = lower s.
Proof.
  induction s as [|c s IH]; simpl; [reflexivity|].
  now rewrite lower_ascii_idempotent, IH.
Qed.

Lemma lower_ascii_text (s : string) : ascii_text s -> ascii_text (lower s).
Proof.
  unfold ascii_text. induction s as [|c s IH]; cbn [lower list_ascii_of_string];
    intros H; [constructor|].
  apply Forall_cons in H as [Hc Hs]. constructor; [|now apply IH].
  unfold lower_ascii. cbv zeta.
  destruct ((65 <=? nat_of_ascii c)%nat && (nat_of_ascii c <=? 90)%nat)%bool eqn:Hup;
    [|exact Hc].
  apply andb_true_iff in Hup as [H1 H2]. apply Nat.leb_le in H1, H2.
  rewrite nat_ascii_embedding; lia.
Qed.

(** X1. The key of a cache entry is canonical on ASCII names. The
    lower-casing of the library folds the letters A to Z on ASCII text and
    nothing else there; given that, for an ASCII name the key holds no
    upper-case ASCII letter, the name and its lower-cased form have the
    same key and address the same entry in lookups and in stores, and
    two ASCII names have the same key exactly when they differ in the
    case of letters only. Names with other characters are not covered. *)
Theorem cache_key_canonical env srv (qname : string) (qtype : Z) rrs :
  (forall s, ascii_text s -> str_lower env s = lower s) ->
  ascii_text qname ->
  _cache_key env (str_lower env qname) qtype = _cache_key env qname qtype
  /\ Forall (fun c => ~ (65 <= nat_of_ascii c <= 90)%nat)
            (list_ascii_of_string (fst (_cache_key env qname qtype)))
  /\ _cache_lookup env (str_lower env qname) qtype = _cache_lookup env qname qtype
  /\ _cache_store env srv (str_lower env qname) qtype rrs
     = _cache_store env srv qname qtype rrs
  /\ (forall qname', ascii_text qname' ->
        (_cache_key env qname' qtype = _cache_key env qname qtype
         <-> lower qname' = lower qname)).
Proof.
  intros Hlib Hascii.
  assert (Hk : _cache_key env (str_lower env qname) qtype
               = _cache_key env qname qtype).
  { unfold _cache_key. rewrite (Hlib qname Hascii).
    rewrite (Hlib (lower qname) (lower_ascii_text _ Hascii)).
    now rewrite lower_idempotent. }
  split; [exact Hk|]. split.
  { clear Hk. unfold _cache_key. cbn [fst]. rewrite (Hlib qname Hascii).
    clear Hascii.
    induction qname as [|c s IH]; cbn [lower list_ascii_of_string];
      constructor; [apply lower_ascii_not_upper | exact IH]. }
  split; [unfold _cache_lookup; now rewrite Hk|].
  split; [unfold _cache_store; now rewrite Hk|].
  intros qname' Hascii'. unfold _cache_key.
  rewrite (Hlib qname Hascii), (Hlib qname' Hascii').
  split; [intros H; now inversion H | intros ->; reflexivity].
Qed.

(** ** Store, then look up *)

(** The world a store that is carried out leads to. *)
Lemma cache_store_entry env srv qname qtype rrs (w : World) (m : Z) :
  cache_enabled srv = true -> is_min m (map ttl rrs) -> 0 < m ->
  _cache_store env srv qname qtype rrs w
  = Ret tt (set_cache
              (<[_cache_key env qname qtype :=
                   mkCacheEntry rrs (Qplus (time_time env (tick w)) (inject_Z m))]>
                 (cache w))
              (bump w)).
Proof.
  intros Hon Hmin Hpos. unfold _cache_store. rewrite Hon. simpl.
  destruct (map ttl rrs) as [|t ts] eqn:Httl; [destruct Hmin as [[] _]|].
  rewrite (is_min_unique _ _ _ Hmin (min_ttl_is_min t ts)) in *.
  destruct (Z.leb_spec (min_ttl t ts) 0); [lia|].
  now rewrite copy_rrsets_id.
Qed.

(** The lookup of a key that is in the cache. *)
Lemma cache_lookup_entry env qname qtype (w : World) (e : CacheEntry) :
  cache w !! _cache_key env qname qtype = Some e ->
  _cache_lookup env qname qtype w
  = if Qltb (time_time env (tick w)) (expiry e)
    then Ret (Some (rrsets e)) (bump w)
    else Ret None (set_cache (delete (_cache_key env qname qtype) (cache w)) (bump w)).
Proof.
  intros He. unfold _cache_lookup, fresh. rewrite He.
  now rewrite copy_rrsets_id.
Qed.

Lemma cache_store_returns env srv qname qtype rrs (w : World) :
  exists w',
    _cache_store env srv qname qtype rrs w = Ret tt w'
    /\ contacted w' = contacted w
    /\ (forall k, k <> _cache_key env qname qtype -> cache w' !! k = cache w !! k)
    /\ (cache_enabled srv = false -> w' = w).
Proof.
  unfold _cache_store.
  destruct (cache_enabled srv); simpl; [|eauto 10].
  destruct (map ttl rrs) as [|t ts]; [exists w; split_and!; auto; discriminate|].
  destruct (min_ttl t ts <=? 0); [exists w; split_and!; auto; discriminate|].
  eexists. split; [reflexivity|]. simpl. split_and!; auto; [|discriminate].
  intros k Hk. now rewrite lookup_insert_ne.
Qed.

(** X2. Storing a record set never fails and touches nothing but the entry
    of its own key: every other key of the cache is as before, and so is
    the list of servers contacted. With the cache disabled the store
    changes nothing at all, whatever the TTLs. *)
Theorem cache_store_frame env srv qname qtype rrs (w : World) :
  exists w',
    _cache_store env srv qname qtype rrs w = Ret tt w'
    /\ contacted w' = contacted w
    /\ (forall k, k <> _cache_key env qname qtype -> cache w' !! k = cache w !! k)
    /\ (cache_enabled srv = false -> w' = w)
    /\ (rrs = [] -> w' = w).
Proof.
  destruct (cache_store_returns env srv qname qtype rrs w)
    as (w' & Hst & Hc & Hk & Hoff).
  exists w'. split_and!; auto.
  intros ->. unfold _cache_store in Hst.
  destruct (negb (cache_enabled srv)); simpl in Hst; congruence.
Qed.

(** X3. Store, then look up. With the cache enabled, a record set whose
    least TTL [m] is positive, stored when the clock reads [t0], is
    returned unchanged by a lookup of the same name in any letter case
    (a name with the same lower-cased form) as long as the clock reads
    less than [t0 + m]; a lookup made at or after [t0 + m] returns absent
    and leaves no entry for the key. *)
Theorem cache_store_lookup_roundtrip env srv (qname qname' : string) qtype rrs
    (w : World) (m : Z) :
  cache_enabled srv = true ->
  is_min m (map ttl rrs) ->
  0 < m ->
  exists w1,
    _cache_store env srv qname qtype rrs w = Ret tt w1
    /\ forall env' w2,
         str_lower env' qname' = str_lower env qname ->
         cache w2 = cache w1 ->
         let expiry := Qplus (time_time env (tick w)) (inject_Z m) in
         let now := time_time env' (tick w2) in
         ((now < expiry)%Q ->
          _cache_lookup env' qname' qtype w2 = Ret (Some rrs) (bump w2))
         /\ ((expiry <= now)%Q ->
             exists w3,
               _cache_lookup env' qname' qtype w2 = Ret None w3
               /\ cache w3 !! _cache_key env qname qtype = None).
Proof.
  intros Hon Hmin Hpos.
  eexists. split; [apply (cache_store_entry _ _ _ _ _ _ m); assumption|].
  intros env' w2 Hcase Hc. cbv zeta.
  assert (Hkey : _cache_key env' qname' qtype = _cache_key env qname qtype)
    by (unfold _cache_key; now rewrite Hcase).
  assert (He : cache w2 !! _cache_key env' qname' qtype
               = Some (mkCacheEntry rrs
                         (Qplus (time_time env (tick w)) (inject_Z m)))).
  { rewrite Hkey, Hc. simpl. apply lookup_insert_eq. }
  rewrite (cache_lookup_entry env' qname' qtype w2 _ He). cbn [expiry rrsets].
  split.
  - intros Hlt. apply Qltb_lt in Hlt. now rewrite Hlt.
  - intros Hge. apply Qltb_ge in Hge. rewrite Hge.
    eexists. split; [reflexivity|]. simpl. rewrite <- Hkey.
    apply lookup_delete_eq.
Qed.

(** ** The upstream resolvers *)

Lemma safe_system_nameservers_nonempty env : _safe_system_nameservers env <> [].
Proof.
  unfold _safe_system_nameservers.
  destruct (List.filter (usable_ns env) (system_nameservers env)); simpl; discriminate.
Qed.

Lemma list_filter_sublist {A} (f : A -> bool) (l : list A) :
  List.filter f l `sublist_of` l.
Proof.
  induction l as [|x l IH]; simpl; [constructor|].
  destruct (f x); [now apply sublist_skip | now apply sublist_cons].
Qed.

Lemma resolver_nameservers_safe env :
  resolver_nameservers env = _safe_system_nameservers env.
Proof.
  unfold resolver_nameservers.
  pose proof (safe_system_nameservers_nonempty env) as Hne.
  now destruct (_safe_system_nameservers env).
Qed.

(** X4. The upstream resolvers are never an empty list. Either no system
    nameserver is usable and they are the two public resolvers 8.8.8.8 and
    1.1.1.1, or they are the system nameservers that are IP literals and
    neither loopback nor unspecified, in their order; the resolver object
    is always given this list. *)
Theorem safe_system_nameservers_spec env :
  _safe_system_nameservers env <> []
  /\ resolver_nameservers env = _safe_system_nameservers env
  /\ ((_safe_system_nameservers env = ["8.8.8.8"; "1.1.1.1"]
       /\ forall ns, In ns (system_nameservers env) ->
                     ip_address env ns <> Some (false, false))
      \/ (_safe_system_nameservers env `sublist_of` system_nameservers env
          /\ forall ns, In ns (_safe_system_nameservers env) <->
                        In ns (system_nameservers env)
                        /\ ip_address env ns = Some (false, false))).
Proof.
  assert (Husable : forall ns, usable_ns env ns = true
                               <-> ip_address env ns = Some (false, false)).
  { intros ns. unfold usable_ns.
    destruct (ip_address env ns) as [[[] []]|]; simpl; split; congruence. }
  split; [apply safe_system_nameservers_nonempty|]. split.
  - apply resolver_nameservers_safe.
  - unfold _safe_system_nameservers.
    destruct (List.filter (usable_ns env) (system_nameservers env)) as [|x l] eqn:Hf.
    + left. split; [reflexivity|]. intros ns Hin Hip.
      apply Husable in Hip.
      assert (Hmem : In ns (List.filter (usable_ns env) (system_nameservers env)))
        by (apply filter_In; auto).
      rewrite Hf in Hmem. contradiction.
    + right. cbn [nonempty]. rewrite <- Hf. split; [apply list_filter_sublist|].
      intros ns. rewrite filter_In, Husable. reflexivity.
Qed.

(** What [_recursive_lookup] returns, read off the answer of the system
    resolver. *)
Lemma recursive_lookup_shape env qname qtype (w w' : World) a rc tr :
  _recursive_lookup env qname qtype w = Ret (a, rc, tr) w' ->
  exists ev,
    tr = [ev] /\ step ev = "Recursive" /\ cache_status ev = "MISS"
    /\ rtt ev = total_time ev
    /\ (exists rest, _safe_system_nameservers env = server ev :: rest)
    /\ cache w' = cache w /\ contacted w' = contacted w
    /\ tick w' = (4 + tick w)%nat
    /\ match resolver_resolve env (S (tick w)) (resolver_nameservers env)
                              qname qtype with
       | inr m =>
           a = answer m /\ rc = msg_rcode m
           /\ response ev = (if nonempty (answer m) then "ANSWER"
                             else rcode_to_text env (msg_rcode m))
       | inl _ =>
           a = [] /\ rc = rcode.NXDOMAIN /\ response ev = "TIMEOUT_OR_NXDOMAIN"
       end.
Proof.
  unfold _recursive_lookup. cbn [bind ask]. cbn [tick bump].
  assert (Hsrv : exists rest,
             _safe_system_nameservers env
             = hd "SYSTEM" (resolver_nameservers env) :: rest).
  { rewrite resolver_nameservers_safe.
    pose proof (safe_system_nameservers_nonempty env) as Hne.
    destruct (_safe_system_nameservers env) as [|s rest];
      [contradiction | now exists rest]. }
  destruct (resolver_resolve env (S (tick w)) (resolver_nameservers env) qname qtype)
    as [[]|m]; cbn [bind ask ret raise]; intros H; try discriminate H;
    inversion H; subst; clear H;
    (eexists; split; [reflexivity|]; simpl; split_and!; auto).
Qed.

(** X5. A recursive attempt that returns has logged exactly one event,
    labelled Recursive with cache status MISS, its round-trip time equal to
    its total time, and its server the first of the upstream resolvers
    (the head of the list [_safe_system_nameservers] gives). A response of
    the system resolver is returned with its records and response code,
    summarised ANSWER when it has records and by the text of its code
    otherwise. A timeout and an NXDOMAIN of the system resolver are not
    told apart: both give no records, the response code NXDOMAIN and the
    summary TIMEOUT_OR_NXDOMAIN. The attempt leaves the cache and the list of
    contacted servers as they were, and an exception it lets through is
    neither a timeout nor NXDOMAIN. *)
Theorem recursive_lookup_one_event env qname qtype (w : World) :
  match _recursive_lookup env qname qtype w with
  | Ret (a, rc, tr) w' =>
      exists ev,
        tr = [ev] /\ step ev = "Recursive" /\ cache_status ev = "MISS"
        /\ rtt ev = total_time ev
        /\ (exists rest, _safe_system_nameservers env = server ev :: rest)
        /\ cache w' = cache w /\ contacted w' = contacted w
        /\ match resolver_resolve env (S (tick w)) (resolver_nameservers env)
                                  qname qtype with
           | inr m =>
               a = answer m /\ rc = msg_rcode m
               /\ response ev = (if nonempty (answer m) then "ANSWER"
                                 else rcode_to_text env (msg_rcode m))
           | inl _ =>
               a = [] /\ rc = rcode.NXDOMAIN
               /\ response ev = "TIMEOUT_OR_NXDOMAIN"
           end
  | Exc e w' =>
      e <> Timeout /\ e <> NXDOMAIN_exn
      /\ resolver_resolve env (S (tick w)) (resolver_nameservers env) qname qtype
         = inl e
  | Spin _ => False
  end.
Proof.
  destruct (_recursive_lookup env qname qtype w) as [[[a rc] tr] w'|e w'|w'] eqn:H.
  - apply recursive_lookup_shape in H
      as (ev & ? & ? & ? & ? & ? & ? & ? & _ & Hres).
    exists ev. split_and!; auto.
  - unfold _recursive_lookup in H. cbn [bind ask] in H. cbn [tick bump] in H.
    destruct (resolver_resolve env (S (tick w)) (resolver_nameservers env) qname qtype)
      as [[]|m]; cbn [bind ask ret raise] in H; inversion H; subst;
      split_and!; congruence.
  - unfold _recursive_lookup in H. cbn [bind ask] in H. cbn [tick bump] in H.
    destruct (resolver_resolve env (S (tick w)) (resolver_nameservers env) qname qtype)
      as [[]|m]; cbn [bind ask ret raise] in H; discriminate H.
Qed.

(** X6. If every secondary lookup of an NS name fails with NXDOMAIN, a
    timeout or NoNameservers, the failures are swallowed one by one:
    [_resolve_ns_addresses] returns the empty list after one lookup per
    name, with the cache and the contacted servers as they were. *)
Theorem resolve_ns_addresses_all_fail env (ns_names : list string) (w : World) :
  (forall t name,
     In name ns_names ->
     let r := resolver_resolve env t (resolver_nameservers env) name rdatatype.A in
     r = inl NXDOMAIN_exn \/ r = inl Timeout \/ r = inl NoNameservers) ->
  _resolve_ns_addresses env ns_names w
  = Ret [] (mkWorld (cache w) (tick w + length ns_names) (contacted w)).
Proof.
  unfold _resolve_ns_addresses. generalize (@nil string) as ips.
  revert w. induction ns_names as [|n ns IH]; intros w ips Hfail; simpl.
  - unfold ret. destruct w. simpl. now rewrite Nat.add_0_r.
  - cbn [bind ask].
    destruct (Hfail (tick w) n (or_introl eq_refl)) as [->|[->| ->]];
      (rewrite IH; [|intros; apply Hfail; now right]);
      simpl; do 2 f_equal; lia.
Qed.

(** ** The iterative walk: who is contacted, what is logged *)

Lemma for_servers_unreachable env start sn qname qtype rd todo lr tr (w : World) :
  (forall s t, In s todo ->
     udp env t s qname qtype rd = inl Timeout
     \/ udp env t s qname qtype rd = inl OSError) ->
  for_servers env start sn qname qtype rd todo lr tr w
  = Ret (PassElse lr tr)
        (mkWorld (cache w) (tick w + 2 * length todo) (contacted w ++ todo)).
Proof.
  revert w. induction todo as [|s rest IH]; intros w Hdown.
  - simpl. unfold ret. destruct w; simpl. now rewrite Nat.add_0_r, app_nil_r.
  - cbn [for_servers]. unfold bind at 1, try_query. rewrite query_server_eq.
    destruct (Hdown s (S (tick w)) (or_introl eq_refl)) as [-> | ->];
      (rewrite IH; [|intros; apply Hdown; now right]);
      cbn [cache tick contacted length]; rewrite <- app_assoc;
      do 2 f_equal; lia.
Qed.

(** X7. When no root server can be reached, each of them raising a timeout
    or a socket error (and also when the root list is empty), the
    iterative lookup contacts every root once, in order, logs no event and
    returns no records with the response code SERVFAIL; the cache is
    untouched. *)
Theorem iterative_lookup_unreachable env srv fuel qname qtype rd (w : World) :
  (forall s t, In s (root_servers srv) ->
     udp env t s qname qtype rd = inl Timeout
     \/ udp env t s qname qtype rd = inl OSError) ->
  (1 <= fuel)%nat ->
  _iterative_lookup env srv fuel qname qtype rd w
  = Ret ([], rcode.SERVFAIL, [])
        (mkWorld (cache w) (S (tick w) + 2 * length (root_servers srv))
                 (contacted w ++ root_servers srv)).
Proof.
  intros Hdown Hfuel. destruct fuel as [|n]; [lia|].
  unfold _iterative_lookup. cbn [bind ask loop_iter loop_init servers depth
                                 last_rcode trace].
  destruct (root_servers srv) as [|s rest] eqn:Hroots.
  - unfold bind, ret, bump. simpl. now rewrite app_nil_r, Nat.add_0_r.
  - rewrite <- Hroots in *. unfold bind at 1. unfold bind at 1.
    rewrite (for_servers_unreachable _ _ _ _ _ _ _ _ _ _ Hdown).
    reflexivity.
Qed.

(** What one pass does to the trace and to the list of contacted servers. *)
Lemma for_servers_trace_contacts env start sn qname qtype rd todo lr tr
    (w w' : World) r :
  for_servers env start sn qname qtype rd todo lr tr w = Ret r w' ->
  exists evs k,
    pass_trace r = tr ++ evs
    /\ contacted w' = contacted w ++ take k todo
    /\ map server evs `sublist_of` take k todo
    /\ (evs = [] -> r = PassElse lr tr).
Proof.
  revert lr tr w. induction todo as [|s rest IH]; intros lr tr w H.
  - simpl in H. ret_inv H. exists [], 0%nat. simpl. rewrite !app_nil_r.
    split_and!; auto; try constructor.
  - cbn [for_servers] in H. unfold bind at 1, try_query in H.
    rewrite query_server_eq in H.
    assert (Hskip : forall lr0 w1,
               contacted w1 = contacted w ++ [s] ->
               for_servers env start sn qname qtype rd rest lr0 tr w1 = Ret r w' ->
               lr0 = lr ->
               exists evs k,
                 pass_trace r = tr ++ evs
                 /\ contacted w' = contacted w ++ take k (s :: rest)
                 /\ map server evs `sublist_of` take k (s :: rest)
                 /\ (evs = [] -> r = PassElse lr tr)).
    { intros lr0 w1 Hc Hrun ->. apply IH in Hrun as (evs & k & Htr & Hct & Hsub & Hnil).
      exists evs, (S k). rewrite Hct, Hc, <- app_assoc. simpl.
      split; [exact Htr|]. split; [reflexivity|].
      split; [now apply sublist_cons | exact Hnil]. }
    destruct (udp env (S (tick w)) s qname qtype rd) as [e|m].
    { destruct e; try discriminate H;
        (eapply Hskip; [|exact H|reflexivity]; reflexivity). }
    cbn [bind ask] in H. set (ev := mkTraceEvent _ _ _ _ _ _ _) in H.
    set (w2 := bump (bump _)) in H.
    assert (Hw2 : contacted w2 = contacted w ++ [s]) by reflexivity.
    assert (Hleaf : forall r0,
               pass_trace r0 = tr ++ [ev] ->
               forall w3, contacted w3 = contacted w2 ->
               exists evs k,
                 pass_trace r0 = tr ++ evs
                 /\ contacted w3 = contacted w ++ take k (s :: rest)
                 /\ map server evs `sublist_of` take k (s :: rest)
                 /\ (evs = [] -> r0 = PassElse lr tr)).
    { intros r0 Hr0 w3 Hw3. exists [ev], 1%nat. rewrite Hw3, Hw2. simpl.
      split; [exact Hr0|]. split; [reflexivity|].
      split; [subst ev; simpl; reflexivity | discriminate]. }
    assert (Hmore : forall w3,
               contacted w3 = contacted w2 ->
               for_servers env start sn qname qtype rd rest (msg_rcode m)
                           (tr ++ [ev]) w3 = Ret r w' ->
               exists evs k,
                 pass_trace r = tr ++ evs
                 /\ contacted w' = contacted w ++ take k (s :: rest)
                 /\ map server evs `sublist_of` take k (s :: rest)
                 /\ (evs = [] -> r = PassElse lr tr)).
    { intros w3 Hw3 Hrun. apply IH in Hrun as (evs & k & Htr & Hct & Hsub & _).
      exists (ev :: evs), (S k). rewrite Htr, Hct, Hw3, Hw2, <- !app_assoc. simpl.
      split; [reflexivity|]. split; [reflexivity|].
      split; [subst ev; simpl; now apply sublist_skip | discriminate]. }
    destruct ((msg_rcode m =? rcode.NOERROR) && nonempty (answer m));
      [ret_inv H; now apply Hleaf|].
    destruct (msg_rcode m =? rcode.NXDOMAIN); [ret_inv H; now apply Hleaf|].
    destruct (nonempty (_extract_glue_ips m)); [ret_inv H; now apply Hleaf|].
    destruct (_extract_ns_names m) as [e|[|n ns]];
      [discriminate H | now apply (Hmore w2) |].
    apply bind_ret_inv in H as (ips & w3 & Hres & H).
    pose proof (resolve_ns_same_contacted env (n :: ns) w2) as Hns.
    rewrite Hres in Hns. simpl in Hns.
    destruct (nonempty ips); [ret_inv H; now apply Hleaf | now apply (Hmore w3)].
Qed.

(** The same for the loop, from any loop head. *)
Lemma loop_iter_trace_contacts env start qname qtype rd n c (w w' : World) st :
  loop_iter env start qname qtype rd n c w = Ret st w' ->
  exists evs new,
    status_trace st = trace c ++ evs
    /\ contacted w' = contacted w ++ new
    /\ map server evs `sublist_of` new
    /\ Forall (fun e => cache_status e = "MISS"
                        /\ exists d, step e = _step_name d) evs
    /\ (evs = [] ->
        match st with
        | Returned (a, rc, _) => a = [] /\ rc = last_rcode c
        | AtHead c' => last_rcode c' = last_rcode c
        end).
Proof.
  revert c w. induction n as [|n IH]; intros c w H; simpl in H.
  - ret_inv H. exists [], []. simpl. rewrite !app_nil_r.
    split_and!; auto; try constructor.
  - destruct (servers c) eqn:Hs.
    { ret_inv H. exists [], []. simpl. rewrite !app_nil_r.
      split_and!; auto; try constructor. }
    apply bind_ret_inv in H as (r & w1 & Hpass & H).
    pose proof (for_servers_result _ _ _ _ _ _ _ _ _ _ _ _ Hpass)
      as (evs0 & Htr0 & Hall & _ & Hshape).
    apply for_servers_trace_contacts in Hpass as (evs & k & Htr & Hct & Hsub & Hnil).
    assert (evs0 = evs) as -> by (rewrite Htr in Htr0; now apply app_inv_head in Htr0).
    assert (Hall' : Forall (fun e => cache_status e = "MISS"
                                     /\ exists d, step e = _step_name d) evs).
    { eapply Forall_impl; [exact Hall|]. simpl. intros e [He1 He2]. eauto. }
    destruct r as [a rc tr|s' lr tr|lr tr]; simpl in Htr.
    + ret_inv H. exists evs, (take k (s :: l)). simpl. split_and!; auto.
      intros Hev. specialize (Hnil Hev). discriminate.
    + apply IH in H as (evs' & new' & Htr' & Hct' & Hsub' & Hall2 & _).
      exists (evs ++ evs'), (take k (s :: l) ++ new').
      simpl in Htr'. rewrite Htr', Hct', Hct, Htr, <- !app_assoc, map_app.
      split_and!; auto.
      * now apply sublist_app.
      * apply Forall_app. auto.
      * intros Hev. apply app_eq_nil in Hev as [Hev _].
        specialize (Hnil Hev). discriminate.
    + ret_inv H. exists evs, (take k (s :: l)). simpl. split_and!; auto.
      intros Hev. specialize (Hnil Hev). inversion Hnil. auto.
Qed.

Lemma iterative_lookup_trace_facts env srv fuel qname qtype rd (w w' : World) a rc tr :
  _iterative_lookup env srv fuel qname qtype rd w = Ret (a, rc, tr) w' ->
  exists new,
    contacted w' = contacted w ++ new
    /\ map server tr `sublist_of` new
    /\ (length tr <= length new)%nat
    /\ Forall (fun e => cache_status e = "MISS"
                        /\ (step e = "Root" \/ step e = "TLD"
                            \/ step e = "Authoritative")) tr
    /\ (tr = [] -> a = [] /\ rc = rcode.SERVFAIL)
    /\ cache w' = cache w.
Proof.
  intros H.
  pose proof (iterative_lookup_same_cache env srv fuel qname qtype rd w) as Hc.
  rewrite H in Hc. unfold same_cache in Hc. simpl in Hc.
  unfold _iterative_lookup in H.
  apply bind_ret_inv in H as (start & w1 & Hask & H).
  unfold ask in Hask. inversion Hask; subst; clear Hask.
  apply bind_ret_inv in H as ([c|r] & w2 & Hloop & H); [discriminate H|].
  ret_inv H.
  apply loop_iter_trace_contacts in Hloop
    as (evs & new & Htr & Hct & Hsub & Hall & Hnil).
  simpl in Htr, Hct, Hnil. subst tr.
  exists new. split_and!; auto.
  - apply sublist_length in Hsub. now rewrite length_map in Hsub.
  - eapply Forall_impl; [exact Hall|]. simpl. intros e [He [d Hd]].
    split; [exact He|]. rewrite Hd. destruct d as [|[|d]]; auto.
Qed.

(** X8. In the result of an iterative lookup every trace event names a
    server the lookup has contacted, in the order of contact (so the trace
    is never longer than the list of servers contacted), carries the cache
    status MISS and a phase label of the walk. A lookup that returns an
    empty trace, no server having answered, returns no records and the
    response code SERVFAIL. The cache is never written by the lookup
    itself. *)
Theorem iterative_lookup_trace env srv fuel qname qtype rd (w w' : World) a rc tr :
  _iterative_lookup env srv fuel qname qtype rd w = Ret (a, rc, tr) w' ->
  exists new,
    contacted w' = contacted w ++ new
    /\ map server tr `sublist_of` new
    /\ (length tr <= length new)%nat
    /\ Forall (fun e => cache_status e = "MISS"
                        /\ (step e = "Root" \/ step e = "TLD"
                            \/ step e = "Authoritative")) tr
    /\ (tr = [] -> a = [] /\ rc = rcode.SERVFAIL)
    /\ cache w' = cache w.
Proof.
  apply iterative_lookup_trace_facts.
Qed.

(** X9. A referral that names servers but carries no glue leads to the
    secondary lookup of the names. If the lookup yields addresses, they are
    the next candidate set and the pass ends; if it yields none, the pass
    goes on with the next server of the same candidate set. In both cases
    the referral is logged as one event of the server that sent it. *)
Theorem for_servers_unglued_referral env start sn qname qtype rd s rest lr tr
    (w : World) (m : Message) (n : string) (ns : list string) :
  udp env (S (tick w)) s qname qtype rd = inr m ->
  (msg_rcode m =? rcode.NOERROR) && nonempty (answer m) = false ->
  (msg_rcode m =? rcode.NXDOMAIN) = false ->
  _extract_glue_ips m = [] ->
  _extract_ns_names m = inr (n :: ns) ->
  exists ev,
    server ev = s /\ step ev = sn /\ response ev = _summarize env m
    /\ match _resolve_ns_addresses env (n :: ns)
               (mkWorld (cache w) (5 + tick w) (contacted w ++ [s])) with
       | Ret ips w3 =>
           if nonempty ips
           then for_servers env start sn qname qtype rd (s :: rest) lr tr w
                = Ret (PassBreak ips (msg_rcode m) (tr ++ [ev])) w3
           else for_servers env start sn qname qtype rd (s :: rest) lr tr w
                = for_servers env start sn qname qtype rd rest (msg_rcode m)
                              (tr ++ [ev]) w3
       | Exc e w3 =>
           for_servers env start sn qname qtype rd (s :: rest) lr tr w = Exc e w3
       | Spin _ => False
       end.
Proof.
  intros Hudp Hans Hnx Hglue Hns.
  set (ev := mkTraceEvent s sn (_summarize env m)
               (Qminus (perf_counter env (S (S (tick w))))
                       (perf_counter env (tick w)))
               (Qminus (perf_counter env (3 + tick w)) start) "MISS"
               (time_time env (4 + tick w))).
  set (w2 := mkWorld (cache w) (5 + tick w) (contacted w ++ [s])).
  assert (Heq : for_servers env start sn qname qtype rd (s :: rest) lr tr w
                = bind (_resolve_ns_addresses env (n :: ns))
                       (fun ips =>
                          if nonempty ips
                          then ret (PassBreak ips (msg_rcode m) (tr ++ [ev]))
                          else for_servers env start sn qname qtype rd rest
                                           (msg_rcode m) (tr ++ [ev]))
                       w2).
  { cbn [for_servers]. unfold bind at 1, try_query.
    rewrite query_server_eq, Hudp. cbn [bind ask ret tick bump cache contacted].
    rewrite Hans, Hnx, Hglue, Hns. cbn [nonempty]. reflexivity. }
  exists ev. split; [reflexivity|]. split; [reflexivity|]. split; [reflexivity|].
  rewrite Heq. unfold bind.
  destruct (_resolve_ns_addresses env (n :: ns) w2) as [ips w3|e w3|w3] eqn:Hres.
  - destruct (nonempty ips); reflexivity.
  - reflexivity.
  - exact (resolve_ns_never_spins _ _ _ _ _ _ Hres).
Qed.

(** ** What [resolve] returns *)

(** The ways in which [resolve] returns: a cache hit, or a miss followed
    by a lookup (the recursive attempt when it succeeds, otherwise the
    iterative walk) that does not write the cache, then a store of a
    positive answer. *)
Lemma resolve_inv env srv fuel qname qtype rd (w w' : World) a rc tr hit :
  resolve env srv fuel qname qtype rd w = Ret (a, rc, tr, hit) w' ->
  (hit = true /\ rc = rcode.NOERROR
   /\ exists w1,
        _cache_lookup env qname qtype w = Ret (Some a) w1
        /\ w' = bump w1
        /\ tr = [mkTraceEvent "CACHE" "CACHE" "ANSWER_FROM_CACHE" 0%Q 0%Q "HIT"
                              (time_time env (tick w1))])
  \/ (hit = false
      /\ exists w1 w2 w3,
           _cache_lookup env qname qtype w = Ret None w1
           /\ cache w2 = cache w1 /\ cache w3 = cache w1
           /\ ((rd = true /\ w2 = w1
                /\ _recursive_lookup env qname qtype w1 = Ret (a, rc, tr) w3
                /\ nonempty a && (rc =? rcode.NOERROR) = true)
               \/ _iterative_lookup env srv fuel qname qtype rd w2
                  = Ret (a, rc, tr) w3)
           /\ (if nonempty a && (rc =? rcode.NOERROR)
               then _cache_store env srv qname qtype a w3 = Ret tt w'
               else w' = w3)).
Proof.
  intros H. unfold resolve in H.
  apply bind_ret_inv in H as ([cached|] & w1 & Hlook & H).
  { cbn [bind ask] in H. ret_inv H. left. split_and!; auto. exists w1. auto. }
  right.
  assert (Hiter : forall w2, cache w2 = cache w1 ->
            resolve_iterative env srv fuel qname qtype rd w2
              = Ret (a, rc, tr, hit) w' ->
            hit = false
            /\ exists w3,
                 cache w3 = cache w1
                 /\ _iterative_lookup env srv fuel qname qtype rd w2
                    = Ret (a, rc, tr) w3
                 /\ (if nonempty a && (rc =? rcode.NOERROR)
                     then _cache_store env srv qname qtype a w3 = Ret tt w'
                     else w' = w3)).
  { intros w2 Hc Hit. unfold resolve_iterative in Hit.
    apply bind_ret_inv in Hit as ([[a0 rc0] tr0] & w3 & Hlk & Hit).
    pose proof (iterative_lookup_same_cache env srv fuel qname qtype rd w2) as Hsame.
    rewrite Hlk in Hsame. unfold same_cache in Hsame. simpl in Hsame.
    destruct (nonempty a0 && (rc0 =? rcode.NOERROR)) eqn:Hok.
    - apply bind_ret_inv in Hit as ([] & w4 & Hst & Hit). ret_inv Hit.
      split; [reflexivity|]. exists w3. rewrite Hok. split_and!; auto. congruence.
    - ret_inv Hit. split; [reflexivity|]. exists w'. rewrite Hok.
      split_and!; auto. congruence. }
  destruct rd.
  - apply bind_ret_inv in H as ([[a0 rc0] tr0] & w2 & Hrec & H).
    pose proof (recursive_lookup_same_cache env qname qtype w1) as Hsame.
    rewrite Hrec in Hsame. unfold same_cache in Hsame. simpl in Hsame.
    destruct (nonempty a0 && (rc0 =? rcode.NOERROR)) eqn:Hok.
    + apply bind_ret_inv in H as ([] & w4 & Hst & H). ret_inv H.
      split; [reflexivity|]. exists w1, w1, w2. rewrite Hok.
      split_and!; auto.
    + destruct (Hiter w2 Hsame H) as (-> & w3 & Hc3 & Hit & Hst).
      split; [reflexivity|]. exists w1, w2, w3. split_and!; auto.
  - destruct (Hiter w1 eq_refl H) as (-> & w3 & Hc3 & Hit & Hst).
    split; [reflexivity|]. exists w1, w1, w3. split_and!; auto.
Qed.

Lemma resolve_shape_facts env srv fuel qname qtype rd (w w' : World)
    a rc tr hit :
  resolve env srv fuel qname qtype rd w = Ret (a, rc, tr, hit) w' ->
  (a <> [] -> rc = rcode.NOERROR)
  /\ Forall (fun e => cache_status e = if hit then "HIT" else "MISS") tr
  /\ (hit = true -> exists ev, tr = [ev] /\ step ev = "CACHE")
  /\ (hit = false ->
      Forall (fun e => step e = "Recursive" \/ step e = "Root"
                       \/ step e = "TLD" \/ step e = "Authoritative") tr).
Proof.
  intros H. apply resolve_inv in H
    as [(-> & -> & w1 & Hlook & _ & ->)
       |(-> & w1 & w2 & w3 & _ & _ & _ & Hsrc & _)].
  - split; [reflexivity|]. split; [repeat constructor|].
    split; [|discriminate]. intros _. eexists. split; reflexivity.
  - destruct Hsrc as [(_ & _ & Hrec & Hok)|Hit].
    + apply andb_true_iff in Hok as [_ Hrc]. apply Z.eqb_eq in Hrc.
      apply recursive_lookup_shape in Hrec as (ev & -> & Hst & Hcs & _).
      split; [auto|]. split; [repeat constructor; exact Hcs|].
      split; [discriminate|]. intros _.
      constructor; [left; exact Hst | constructor].
    + pose proof (iterative_lookup_answers _ _ _ _ _ _ _ _ _ _ _ Hit) as Hans.
      apply iterative_lookup_trace_facts in Hit as (new & _ & _ & _ & Hall & _).
      split; [intros Hne; destruct Hans; [contradiction | assumption]|].
      split; [eapply Forall_impl; [exact Hall|]; simpl; tauto|].
      split; [discriminate|].
      intros _. eapply Forall_impl; [exact Hall|]. simpl. tauto.
Qed.

(** X10. Whatever [resolve] returns, records come with the response code
    NOERROR only, and the cache status of every trace event agrees with
    the hit flag: a hit has the single event CACHE with status HIT, a miss
    has only MISS events, labelled Recursive, Root, TLD or
    Authoritative. *)
Theorem resolve_result_shape env srv fuel qname qtype rd (w w' : World)
    a rc tr hit :
  resolve env srv fuel qname qtype rd w = Ret (a, rc, tr, hit) w' ->
  (a <> [] -> rc = rcode.NOERROR)
  /\ Forall (fun e => cache_status e = if hit then "HIT" else "MISS") tr
  /\ (hit = true -> exists ev, tr = [ev] /\ step ev = "CACHE")
  /\ (hit = false ->
      Forall (fun e => step e = "Recursive" \/ step e = "Root"
                       \/ step e = "TLD" \/ step e = "Authoritative") tr).
Proof.
  apply resolve_shape_facts.
Qed.

(** X11. With the cache disabled a resolution never writes the cache: when
    [resolve] returns, every key other than the key of the query is as
    before, and the key of the query is as before or has been evicted. A
    server that starts with an empty cache therefore never reports a hit
    and keeps its cache empty. *)
Theorem resolve_cache_disabled env srv fuel qname qtype rd (w w' : World)
    a rc tr hit :
  cache_enabled srv = false ->
  resolve env srv fuel qname qtype rd w = Ret (a, rc, tr, hit) w' ->
  (forall k, k <> _cache_key env qname qtype -> cache w' !! k = cache w !! k)
  /\ (cache w' = cache w \/ cache w' = delete (_cache_key env qname qtype) (cache w))
  /\ (cache w = ∅ -> hit = false /\ cache w' = ∅).
Proof.
  intros Hoff H.
  assert (Hlook : forall r w1,
             _cache_lookup env qname qtype w = Ret r w1 ->
             (cache w1 = cache w /\ (cache w = ∅ -> r = None))
             \/ (r = None /\ cache w1 = delete (_cache_key env qname qtype) (cache w))).
  { intros r w1. unfold _cache_lookup.
    destruct (cache w !! _cache_key env qname qtype) as [e|] eqn:He.
    - destruct (fresh _ e); intros Hr; inversion Hr; subst; simpl; [left|right; auto].
      split; [reflexivity|]. intros Hempty. rewrite Hempty in He.
      rewrite lookup_empty in He. discriminate.
    - intros Hr; inversion Hr; subst. left. auto. }
  assert (Hfin : exists r w1,
             _cache_lookup env qname qtype w = Ret r w1 /\ cache w' = cache w1
             /\ (r = None -> hit = false)).
  { apply resolve_inv in H
      as [(-> & -> & w1 & Hl & -> & _)
         |(-> & w1 & w2 & w3 & Hl & _ & Hc3 & _ & Hst)].
    - exists (Some a), w1. split_and!; auto. discriminate.
    - exists None, w1. split_and!; auto.
      destruct (cache_store_returns env srv qname qtype a w3)
        as (w4 & Hst4 & _ & _ & Hsame).
      destruct (nonempty a && (rc =? rcode.NOERROR)); [|congruence].
      rewrite Hst4 in Hst. inversion Hst; subst. now rewrite (Hsame Hoff). }
  destruct Hfin as (r & w1 & Hl & Hc & Hhit).
  destruct (Hlook r w1 Hl) as [[Hsame Hnone]|[-> Hdel]]; rewrite Hc.
  - rewrite Hsame. split_and!; auto.
  - rewrite Hdel. split_and!; auto.
    + intros k Hk. now rewrite lookup_delete_ne.
    + intros Hempty. split; [auto|]. rewrite Hempty. apply delete_empty.
Qed.

(** X12. With recursion requested and nothing fresh in the cache, a
    NOERROR answer of the system resolver ends the resolution at once:
    [resolve] returns the records of that answer with one event labelled
    Recursive and summarised ANSWER, whatever the budget of the iterative
    walk, and contacts no root, TLD or authoritative server. *)
Theorem resolve_recursive_success env srv fuel qname qtype (w w1 : World)
    (m : Message) :
  _cache_lookup env qname qtype w = Ret None w1 ->
  resolver_resolve env (S (tick w1)) (resolver_nameservers env) qname qtype
    = inr m ->
  answer m <> [] ->
  msg_rcode m = rcode.NOERROR ->
  exists ev w',
    resolve env srv fuel qname qtype true w
    = Ret (answer m, rcode.NOERROR, [ev], false) w'
    /\ step ev = "Recursive" /\ response ev = "ANSWER"
    /\ cache_status ev = "MISS"
    /\ contacted w' = contacted w.
Proof.
  intros Hmiss Hres Hans Hrc.
  pose proof (cache_lookup_miss _ _ _ _ _ Hmiss) as (_ & _ & Hct).
  assert (Hne : nonempty (answer m) = true) by (now destruct (answer m)).
  assert (Hrec : exists ev w3,
             _recursive_lookup env qname qtype w1
             = Ret (answer m, rcode.NOERROR, [ev]) w3
             /\ step ev = "Recursive" /\ response ev = "ANSWER"
             /\ cache_status ev = "MISS" /\ contacted w3 = contacted w1).
  { unfold _recursive_lookup. cbn [bind ask]. cbn [tick bump].
    rewrite Hres. cbn [bind ask ret]. rewrite Hrc, Hne.
    eexists _, _. split; [reflexivity|]. auto. }
  destruct Hrec as (ev & w3 & Hrec & Hst & Hresp & Hcs & Hc3).
  destruct (cache_store_returns env srv qname qtype (answer m) w3)
    as (w4 & Hstore & Hc4 & _).
  exists ev, w4. split; [|split_and!; auto; congruence].
  unfold resolve. rewrite (bind_ret_eq _ _ _ _ _ Hmiss). cbn beta iota.
  rewrite (bind_ret_eq _ _ _ _ _ Hrec). cbn beta iota. rewrite Hne.
  cbn [andb]. change (rcode.NOERROR =? rcode.NOERROR) with true. cbn iota.
  now rewrite (bind_ret_eq _ _ _ _ _ Hstore).
Qed.

(** X13. Resolve, then resolve again. With the cache enabled, records that
    a resolution has obtained from upstream with a positive least TTL [m]
    are in the cache when it returns, with an expiry [m] seconds after a
    reading of the clock; until that expiry every later resolution of the
    same name (in any letter case: a name with the same lower-cased form)
    and type is a cache hit that returns these records with a single
    event and contacts no server. *)
Theorem resolve_then_hit env srv fuel qname qtype rd (w w' : World) a rc tr (m : Z) :
  cache_enabled srv = true ->
  resolve env srv fuel qname qtype rd w = Ret (a, rc, tr, false) w' ->
  a <> [] ->
  is_min m (map ttl a) ->
  0 < m ->
  exists t0,
    cache w' !! _cache_key env qname qtype
      = Some (mkCacheEntry a (Qplus (time_time env t0) (inject_Z m)))
    /\ forall env2 fuel2 rd2 qname2 (w2 : World),
         str_lower env2 qname2 = str_lower env qname ->
         cache w2 = cache w' ->
         (time_time env2 (tick w2) < Qplus (time_time env t0) (inject_Z m))%Q ->
         exists ev w3,
           resolve env2 srv fuel2 qname2 qtype rd2 w2
           = Ret (a, rcode.NOERROR, [ev], true) w3
           /\ cache_status ev = "HIT"
           /\ contacted w3 = contacted w2.
Proof.
  intros Hon H Hne Hmin Hpos.
  pose proof (resolve_shape_facts _ _ _ _ _ _ _ _ _ _ _ _ H) as (Hrc & _).
  specialize (Hrc Hne). subst rc.
  apply resolve_inv in H
    as [(Hhit & _)|(_ & w1 & w2 & w3 & _ & _ & _ & _ & Hst)]; [discriminate|].
  assert (Hok : nonempty a && (rcode.NOERROR =? rcode.NOERROR) = true)
    by (now destruct a).
  rewrite Hok in Hst.
  rewrite (cache_store_entry env srv qname qtype a w3 m Hon Hmin Hpos) in Hst.
  inversion Hst; subst w'; clear Hst.
  exists (tick w3). split; [simpl; apply lookup_insert_eq|].
  clear w1 w2. intros env2 fuel2 rd2 qname2 w2 Hcase Hc Hlt.
  assert (Hkey : _cache_key env2 qname2 qtype = _cache_key env qname qtype)
    by (unfold _cache_key; now rewrite Hcase).
  assert (He : cache w2 !! _cache_key env2 qname2 qtype
               = Some (mkCacheEntry a (Qplus (time_time env (tick w3)) (inject_Z m)))).
  { rewrite Hkey, Hc. simpl. apply lookup_insert_eq. }
  assert (Hlook : _cache_lookup env2 qname2 qtype w2 = Ret (Some a) (bump w2)).
  { rewrite (cache_lookup_entry _ _ _ _ _ He). cbn [expiry rrsets].
    apply Qltb_lt in Hlt. now rewrite Hlt. }
  unfold resolve. rewrite (bind_ret_eq _ _ _ _ _ Hlook). cbn [bind ask ret].
  eexists _, _. split; [reflexivity|]. split; reflexivity.
Qed.

(** ** Summaries and NS names *)

Lemma string_compare_lt_trans (a b c : string) :
  String.compare a b = Lt -> String.compare b c = Lt -> String.compare a c = Lt.
Proof.
  revert b c. induction a as [|x a IH]; intros [|y b] [|z c]; simpl;
    try discriminate; auto.
  unfold Ascii.compare.
  destruct (N.compare_spec (N_of_ascii x) (N_of_ascii y)) as [Hxy|Hxy|Hxy];
    destruct (N.compare_spec (N_of_ascii y) (N_of_ascii z)) as [Hyz|Hyz|Hyz];
    try discriminate; intros H1 H2.
  - rewrite Hxy, Hyz, N.compare_refl. eauto.
  - rewrite Hxy. now apply N.compare_lt_iff in Hyz as ->.
  - rewrite <- Hyz. now apply N.compare_lt_iff in Hxy as ->.
  - assert (N_of_ascii x < N_of_ascii z)%N as Hxz by lia.
    now apply N.compare_lt_iff in Hxz as ->.
Qed.

Lemma string_compare_refl (a : string) : String.compare a a = Eq.
Proof.
  induction a as [|x a IH]; simpl; [reflexivity|].
  unfold Ascii.compare. now rewrite N.compare_refl.
Qed.

Lemma insert_sorted_In (s x : string) (l : list string) :
  In x (insert_sorted s l) <-> x = s \/ In x l.
Proof.
  induction l as [|y l IH]; simpl; [intuition congruence|].
  destruct (String.compare s y) eqn:Hc; simpl.
  - apply String.compare_eq_iff in Hc. subst. intuition congruence.
  - intuition congruence.
  - rewrite IH. intuition congruence.
Qed.

Lemma insert_sorted_increasing (s : string) (l : list string) :
  increasing l -> increasing (insert_sorted s l).
Proof.
  induction l as [|y l IH]; simpl; [auto|].
  intros Hinc. destruct (String.compare s y) eqn:Hc.
  - exact Hinc.
  - split; [exact Hc | exact Hinc].
  - assert (Hys : String.compare y s = Lt)
      by (rewrite String.compare_antisym, Hc; reflexivity).
    destruct l as [|z l]; simpl in *; [auto|].
    destruct Hinc as [Hyz Hinc]. specialize (IH Hinc).
    destruct (String.compare s z); simpl in *; auto.
Qed.

Lemma increasing_lower_bound (x : string) (l : list string) :
  increasing (x :: l) -> Forall (fun y => String.compare x y = Lt) l.
Proof.
  revert x. induction l as [|y l IH]; intros x; [constructor|].
  intros [Hxy Hinc]. constructor; [exact Hxy|].
  eapply Forall_impl; [apply IH; exact Hinc|].
  simpl. intros z Hyz. eapply string_compare_lt_trans; eauto.
Qed.

Lemma increasing_NoDup (l : list string) : increasing l -> List.NoDup l.
Proof.
  induction l as [|x l IH]; intros Hinc; [constructor|].
  pose proof (increasing_lower_bound x l Hinc) as Hlow.
  constructor.
  - intros Hin. rewrite List.Forall_forall in Hlow. specialize (Hlow x Hin).
    rewrite string_compare_refl in Hlow. discriminate.
  - apply IH. destruct l; [exact I | exact (proj2 Hinc)].
Qed.

Lemma sorted_set_spec (l : list string) :
  increasing (sorted_set l) /\ forall x, In x (sorted_set l) <-> In x l.
Proof.
  induction l as [|s l [IH1 IH2]]; simpl; [tauto|]. split.
  - now apply insert_sorted_increasing.
  - intros x. rewrite insert_sorted_In, IH2. split; intros [H|H]; auto.
Qed.

(** X14. The summary of a response is NXDOMAIN for that response code,
    whatever its sections hold; otherwise ANSWER when there is an answer;
    otherwise, when the authority section is not empty, REFERRAL followed
    by the texts of all authority items, each once, in strictly increasing
    order, joined by commas; otherwise the text of the response code. *)
Theorem summarize_spec env (m : Message) :
  (msg_rcode m = rcode.NXDOMAIN -> _summarize env m = "NXDOMAIN")
  /\ (msg_rcode m <> rcode.NXDOMAIN -> answer m <> [] ->
      _summarize env m = "ANSWER")
  /\ (msg_rcode m <> rcode.NXDOMAIN -> answer m = [] -> authority m = [] ->
      _summarize env m = rcode_to_text env (msg_rcode m))
  /\ (msg_rcode m <> rcode.NXDOMAIN -> answer m = [] -> authority m <> [] ->
      exists names,
        increasing names /\ List.NoDup names
        /\ (forall x, In x names <->
                      exists rrset rr,
                        In rrset (authority m) /\ In rr (items rrset)
                        /\ x = rdata_to_text rr)
        /\ _summarize env m
           = if String.eqb (String.concat "," names) EmptyString
             then "REFERRAL"
             else ("REFERRAL " ++ String.concat "," names)%string).
Proof.
  unfold _summarize. split_and!.
  - intros ->. reflexivity.
  - intros Hrc Hans. apply Z.eqb_neq in Hrc. rewrite Hrc.
    now destruct (answer m).
  - intros Hrc -> ->. apply Z.eqb_neq in Hrc. now rewrite Hrc.
  - intros Hrc -> Hauth. apply Z.eqb_neq in Hrc. rewrite Hrc. simpl.
    destruct (authority m) as [|r0 auth] eqn:Ha; [contradiction|].
    cbn [nonempty]. rewrite <- Ha.
    set (texts := flat_map (fun rrset => map rdata_to_text (items rrset))
                           (authority m)).
    destruct (sorted_set_spec texts) as [Hinc Hmem].
    exists (sorted_set texts). split_and!; auto.
    + now apply increasing_NoDup.
    + intros x. rewrite Hmem. unfold texts. rewrite in_flat_map. split.
      * intros (rrset & Hin & Hx). apply in_map_iff in Hx as (rr & <- & Hrr).
        eauto.
      * intros (rrset & rr & Hin & Hrr & ->). exists rrset.
        split; [exact Hin | now apply in_map].
Qed.

Lemma ns_targets_spec (rrs : list Rdata) :
  match ns_targets rrs with
  | inr ts => rrs = map RdNS ts
  | inl e => e = AttributeError /\ exists rr, In rr rrs /\ rdata_target rr = None
  end.
Proof.
  induction rrs as [|rr rrs IH]; simpl; [reflexivity|].
  destruct (rdata_target rr) as [t|] eqn:Ht.
  - destruct rr; try discriminate. inversion Ht; subst.
    destruct (ns_targets rrs) as [e|ts].
    + destruct IH as [-> (rr' & Hin & Hrr')]. split; [reflexivity|]. eauto.
    + simpl. now rewrite <- IH.
  - split; [reflexivity|]. eauto.
Qed.

(** X15. The NS names of a response are the targets of the items of its
    authority rrsets of type NS, in the order of the rrsets and of the
    items within each; rrsets of another type are passed over. The
    extraction fails, with an attribute error, exactly when an item of an
    rrset of type NS has no target: it returns names exactly when every
    such item has one, and the names are then the list of all these
    targets. *)
Theorem extract_ns_names_spec (m : Message) :
  match _extract_ns_names m with
  | inr names =>
      map Some names
      = flat_map (fun rrset => map rdata_target (items rrset))
                 (List.filter (fun rrset => rdtype rrset =? rdatatype.NS)
                              (authority m))
  | inl e =>
      e = AttributeError
      /\ In None
            (flat_map (fun rrset => map rdata_target (items rrset))
                      (List.filter (fun rrset => rdtype rrset =? rdatatype.NS)
                                   (authority m)))
  end
  /\ (In None
         (flat_map (fun rrset => map rdata_target (items rrset))
                   (List.filter (fun rrset => rdtype rrset =? rdatatype.NS)
                                (authority m)))
      <-> exists rrset rr,
            In rrset (authority m) /\ rdtype rrset = rdatatype.NS
            /\ In rr (items rrset) /\ rdata_target rr = None).
Proof.
  split.
  - unfold _extract_ns_names. induction (authority m) as [|rrset auth IH]; simpl.
    + reflexivity.
    + destruct (rdtype rrset =? rdatatype.NS) eqn:Ht; simpl; [|exact IH].
      pose proof (ns_targets_spec (items rrset)) as Hts.
      destruct (ns_targets (items rrset)) as [e|ts].
      { destruct Hts as [-> (rr & Hin & Hrr)]. split; [reflexivity|].
        apply in_or_app. left. rewrite <- Hrr. now apply in_map. }
      destruct (ns_names_of auth) as [e|names].
      { destruct IH as [-> Hin]. split; [reflexivity|].
        apply in_or_app. now right. }
      rewrite map_app, IH, Hts, map_map. reflexivity.
  - rewrite in_flat_map. split.
    + intros (rrset & Hin & Hnone). apply filter_In in Hin as [Hin Hty].
      apply Z.eqb_eq in Hty. apply in_map_iff in Hnone as (rr & Hrr & Hitem).
      exists rrset, rr. auto.
    + intros (rrset & rr & Hin & Hty & Hitem & Hrr). exists rrset. split.
      * apply filter_In. split; [exact Hin|]. now apply Z.eqb_eq.
      * rewrite <- Hrr. now apply in_map.
Qed.

(** ** The request handler *)

Lemma rebuilt_event (hit : bool) (ev : TraceEvent) :
  cache_status ev = (if hit then "HIT" else "MISS") ->
  mkTraceEvent (server ev) (step ev) (response ev) (rtt ev) (total_time ev)
               (if hit then "HIT" else cache_status ev) (event_time ev)
  = ev.
Proof. destruct ev, hit; simpl; intros ->; reflexivity. Qed.

(** The loop over the trace writes the rows of the events in order, each
    at its own interaction, and stops at the first write that raises. *)
Lemma log_events_spec host qname mode (hit : bool) rid (tr : list TraceEvent)
    (written : list LogRow) (w : World) :
  Forall (fun e => cache_status e = if hit then "HIT" else "MISS") tr ->
  exists rows failed w',
    log_events host qname mode hit rid tr written w
    = Ret (written ++ rows, failed) w'
    /\ cache w' = cache w /\ contacted w' = contacted w
    /\ (forall k row, rows !! k = Some row ->
                      writerow host (tick w + k)%nat row = None)
    /\ match failed with
       | None =>
           rows = map (fun ev => log_row host qname mode ev rid) tr
           /\ tick w' = (tick w + length tr)%nat
       | Some e =>
           exists row rest,
             map (fun ev => log_row host qname mode ev rid) tr
             = rows ++ row :: rest
             /\ writerow host (tick w + length rows)%nat row = Some e
       end.
Proof.
  intros Hcs. revert written w.
  induction Hcs as [|ev tr Hev _ IH]; intros written w.
  - exists [], None, w. simpl. rewrite app_nil_r, Nat.add_0_r.
    split; [reflexivity|]. split; [reflexivity|]. split; [reflexivity|].
    split; [intros k row Hk; discriminate Hk|]. auto.
  - cbn [log_events]. rewrite (rebuilt_event hit ev Hev).
    unfold log_event. cbn [bind ask]. cbn [tick bump].
    destruct (writerow host (tick w) (log_row host qname mode ev rid))
      as [e|] eqn:Hwrite.
    + cbn [raise]. exists [], (Some e). eexists. rewrite app_nil_r.
      split; [reflexivity|]. split; [reflexivity|]. split; [reflexivity|].
      split; [intros k row Hk; discriminate Hk|].
      exists (log_row host qname mode ev rid),
             (map (fun ev => log_row host qname mode ev rid) tr).
      simpl. rewrite Nat.add_0_r. auto.
    + cbn [ret].
      destruct (IH (written ++ [log_row host qname mode ev rid]) (bump w))
        as (rows & failed & w' & Hrun & Hc & Hn & Hok & Hend).
      exists (log_row host qname mode ev rid :: rows), failed, w'.
      split; [rewrite Hrun, <- app_assoc; reflexivity|].
      split; [exact Hc|]. split; [exact Hn|]. split.
      * intros [|k] row Hk; simpl in Hk.
        -- inversion Hk; subst. now rewrite Nat.add_0_r.
        -- apply Hok in Hk. simpl in Hk.
           now replace (tick w + S k)%nat with (S (tick w + k)) by lia.
      * destruct failed as [e|].
        -- destruct Hend as (row & rest & Hall & He).
           exists row, rest. simpl. rewrite Hall. split; [reflexivity|].
           simpl in He.
           now replace (tick w + S (length rows))%nat
             with (S (tick w + length rows)) by lia.
        -- destruct Hend as [-> Ht]. split; [reflexivity|].
           rewrite Ht. simpl. lia.
Qed.

(** X16. For a datagram that decodes to a request with a question, once
    the resolution of its first question returns: if [make_response]
    raises, the exception leaves the handler and nothing is logged or
    sent. Otherwise the handler writes the rows of the trace events in
    order, one write per interaction, all with the same request
    identifier and with the mode recursive exactly when the request has
    the RD flag or the server forces recursion; the rows are those of the
    events as the resolution returned them (overriding the cache status
    on a hit changes nothing). The first write that raises ends the
    handler: the rows before it stay written and nothing is sent. When
    every write succeeds, all rows are written and the response is handed
    to the socket; it carries the records and the response code of the
    resolution, and has the RA flag whenever recursion was requested. The
    handler itself leaves the cache and the list of contacted servers
    alone. *)
Theorem handle_request_logs_trace env host srv rdef fuel (data : list byte)
    (request : Request) (question : Question) (others : list Question)
    (w w1 : World) a rc tr hit :
  from_wire host data = Some request ->
  req_question request = question :: others ->
  resolve env srv fuel (q_name question) (q_rdtype question)
          (req_rd request || rdef) w = Ret (a, rc, tr, hit) w1 ->
  match make_response host request with
  | inl e => _handle_request env host srv rdef fuel data w = Exc e w1
  | inr made =>
      let all_rows :=
        map (fun ev =>
               log_row host (q_name question)
                       (if req_rd request || rdef
                        then "recursive" else "iterative")
                       ev (uuid4 host (tick w1)))
            tr in
      let reply :=
        mkResponse (resp_id made) (resp_rd made)
                   (if req_rd request || rdef then true else resp_ra made)
                   (resp_question made) (resp_answer made ++ a) rc in
      exists rows d w',
        _handle_request env host srv rdef fuel data w = Ret (rows, d) w'
        /\ cache w' = cache w1 /\ contacted w' = contacted w1
        /\ (forall k row, rows !! k = Some row ->
              writerow host (S (tick w1) + k)%nat row = None)
        /\ match d with
           | LogRaised e =>
               exists row rest,
                 all_rows = rows ++ row :: rest
                 /\ writerow host (S (tick w1) + length rows)%nat row = Some e
           | Sent r =>
               rows = all_rows /\ r = reply
               /\ sendto host (S (tick w1) + length tr)%nat reply = None
           | SendFailed r =>
               rows = all_rows /\ r = reply
               /\ sendto host (S (tick w1) + length tr)%nat reply = Some OSError
           | SendRaised e r =>
               rows = all_rows /\ r = reply /\ e <> OSError
               /\ sendto host (S (tick w1) + length tr)%nat reply = Some e
           | NoReply => False
           end
        /\ ((forall t row, writerow host t row = None) ->
            rows = all_rows /\ forall e, d <> LogRaised e)
        /\ resp_rcode reply = rc
        /\ (req_rd request || rdef = true -> resp_ra reply = true)
  end.
Proof.
  intros Hwire Hq Hres.
  pose proof (resolve_shape_facts _ _ _ _ _ _ _ _ _ _ _ _ Hres) as (_ & Hcs & _).
  unfold _handle_request. rewrite Hwire, Hq.
  rewrite (bind_ret_eq _ _ _ _ _ Hres).
  destruct (make_response host request) as [e|made]; [reflexivity|].
  cbv zeta. cbn [bind ask]. cbn [tick bump].
  set (mode := if req_rd request || rdef then "recursive" else "iterative").
  set (reply := mkResponse _ _ _ _ _ _).
  destruct (log_events_spec host (q_name question) mode hit
              (uuid4 host (tick w1)) tr [] (bump w1) Hcs)
    as (rows & failed & w2 & Hrun & Hc & Hn & Hok & Hend).
  simpl in Hrun, Hc, Hn, Hok, Hend.
  unfold bind at 1. rewrite Hrun.
  assert (Hra : req_rd request || rdef = true -> resp_ra reply = true)
    by (intros Hrd; subst reply; simpl; now rewrite Hrd).
  destruct failed as [e|].
  - cbn [ret]. exists rows, (LogRaised e), w2.
    split; [reflexivity|]. split; [exact Hc|]. split; [exact Hn|].
    split; [exact Hok|]. split; [exact Hend|]. split.
    + intros Hall. destruct Hend as (row & rest & _ & He).
      rewrite Hall in He. discriminate He.
    + split; [reflexivity|exact Hra].
  - destruct Hend as [Hrows Ht]. cbn [bind ask]. rewrite Ht.
    destruct (sendto host (S (tick w1 + length tr)) reply) as [e|] eqn:Hsend.
    + destruct e; cbn [ret];
        (eexists rows, _, _; split; [reflexivity|]; split; [exact Hc|];
         split; [exact Hn|]; split; [exact Hok|];
         split; [first [ split; [exact Hrows|]; split; [reflexivity|];
                         split; [discriminate|]; exact Hsend
                       | split; [exact Hrows|]; split; [reflexivity|];
                         exact Hsend ]|];
         split; [intros _; split; [exact Hrows|discriminate]|];
         split; [reflexivity|exact Hra]).
    + cbn [ret]. eexists rows, _, _. split; [reflexivity|].
      split; [exact Hc|]. split; [exact Hn|]. split; [exact Hok|].
      split; [split; [exact Hrows|]; split; [reflexivity|exact Hsend]|].
      split; [intros _; split; [exact Hrows|discriminate]|].
      split; [reflexivity|exact Hra].
Qed.

(** X17. A datagram that does not decode, or that decodes to a message
    without question, is passed over: nothing is resolved, logged or
    sent and the world is as before. An exception that escapes the
    resolution escapes the handler as well, before anything is logged or
    sent. *)
Theorem handle_request_silent env host srv rdef fuel (data : list byte)
    (w : World) :
  (from_wire host data = None
   \/ (exists request, from_wire host data = Some request
                       /\ req_question request = []) ->
   _handle_request env host srv rdef fuel data w = Ret ([], NoReply) w)
  /\ (forall request question others e w1,
        from_wire host data = Some request ->
        req_question request = question :: others ->
        resolve env srv fuel (q_name question) (q_rdtype question)
                (req_rd request || rdef) w = Exc e w1 ->
        _handle_request env host srv rdef fuel data w = Exc e w1).
Proof.
  split.
  - intros [Hnone|(request & Hsome & Hq)]; unfold _handle_request.
    + now rewrite Hnone.
    + now rewrite Hsome, Hq.
  - intros request question others e w1 Hwire Hq Hres.
    unfold _handle_request. rewrite Hwire, Hq. unfold bind at 1.
    now rewrite Hres.
Qed.

(** * The listener of [custom_dns_resolver.py] *)

Module LegacyQueryFacts.
Import Legacy.
Local Open Scope nat_scope.

Lemma split_dot_nonempty (s : string) : split_dot s <> [].
Proof.
  induction s as [|c s IH]; simpl; [discriminate|].
  destruct (Ascii.eqb c "."); [discriminate|].
  destruct (split_dot s); discriminate.
Qed.

Lemma concat_cons_char (c : ascii) (x : string) (xs : list string) :
  String.concat "." (String c x :: xs) = String c (String.concat "." (x :: xs)).
Proof. destruct xs; reflexivity. Qed.

Lemma concat_split_dot (s : string) : String.concat "." (split_dot s) = s.
Proof.
  induction s as [|c s IH]; [reflexivity|]. cbn [split_dot].
  pose proof (split_dot_nonempty s) as Hne.
  destruct (Ascii.eqb_spec c ".") as [->|Hc].
  - destruct (split_dot s) as [|x xs] eqn:Hs; [contradiction|].
    change (String.concat "." (EmptyString :: x :: xs))
      with (String "." (String.concat "." (x :: xs))).
    now rewrite IH.
  - destruct (split_dot s) as [|x xs] eqn:Hs; [contradiction|].
    now rewrite concat_cons_char, IH.
Qed.

Lemma split_dot_lengths (s : string) :
  list_sum (map (fun x => S (String.length x)) (split_dot s)) = S (String.length s).
Proof.
  induction s as [|c s IH]; [reflexivity|]. cbn [split_dot].
  destruct (Ascii.eqb c ".").
  - simpl. now rewrite IH.
  - pose proof (split_dot_nonempty s) as Hne.
    destruct (split_dot s) as [|x xs]; [contradiction|].
    simpl in *. lia.
Qed.

Section WithCodec.
Variable encode : string -> list byte.
Variable decode : list byte -> option string.
Variable int : string -> option Z.
Variable decode_ignore : list byte -> string.

Lemma qname_labels_length (labels : list string) (bs : list byte) :
  qname_labels encode labels = Some bs ->
  (forall x, In x labels -> length (encode x) = String.length x) ->
  length bs = list_sum (map (fun x => S (String.length x)) labels).
Proof.
  revert bs. induction labels as [|x rest IH]; intros bs H Hlen; simpl in H.
  - now inversion H.
  - unfold label_bytes in H.
    destruct (of_nat (String.length x)) as [b|]; [|discriminate].
    destruct (qname_labels encode rest) as [bs'|]; [|discriminate].
    inversion H; subst. simpl. rewrite length_app, (IH bs' eq_refl).
    + rewrite Hlen; [lia | now left].
    + intros y Hy. apply Hlen. now right.
Qed.

Lemma qname_labels_none (labels : list string) :
  qname_labels encode labels = None
  <-> exists x, In x labels /\ 255 < String.length x.
Proof.
  induction labels as [|x rest IH]; simpl.
  - split; [discriminate | intros (? & [] & _)].
  - unfold label_bytes.
    destruct (of_nat (String.length x)) as [b|] eqn:Hb.
    + assert (Hx : ~ 255 < String.length x).
      { intros Hgt. apply of_nat_None_iff in Hgt. congruence. }
      destruct (qname_labels encode rest) as [bs|].
      * split; [discriminate|]. intros (y & [<-|Hy] & Hgt); [contradiction|].
        assert (Hn : Some bs = None) by (apply IH; exists y; auto).
        discriminate Hn.
      * split; [|reflexivity]. intros _.
        destruct (proj1 IH eq_refl) as (y & Hy & Hgt). exists y. auto.
    + apply of_nat_None_iff in Hb. split; [|reflexivity]. intros _.
      exists x. auto.
Qed.

(** Walking over an encoded name that sits in a datagram after [pre]. *)
Lemma skip_labels_qname (labels : list string) (bs pre post : list byte)
    (fuel : nat) :
  qname_labels encode labels = Some bs ->
  (forall x, In x labels ->
     x <> EmptyString /\ length (encode x) = String.length x) ->
  length labels < fuel ->
  skip_labels fuel (pre ++ bs ++ x00 :: post) (length pre)
  = inr (length pre + length bs).
Proof.
  revert bs pre fuel. induction labels as [|x rest IH]; intros bs pre fuel H Hok Hf.
  - simpl in H. inversion H; subst. destruct fuel as [|fuel]; [lia|].
    simpl. rewrite list_lookup_middle by reflexivity. simpl.
    now rewrite Nat.add_0_r.
  - simpl in H. unfold label_bytes in H.
    destruct (of_nat (String.length x)) as [b|] eqn:Hb; [|discriminate].
    destruct (qname_labels encode rest) as [bs'|] eqn:Hrest; [|discriminate].
    inversion H; subst; clear H.
    destruct (Hok x (or_introl eq_refl)) as (Hne & Hlen).
    apply to_of_nat in Hb.
    destruct fuel as [|fuel]; [simpl in Hf; lia|]. cbn [skip_labels].
    cbn [app]. rewrite <- ?app_assoc. cbn [app]. rewrite <- ?app_assoc.
    rewrite list_lookup_middle by reflexivity.
    assert (Hnz : (to_nat b =? 0) = false).
    { apply Nat.eqb_neq. rewrite Hb. destruct x; [contradiction | simpl; lia]. }
    rewrite Hnz.
    replace (pre ++ b :: encode x ++ bs' ++ x00 :: post)
      with ((pre ++ b :: encode x) ++ bs' ++ x00 :: post)
      by (now rewrite <- app_assoc).
    replace (length pre + to_nat b + 1) with (length (pre ++ b :: encode x))
      by (rewrite length_app; simpl; lia).
    rewrite (IH bs' (pre ++ b :: encode x) fuel eq_refl).
    + rewrite !length_app. simpl. rewrite length_app. f_equal. lia.
    + intros y Hy. apply Hok. now right.
    + simpl in Hf. lia.
Qed.

Lemma slice_middle (pre mid post : list byte) (n : nat) :
  n = length mid ->
  slice (pre ++ mid ++ post) (length pre) (length pre + n) = mid.
Proof.
  intros ->. unfold slice. rewrite drop_app_length.
  replace (length pre + length mid - length pre) with (length mid) by lia.
  apply take_app_length.
Qed.

Lemma question_parts_qname (labels : list string) (bs pre post : list byte)
    (fuel : nat) (parts : list string) :
  qname_labels encode labels = Some bs ->
  (forall x, In x labels -> sound_label encode decode x) ->
  length labels < fuel ->
  question_parts decode fuel (pre ++ bs ++ x00 :: post) (length pre) parts
  = PartsDone (parts ++ labels).
Proof.
  revert bs pre fuel parts.
  induction labels as [|x rest IH]; intros bs pre fuel parts H Hok Hf.
  - simpl in H. inversion H; subst. destruct fuel as [|fuel]; [lia|].
    simpl. rewrite list_lookup_middle by reflexivity. simpl.
    now rewrite app_nil_r.
  - simpl in H. unfold label_bytes in H.
    destruct (of_nat (String.length x)) as [b|] eqn:Hb; [|discriminate].
    destruct (qname_labels encode rest) as [bs'|] eqn:Hrest; [|discriminate].
    inversion H; subst; clear H.
    destruct (Hok x (or_introl eq_refl)) as (Hne & Hlen & Hdec).
    apply to_of_nat in Hb.
    destruct fuel as [|fuel]; [simpl in Hf; lia|]. cbn [question_parts].
    cbn [app]. rewrite <- ?app_assoc. cbn [app]. rewrite <- ?app_assoc.
    rewrite list_lookup_middle by reflexivity.
    assert (Hnz : (to_nat b =? 0) = false).
    { apply Nat.eqb_neq. rewrite Hb. destruct x; [contradiction | simpl; lia]. }
    rewrite Hnz. cbv zeta.
    assert (Hslice : slice (pre ++ b :: encode x ++ bs' ++ x00 :: post)
                           (length pre + 1) (length pre + 1 + to_nat b)
                     = encode x).
    { replace (pre ++ b :: encode x ++ bs' ++ x00 :: post)
        with ((pre ++ [b]) ++ encode x ++ (bs' ++ x00 :: post))
        by (now rewrite <- app_assoc).
      replace (length pre + 1) with (length (pre ++ [b]))
        by (rewrite length_app; reflexivity).
      apply slice_middle. lia. }
    rewrite Hslice, Hdec.
    replace (pre ++ b :: encode x ++ bs' ++ x00 :: post)
      with ((pre ++ b :: encode x) ++ bs' ++ x00 :: post)
      by (now rewrite <- app_assoc).
    replace (length pre + to_nat b + 1) with (length (pre ++ b :: encode x))
      by (rewrite length_app; simpl; lia).
    rewrite (IH bs' (pre ++ b :: encode x) fuel (parts ++ [x]) eq_refl).
    + now rewrite <- app_assoc.
    + intros y Hy. apply Hok. now right.
    + simpl in Hf. lia.
Qed.

Lemma qname_labels_count (labels : list string) (bs : list byte) :
  qname_labels encode labels = Some bs -> length labels <= length bs.
Proof.
  revert bs. induction labels as [|x rest IH]; intros bs H; simpl in H.
  - inversion H. simpl. lia.
  - unfold label_bytes in H.
    destruct (of_nat (String.length x)) as [b|]; [|discriminate].
    destruct (qname_labels encode rest) as [bs'|]; [|discriminate].
    inversion H; subst. specialize (IH bs' eq_refl).
    simpl. rewrite length_app. lia.
Qed.

Lemma pack_H_spec (n : nat) :
  match pack_H n with
  | Some bs => exists hi lo, bs = [hi; lo] /\ n < 256 * 256
  | None => 256 * 256 <= n
  end.
Proof.
  unfold pack_H.
  destruct (of_nat (n / 256)) as [hi|] eqn:Hhi.
  - destruct (of_nat (n mod 256)) as [lo|] eqn:Hlo.
    + exists hi, lo. split; [reflexivity|].
      apply to_of_nat in Hhi. pose proof (to_nat_bounded hi) as Hb.
      rewrite Hhi in Hb. pose proof (Nat.div_mod_eq n 256).
      pose proof (Nat.mod_upper_bound n 256). lia.
    + apply of_nat_None_iff in Hlo.
      pose proof (Nat.mod_upper_bound n 256). lia.
  - apply of_nat_None_iff in Hhi. pose proof (Nat.div_mod_eq n 256). lia.
Qed.
End WithCodec.
End LegacyQueryFacts.

(** X18. The listener reads back the name a query was built for. For a
    domain whose labels are not empty and are ASCII text (as many bytes
    as characters, decoding back to themselves), the parsing of the
    question done by the listener, applied to the packet [build_query]
    returns for that domain, yields the domain itself. *)
Theorem query_domain_roundtrip (encode : string -> list byte)
    (decode : list byte -> option string) (tid : nat) (domain : string)
    (t : nat) (packet : list byte) :
  Legacy.build_query encode tid domain = Some (t, packet) ->
  (forall x, In x (Legacy.split_dot domain) -> Legacy.sound_label encode decode x) ->
  Legacy.parse_domain decode packet = Some domain.
Proof.
  intros Hbuild Hok. unfold Legacy.build_query in Hbuild.
  pose proof (LegacyQueryFacts.pack_H_spec tid) as Hpack.
  destruct (Legacy.pack_H tid) as [tb|]; [|discriminate].
  destruct Hpack as (hi & lo & -> & _).
  destruct (Legacy.qname_labels encode (Legacy.split_dot domain)) as [bs|] eqn:Hq;
    [|discriminate].
  injection Hbuild as Ht Hp. subst t.
  set (pre := [hi; lo; x01; x00; x00; x01; x00; x00; x00; x00; x00; x00]).
  assert (Hpacket : packet = pre ++ bs ++ x00 :: [x00; x01; x00; x01]).
  { rewrite <- Hp. subst pre. cbn [app]. now rewrite <- app_assoc. }
  rewrite Hpacket. unfold Legacy.parse_domain.
  change 12%nat with (length pre) at 1.
  rewrite (LegacyQueryFacts.question_parts_qname encode decode _ bs pre _ _ [] Hq Hok).
  - cbn [app]. rewrite LegacyQueryFacts.concat_split_dot.
    destruct domain as [|c d]; [|reflexivity].
    exfalso. destruct (Hok EmptyString) as (Hne & _); [now left | now apply Hne].
  - pose proof (LegacyQueryFacts.qname_labels_count encode _ _ Hq) as Hcount.
    rewrite !length_app. simpl. lia.
Qed.

(** X19. Building a query fails exactly when the transaction id does not
    fit 16 bits ([struct.pack] raising; the source draws the id with
    [random.randint(0, 65535)], always in range) or a label of the domain
    is longer than 255 characters.
    Otherwise, for ASCII labels, the packet has 18 bytes more than the
    domain has characters and announces no record, so that the decoder
    of responses returns two empty lists for it. *)
Theorem build_query_shape (encode : string -> list byte)
    (decode_ignore : list byte -> string) (tid : nat) (domain : string) :
  (forall x, In x (Legacy.split_dot domain) ->
             length (encode x) = String.length x) ->
  match Legacy.build_query encode tid domain with
  | Some (t, packet) =>
      t = tid /\ (tid < 256 * 256)%nat
      /\ (forall x, In x (Legacy.split_dot domain) -> (String.length x <= 255)%nat)
      /\ length packet = (String.length domain + 18)%nat
      /\ Legacy.announced packet = 0%nat
      /\ Legacy.parse_response decode_ignore packet = ([], [])
  | None =>
      (256 * 256 <= tid)%nat
      \/ exists x, In x (Legacy.split_dot domain) /\ (255 < String.length x)%nat
  end.
Proof.
  intros Hlen. unfold Legacy.build_query.
  pose proof (LegacyQueryFacts.pack_H_spec tid) as Hpack.
  destruct (Legacy.pack_H tid) as [tb|]; [|now left].
  destruct Hpack as (hi & lo & -> & Htid).
  destruct (Legacy.qname_labels encode (Legacy.split_dot domain)) as [bs|] eqn:Hq.
  - split; [reflexivity|]. split; [exact Htid|]. split.
    { intros x Hx. destruct (Nat.le_gt_cases (String.length x) 255) as [H|H]; [exact H|].
      assert (Hnone : Legacy.qname_labels encode (Legacy.split_dot domain) = None)
        by (apply LegacyQueryFacts.qname_labels_none; eauto).
      congruence. }
    split.
    { pose proof (LegacyQueryFacts.qname_labels_length encode _ _ Hq Hlen) as Hb.
      rewrite LegacyQueryFacts.split_dot_lengths in Hb.
      rewrite !length_app. simpl. lia. }
    split; reflexivity.
  - right. now apply (LegacyQueryFacts.qname_labels_none encode).
Qed.

Section LegacyReply.
Local Open Scope nat_scope.

(** X20. The reply of the listener decodes to the address it carries.
    When the datagram received is a query built by [build_query] for a
    domain with non-empty ASCII labels and the address resolved splits
    into four integers that fit a byte, the listener builds a reply; the
    reply is 16 bytes longer than the query, starts with the two bytes of
    the query's transaction id, and [parse_response] reads from it
    exactly one address - the four bytes as a dotted quad - and no name
    server. *)
Theorem reply_decodes_to_address (encode : string -> list byte)
    (int : string -> option Z) (decode_ignore : list byte -> string)
    (tid : nat) (domain : string) (t : nat) (packet : list byte)
    (ip : string) (o1 o2 o3 o4 : byte) :
  Legacy.build_query encode tid domain = Some (t, packet) ->
  (forall x, In x (Legacy.split_dot domain) ->
     x <> EmptyString /\ length (encode x) = String.length x) ->
  Legacy.octets_of int (Legacy.split_dot ip) = Some [o1; o2; o3; o4] ->
  exists reply,
    Legacy.build_reply int packet ip = Some reply
    /\ length reply = (length packet + 16)%nat
    /\ take 2 reply = take 2 packet
    /\ Legacy.parse_response decode_ignore reply
       = ([String.concat "." (map Legacy.str (map to_nat [o1; o2; o3; o4]))], []).
Proof.
  intros Hbuild Hok Hoct. unfold Legacy.build_query in Hbuild.
  pose proof (LegacyQueryFacts.pack_H_spec tid) as Hpack.
  destruct (Legacy.pack_H tid) as [tb|]; [|discriminate].
  destruct Hpack as (hi & lo & -> & _).
  destruct (Legacy.qname_labels encode (Legacy.split_dot domain)) as [bs|] eqn:Hq;
    [|discriminate].
  injection Hbuild as Ht Hp. subst t.
  set (pre := [hi; lo; x01; x00; x00; x01; x00; x00; x00; x00; x00; x00]).
  assert (Hpacket : packet = pre ++ bs ++ x00 :: [x00; x01; x00; x01]).
  { rewrite <- Hp. subst pre. cbn [app]. now rewrite <- app_assoc. }
  pose proof (LegacyQueryFacts.qname_labels_count encode _ _ Hq) as Hcount.
  assert (Hskip : Legacy.skip_labels (S (length packet)) packet 12
                  = inr (12 + length bs)).
  { rewrite Hpacket.
    apply (LegacyQueryFacts.skip_labels_qname encode _ _ pre _ _ Hq Hok).
    rewrite !length_app. simpl. lia. }
  unfold Legacy.build_reply. rewrite Hskip, Hoct.
  eexists. split; [reflexivity|].
  assert (Hquestion : Legacy.slice packet 12 (12 + length bs + 5)
                      = bs ++ [x00; x00; x01; x00; x01]).
  { rewrite Hpacket.
    replace (pre ++ bs ++ x00 :: [x00; x01; x00; x01])
      with (pre ++ (bs ++ [x00; x00; x01; x00; x01]) ++ []).
    - replace (12 + length bs + 5) with (length pre + (length bs + 5)) by (simpl; lia).
      apply LegacyQueryFacts.slice_middle. rewrite length_app. simpl. lia.
    - rewrite app_nil_r. reflexivity. }
  rewrite Hquestion.
  assert (Htid : Legacy.slice packet 0 2 = [hi; lo]).
  { rewrite Hpacket. reflexivity. }
  rewrite Htid.
  split.
  { rewrite Hpacket. unfold Legacy.answer_record. repeat (rewrite ?length_app; simpl). lia. }
  split.
  { rewrite Hpacket. reflexivity. }
  set (hdr := [hi; lo; x81; x80; x00; x01; x00; x01; x00; x00; x00; x00]).
  set (owner := [xc0; x0c]).
  set (fixed := [x00; x01; x00; x01; x00; x00; x00; x3c; x00; x04]).
  set (qn := hdr ++ bs ++ [x00; x00; x01; x00; x01]).
  assert (Hqn : length qn = 12 + length bs + 5).
  { subst qn hdr. rewrite !length_app. simpl. lia. }
  match goal with |- Legacy.parse_response _ ?r = _ => set (reply := r) end.
  assert (Hr1 : reply = hdr ++ bs ++ x00 :: [x00; x01; x00; x01]
                         ++ Legacy.answer_record [o1; o2; o3; o4]).
  { subst reply hdr. cbn [app]. now rewrite <- app_assoc. }
  assert (Hr2 : reply = qn ++ owner ++ fixed ++ [o1; o2; o3; o4]).
  { subst reply qn hdr owner fixed. unfold Legacy.answer_record.
    cbn [app]. now rewrite <- app_assoc. }
  assert (Hlen : length (Legacy.split_dot domain) < S (length reply)).
  { rewrite Hr1, !length_app. lia. }
  assert (Hsk : Legacy.skip_labels (S (length reply)) reply 12
                = inr (12 + length bs)).
  { rewrite Hr1 at 2.
    apply (LegacyQueryFacts.skip_labels_qname encode _ _ hdr _ _ Hq Hok Hlen). }
  assert (Hown : Legacy.skip_owner reply (12 + length bs + 5)
                 = inr (12 + length bs + 5 + 2)).
  { assert (Hat : reply !! (12 + length bs + 5) = Some xc0).
    { rewrite Hr2, <- Hqn. subst owner. cbn [app].
      now apply list_lookup_middle. }
    unfold Legacy.skip_owner. rewrite Hat. reflexivity. }
  assert (Hfixed : Legacy.slice reply (12 + length bs + 5 + 2)
                                (12 + length bs + 5 + 2 + 10) = fixed).
  { rewrite Hr2, <- Hqn.
    replace (qn ++ owner ++ fixed ++ [o1; o2; o3; o4])
      with ((qn ++ owner) ++ fixed ++ [o1; o2; o3; o4]) by now rewrite <- app_assoc.
    replace (length qn + 2) with (length (qn ++ owner))
      by (rewrite length_app; reflexivity).
    now apply LegacyQueryFacts.slice_middle. }
  assert (Hrdata : Legacy.slice reply (12 + length bs + 5 + 2 + 10)
                                (12 + length bs + 5 + 2 + 10 + 4)
                   = [o1; o2; o3; o4]).
  { rewrite Hr2, <- Hqn.
    replace (qn ++ owner ++ fixed ++ [o1; o2; o3; o4])
      with ((qn ++ owner ++ fixed) ++ [o1; o2; o3; o4] ++ [])
      by now rewrite app_nil_r, <- !app_assoc.
    replace (length qn + 2 + 10) with (length (qn ++ owner ++ fixed))
      by (rewrite !length_app; simpl; lia).
    now apply LegacyQueryFacts.slice_middle. }
  assert (H68 : Legacy.slice reply 6 8 = [x00; x01]) by (now rewrite Hr1).
  assert (H810 : Legacy.slice reply 8 10 = [x00; x00]) by (now rewrite Hr1).
  assert (H1012 : Legacy.slice reply 10 12 = [x00; x00]) by (now rewrite Hr1).
  unfold Legacy.parse_response, Legacy.parse_body.
  rewrite H68, H810, H1012. cbn [Legacy.unpack_H].
  change (256 * to_nat x00 + to_nat x01 + (256 * to_nat x00 + to_nat x00)
          + (256 * to_nat x00 + to_nat x00)) with 1.
  cbn [Nat.eqb]. rewrite Hsk. cbn [Legacy.records].
  rewrite Hown, Hfixed. subst fixed. cbn [Legacy.unpack_HHIH].
  change (256 * to_nat x00 + to_nat x01 =? 1) with true.
  change (256 * to_nat x00 + to_nat x04 =? 4) with true.
  cbn [andb]. change (256 * to_nat x00 + to_nat x04) with 4.
  rewrite Hrdata. reflexivity.
Qed.
End LegacyReply.

(** ** The resolver of the listener *)

Module LegacyResolverFacts.
Import Legacy.
Local Open Scope nat_scope.

Section WithNet.
Variable encode : string -> list byte.
Variable decode_ignore : list byte -> string.
Variable net : LNet.


Lemma next_servers_of_frame (nss acc : list string) (st : LState) :
  let '(_, st') := next_servers_of net nss acc st in
  l_cache st' = l_cache st /\ l_log st' = l_log st /\ l_sent st' = l_sent st.
Proof.
  revert acc st. induction nss as [|ns rest IH]; intros acc st; simpl.
  - auto.
  - destruct (l_gethostbyname net (l_tick st) ns) as [ns_ip|].
    + specialize (IH (acc ++ [ns_ip]) (l_bump st)).
      destruct (next_servers_of net rest (acc ++ [ns_ip]) (l_bump st)). exact IH.
    + specialize (IH acc (l_bump st)).
      destruct (next_servers_of net rest acc (l_bump st)). exact IH.
Qed.

Lemma resolve_depths_facts (domain client_ip : string) (start_total : Q)
    (depths : list nat) (servers : list string) (step : string) (st : LState) :
  let '(r, st') :=
    resolve_depths encode decode_ignore net domain client_ip start_total
                   depths servers step st in
  exists new rows,
    l_sent st' = l_sent st ++ new
    /\ length new <= length depths
    /\ (forall s, head new = Some s -> head servers = Some s)
    /\ l_log st' = l_log st ++ rows
    /\ length rows <= S (length depths)
    /\ (r <> LRaise -> 1 <= length rows)
    /\ Forall (walk_row domain client_ip) rows
    /\ match r with
       | LReturn (Some ip) =>
           exists n, l_cache st'
             = <[domain := (ip, Qplus (l_time net n) (inject_Z CACHE_TTL))]>
                 (l_cache st)
                     /\ 1 <= length new
       | _ => l_cache st' = l_cache st
       end.
Proof.
  revert servers step st.
  induction depths as [|depth later IH]; intros servers step st.
  - simpl. exists [], [mkLogEntry (l_utcnow net (S (l_tick st))) domain "Iterative"
                         client_ip step "N/A" "Unresolved" 0%Q
                         (ms (l_time net (l_tick st)) start_total) "MISS"].
    rewrite app_nil_r. simpl.
    split; [reflexivity|]. split; [lia|]. split; [discriminate|].
    split; [reflexivity|]. split; [lia|]. split; [lia|].
    split; [|reflexivity]. repeat constructor.
  - cbn [resolve_depths].
    destruct servers as [|server_ip others].
    { exists [], []. rewrite !app_nil_r. simpl.
      split; [reflexivity|]. split; [lia|]. split; [discriminate|].
      split; [reflexivity|]. split; [lia|]. split; [congruence|].
      split; [constructor|reflexivity]. }
    destruct (build_query encode (l_randint net (l_tick st)) domain)
      as [[tid packet]|].
    2:{ exists [], []. rewrite !app_nil_r. simpl.
      split; [reflexivity|]. split; [lia|]. split; [discriminate|].
      split; [reflexivity|]. split; [lia|]. split; [congruence|].
      split; [constructor|reflexivity]. }
    cbv zeta.
    destruct (l_exchange net (l_tick (l_bump (l_bump st))) server_ip packet)
      as [data|].
    2:{ eexists [server_ip], [_]. simpl.
      split; [reflexivity|]. split; [lia|]. split; [auto|].
      split; [reflexivity|]. split; [lia|]. split; [lia|].
      split; [|reflexivity]. repeat constructor. }
    destruct (parse_response decode_ignore data) as [ips nss].
    destruct ips as [|ip ips].
    2:{ eexists [server_ip], [_]. simpl.
      split; [reflexivity|]. split; [lia|]. split; [auto|].
      split; [reflexivity|]. split; [lia|]. split; [lia|].
      split; [repeat constructor|].
      eexists. split; [reflexivity|lia]. }
    destruct nss as [|ns nss].
    { match goal with
      | |- context [resolve_depths _ _ _ _ _ _ later ?sv ?sp ?s] =>
          specialize (IH sv sp s);
          destruct (resolve_depths encode decode_ignore net domain client_ip
                                   start_total later sv sp s) as [r st']
      end.
      destruct IH as (new & rows & Hs & Hn & Hh & Hl & Hr & Hne & Hrows & Hc).
      exists (server_ip :: new), rows. simpl in *.
      split; [rewrite Hs, <- app_assoc; reflexivity|].
      split; [lia|]. split; [auto|].
      split; [exact Hl|]. split; [lia|]. split; [exact Hne|].
      split; [exact Hrows|].
      destruct r as [[ip|]|]; [|exact Hc|exact Hc].
      destruct Hc as (n & Hc & _). exists n. split; [exact Hc|lia]. }
    match goal with
    | |- context [next_servers_of net ?l ?a ?s] =>
        pose proof (next_servers_of_frame l a s) as Hframe;
        destruct (next_servers_of net l a s) as [next_servers st1]
    end.
    destruct Hframe as (Hfc & Hfl & Hfs). simpl in Hfc, Hfl, Hfs.
    destruct next_servers as [|n1 next_servers].
    { eexists [server_ip], [_]. simpl. rewrite Hfc, Hfl, Hfs.
      split; [reflexivity|]. split; [lia|]. split; [auto|].
      split; [reflexivity|]. split; [lia|]. split; [lia|].
      split; [|reflexivity]. repeat constructor. }
    match goal with
    | |- context [resolve_depths _ _ _ _ _ _ later ?sv ?sp ?s] =>
        specialize (IH sv sp s);
        destruct (resolve_depths encode decode_ignore net domain client_ip
                                 start_total later sv sp s) as [r st']
    end.
    destruct IH as (new & rows & Hs & Hn & Hh & Hl & Hr & Hne & Hrows & Hc).
    simpl in Hs, Hl, Hc.
    eexists (server_ip :: new), (_ :: rows). simpl.
    split; [rewrite Hs, Hfs, <- app_assoc; reflexivity|].
    split; [lia|]. split; [auto|].
    split; [rewrite Hl, Hfl, <- app_assoc; reflexivity|].
    split; [lia|]. split; [lia|].
    split; [constructor; [repeat constructor|exact Hrows]|].
    rewrite Hfc in Hc.
    destruct r as [[ip|]|]; [|exact Hc|exact Hc].
    destruct Hc as (n & Hc & _). exists n. split; [exact Hc|lia].
Qed.
End WithNet.
End LegacyResolverFacts.

Section LegacyWalk.
Local Open Scope nat_scope.
Import LegacyResolverFacts.

(** X21. One call of the listener's resolver sends at most three
    datagrams, the first of them to the first root server, and appends at
    most four rows to the log, at least one when it returns; every row
    carries the domain, the mode Iterative and the client of the call. A
    row marked HIT is written only by a call that sends nothing, and is
    then its only row. *)
Theorem legacy_resolve_bounded (encode : string -> list byte)
    (decode_ignore : list byte -> string) (net : Legacy.LNet)
    (domain client_ip : string) (st : Legacy.LState) :
  let '(r, st') :=
    Legacy.iterative_resolve encode decode_ignore net domain client_ip st in
  exists new rows,
    Legacy.l_sent st' = Legacy.l_sent st ++ new
    /\ length new <= 3
    /\ (forall s, head new = Some s -> s = "198.41.0.4"%string)
    /\ Legacy.l_log st' = Legacy.l_log st ++ rows
    /\ length rows <= 4
    /\ (r <> Legacy.LRaise -> 1 <= length rows)
    /\ Forall (fun row => Legacy.le_domain row = domain
                          /\ Legacy.le_mode row = "Iterative"%string
                          /\ Legacy.le_client_ip row = client_ip) rows
    /\ (Exists (fun row => Legacy.le_cache_status row = "HIT"%string) rows ->
        new = [] /\ length rows = 1).
Proof.
  unfold Legacy.iterative_resolve.
  destruct (Legacy.l_cache st !! domain) as [[ip expiry]|] eqn:Hc.
  - destruct (Qltb (Legacy.l_time net (Legacy.l_tick st)) expiry).
    + eexists [], [_]. simpl. rewrite app_nil_r.
      split; [reflexivity|]. split; [lia|]. split; [discriminate|].
      split; [reflexivity|]. split; [lia|]. split; [lia|].
      split; [repeat constructor|]. intros _. split; reflexivity.
    + match goal with
      | |- context [Legacy.resolve_depths _ _ _ _ _ ?a ?d ?sv ?sp ?s] =>
          pose proof (resolve_depths_facts encode decode_ignore net domain
                        client_ip a d sv sp s) as H;
          destruct (Legacy.resolve_depths encode decode_ignore net domain
                      client_ip a d sv sp s) as [r st']
      end.
      destruct H as (new & rows & Hs & Hn & Hh & Hl & Hr & Hne & Hrows & _).
      exists new, rows. simpl in *.
      split; [exact Hs|]. split; [exact Hn|].
      split; [intros s Hs'; apply Hh in Hs'; congruence|].
      split; [exact Hl|]. split; [exact Hr|]. split; [exact Hne|].
      split.
      * eapply Forall_impl; [exact Hrows|]. unfold Legacy.walk_row. intuition.
      * intros Hex. exfalso. apply Exists_exists in Hex.
        destruct Hex as (row & Hin & Hhit).
        rewrite Forall_forall in Hrows. destruct (Hrows row Hin) as (_ & _ & _ & Hm).
        congruence.
  - match goal with
    | |- context [Legacy.resolve_depths _ _ _ _ _ ?a ?d ?sv ?sp ?s] =>
        pose proof (resolve_depths_facts encode decode_ignore net domain
                      client_ip a d sv sp s) as H;
        destruct (Legacy.resolve_depths encode decode_ignore net domain
                    client_ip a d sv sp s) as [r st']
    end.
    destruct H as (new & rows & Hs & Hn & Hh & Hl & Hr & Hne & Hrows & _).
    exists new, rows. simpl in *.
    split; [exact Hs|]. split; [exact Hn|].
    split; [intros s Hs'; apply Hh in Hs'; congruence|].
    split; [exact Hl|]. split; [exact Hr|]. split; [exact Hne|].
    split.
    * eapply Forall_impl; [exact Hrows|]. unfold Legacy.walk_row. intuition.
    * intros Hex. exfalso. apply Exists_exists in Hex.
      destruct Hex as (row & Hin & Hhit).
      rewrite Forall_forall in Hrows. destruct (Hrows row Hin) as (_ & _ & _ & Hm).
      congruence.
Qed.

(** X22. The cache of the listener changes only for the domain asked and
    only when an address is returned: the call then leaves that address
    stored under the domain and every other entry as it was; a call that
    returns None or raises leaves the whole cache as it was. *)
Theorem legacy_resolve_cache (encode : string -> list byte)
    (decode_ignore : list byte -> string) (net : Legacy.LNet)
    (domain client_ip : string) (st : Legacy.LState) :
  let '(r, st') :=
    Legacy.iterative_resolve encode decode_ignore net domain client_ip st in
  match r with
  | Legacy.LReturn (Some ip) =>
      (exists e, Legacy.l_cache st' !! domain = Some (ip, e))
      /\ forall k, k <> domain ->
                   Legacy.l_cache st' !! k = Legacy.l_cache st !! k
  | _ => Legacy.l_cache st' = Legacy.l_cache st
  end.
Proof.
  unfold Legacy.iterative_resolve.
  destruct (Legacy.l_cache st !! domain) as [[ip expiry]|] eqn:Hc.
  - destruct (Qltb (Legacy.l_time net (Legacy.l_tick st)) expiry).
    + simpl. split; [eauto|reflexivity].
    + match goal with
      | |- context [Legacy.resolve_depths _ _ _ _ _ ?a ?d ?sv ?sp ?s] =>
          pose proof (resolve_depths_facts encode decode_ignore net domain
                        client_ip a d sv sp s) as H;
          destruct (Legacy.resolve_depths encode decode_ignore net domain
                      client_ip a d sv sp s) as [r st']
      end.
      destruct H as (new & rows & _ & _ & _ & _ & _ & _ & _ & H).
      simpl in H.
      destruct r as [[ip'|]|]; [|exact H|exact H].
      destruct H as (n & -> & _). split.
      * eexists. apply lookup_insert_eq.
      * intros k Hk. now apply lookup_insert_ne.
  - match goal with
    | |- context [Legacy.resolve_depths _ _ _ _ _ ?a ?d ?sv ?sp ?s] =>
        pose proof (resolve_depths_facts encode decode_ignore net domain
                      client_ip a d sv sp s) as H;
        destruct (Legacy.resolve_depths encode decode_ignore net domain
                    client_ip a d sv sp s) as [r st']
    end.
    destruct H as (new & rows & _ & _ & _ & _ & _ & _ & _ & H).
    simpl in H.
    destruct r as [[ip'|]|]; [|exact H|exact H].
    destruct H as (n & -> & _). split.
    * eexists. apply lookup_insert_eq.
    * intros k Hk. now apply lookup_insert_ne.
Qed.

(** X23. An address found by a walk is served from the cache by the next
    call. If a call that sent at least one datagram returns an address,
    and at the following call fewer than 300 seconds have passed since
    any reading of the clock, the following call returns the same
    address without sending anything and appends one row, marked HIT,
    whose round trip and total time are 0. *)
Theorem legacy_resolve_then_hit (encode : string -> list byte)
    (decode_ignore : list byte -> string) (net : Legacy.LNet)
    (domain client_ip client_ip' : string) (st st' : Legacy.LState)
    (ip : string) :
  Legacy.iterative_resolve encode decode_ignore net domain client_ip st
  = (Legacy.LReturn (Some ip), st') ->
  Legacy.l_sent st' <> Legacy.l_sent st ->
  (forall n, (Legacy.l_time net (Legacy.l_tick st')
              < Legacy.l_time net n + inject_Z Legacy.CACHE_TTL)%Q) ->
  exists st'' row,
    Legacy.iterative_resolve encode decode_ignore net domain client_ip' st'
    = (Legacy.LReturn (Some ip), st'')
    /\ Legacy.l_sent st'' = Legacy.l_sent st'
    /\ Legacy.l_cache st'' = Legacy.l_cache st'
    /\ Legacy.l_log st'' = Legacy.l_log st' ++ [row]
    /\ Legacy.le_cache_status row = "HIT"%string
    /\ Legacy.le_response row = ip
    /\ Legacy.le_rtt row = 0%Q /\ Legacy.le_total_time row = 0%Q.
Proof.
  intros Hfirst Hsent Hclock.
  assert (Hstored : exists n, Legacy.l_cache st' !! domain
             = Some (ip, Qplus (Legacy.l_time net n) (inject_Z Legacy.CACHE_TTL))).
  { unfold Legacy.iterative_resolve in Hfirst.
    destruct (Legacy.l_cache st !! domain) as [[ip0 expiry]|] eqn:Hc.
    - destruct (Qltb (Legacy.l_time net (Legacy.l_tick st)) expiry).
      + exfalso. apply Hsent. inversion Hfirst; subst. reflexivity.
      + match type of Hfirst with
        | Legacy.resolve_depths _ _ _ _ _ ?a ?d ?sv ?sp ?s = _ =>
            pose proof (resolve_depths_facts encode decode_ignore net domain
                          client_ip a d sv sp s) as H
        end.
        rewrite Hfirst in H.
        destruct H as (new & rows & _ & _ & _ & _ & _ & _ & _ & n & -> & _).
        exists n. apply lookup_insert_eq.
    - match type of Hfirst with
      | Legacy.resolve_depths _ _ _ _ _ ?a ?d ?sv ?sp ?s = _ =>
          pose proof (resolve_depths_facts encode decode_ignore net domain
                        client_ip a d sv sp s) as H
      end.
      rewrite Hfirst in H.
      destruct H as (new & rows & _ & _ & _ & _ & _ & _ & _ & n & -> & _).
      exists n. apply lookup_insert_eq. }
  destruct Hstored as (n & Hstored).
  unfold Legacy.iterative_resolve. rewrite Hstored.
  assert (Hlt : Qltb (Legacy.l_time net (Legacy.l_tick st'))
                     (Legacy.l_time net n + inject_Z Legacy.CACHE_TTL) = true)
    by (apply Qltb_lt, Hclock).
  rewrite Hlt. eexists _, _. split; [reflexivity|]. simpl.
  repeat split; reflexivity.
Qed.


Lemma legacy_resolve_then_hit_witness :
  exists st'' row,
    Legacy.iterative_resolve Legacy.encode_ascii Legacy.decode_ascii
      Legacy.answering_net "example.com" "10.0.0.2"
      (snd (Legacy.iterative_resolve Legacy.encode_ascii Legacy.decode_ascii
              Legacy.answering_net "example.com" "10.0.0.1" Legacy.l0))
    = (Legacy.LReturn (Some "93.184.216.34"%string), st'')
    /\ Legacy.l_sent st'' = ["198.41.0.4"%string]
    /\ Legacy.le_cache_status row = "HIT"%string
    /\ length (Legacy.l_log st'') = 2.
Proof.
  destruct (legacy_resolve_then_hit Legacy.encode_ascii Legacy.decode_ascii
              Legacy.answering_net "example.com" "10.0.0.1" "10.0.0.2"
              Legacy.l0
              (snd (Legacy.iterative_resolve Legacy.encode_ascii
                      Legacy.decode_ascii Legacy.answering_net "example.com"
                      "10.0.0.1" Legacy.l0))
              "93.184.216.34")
    as (st'' & row & H1 & H2 & _ & H3 & H4 & _).
  - vm_compute. reflexivity.
  - vm_compute. discriminate.
  - intros n.
    assert (Ht : Legacy.l_tick
                   (snd (Legacy.iterative_resolve Legacy.encode_ascii
                           Legacy.decode_ascii Legacy.answering_net
                           "example.com" "10.0.0.1" Legacy.l0)) = 8)
      by (vm_compute; reflexivity).
    rewrite Ht. unfold Qlt, Legacy.CACHE_TTL. simpl. lia.
  - exists st'', row. split; [exact H1|].
    split; [rewrite H2; vm_compute; reflexivity|]. split; [exact H4|].
    rewrite H3, length_app. vm_compute. reflexivity.
Defined.
End LegacyWalk.

(** ** Instances *)

Lemma cache_store_lookup_roundtrip_witness :
  is_min 300 (map ttl Demo.example_answer)
  /\ exists w1,
       _cache_store Demo.walk_env Demo.srv "Example.COM." 1
                    Demo.example_answer Demo.w0 = Ret tt w1
       /\ _cache_lookup Demo.walk_env "example.com." 1 (mkWorld (cache w1) 5 [])
          = Ret (Some Demo.example_answer) (mkWorld (cache w1) 6 []).
Proof.
  assert (Hmin : is_min 300 (map ttl Demo.example_answer)).
  { split; [simpl; auto|]. simpl. intros x [<-|[]]; lia. }
  split; [exact Hmin|].
  destruct (cache_store_lookup_roundtrip Demo.walk_env Demo.srv "Example.COM."
              "example.com." 1 Demo.example_answer Demo.w0 300)
    as (w1 & Hstore & Hlook).
  - reflexivity.
  - exact Hmin.
  - lia.
  - exists w1. split; [exact Hstore|].
    destruct (Hlook Demo.walk_env (mkWorld (cache w1) 5 []) eq_refl eq_refl)
      as [Hlt _].
    apply Hlt. unfold Qlt. simpl. lia.
Defined.

Lemma cache_key_canonical_witness :
  ascii_text "Example.COM."
  /\ _cache_key Demo.walk_env (str_lower Demo.walk_env "Example.COM.") 1
     = _cache_key Demo.walk_env "Example.COM." 1
  /\ (_cache_key Demo.walk_env "EXAMPLE.com." 1
      = _cache_key Demo.walk_env "Example.COM." 1).
Proof.
  assert (Hascii : ascii_text "Example.COM.")
    by (unfold ascii_text; simpl;
        repeat (constructor; [apply Nat.ltb_lt; vm_compute; reflexivity|]);
        constructor).
  assert (Hascii' : ascii_text "EXAMPLE.com.")
    by (unfold ascii_text; simpl;
        repeat (constructor; [apply Nat.ltb_lt; vm_compute; reflexivity|]);
        constructor).
  split; [exact Hascii|].
  destruct (cache_key_canonical Demo.walk_env Demo.srv "Example.COM." 1 []
              (fun s _ => eq_refl) Hascii) as (Hk & _ & _ & _ & Hiff).
  split; [exact Hk|]. apply (Hiff "EXAMPLE.com." Hascii'). reflexivity.
Defined.

Lemma resolve_ns_addresses_all_fail_witness :
  (forall t name,
     In name ["a.gtld-servers.net."; "b.gtld-servers.net."] ->
     resolver_resolve Demo.walk_env t (resolver_nameservers Demo.walk_env) name
                      rdatatype.A = inl Timeout)
  /\ _resolve_ns_addresses Demo.walk_env
       ["a.gtld-servers.net."; "b.gtld-servers.net."] Demo.w0
     = Ret [] (mkWorld ∅ 2 []).
Proof.
  split; [intros t name _; reflexivity|].
  apply (resolve_ns_addresses_all_fail Demo.walk_env
           ["a.gtld-servers.net."; "b.gtld-servers.net."] Demo.w0).
  intros t name _. right. left. reflexivity.
Defined.

Lemma iterative_lookup_unreachable_witness :
  (forall s t, In s ["198.41.0.4"; "199.9.14.201"] ->
     udp Demo.walk_env t s "example.com." 1 false = inl Timeout)
  /\ _iterative_lookup Demo.walk_env (mkServer true ["198.41.0.4"; "199.9.14.201"])
                       1 "example.com." 1 false Demo.w0
     = Ret ([], rcode.SERVFAIL, [])
           (mkWorld ∅ 5 ["198.41.0.4"; "199.9.14.201"]).
Proof.
  assert (H : forall s t, In s ["198.41.0.4"; "199.9.14.201"] ->
            udp Demo.walk_env t s "example.com." 1 false = inl Timeout).
  { intros s t [<-|[<-|[]]]; reflexivity. }
  split; [exact H|].
  apply (iterative_lookup_unreachable Demo.walk_env
           (mkServer true ["198.41.0.4"; "199.9.14.201"]) 1 "example.com." 1
           false Demo.w0).
  - intros s t Hs. left. apply H. exact Hs.
  - lia.
Defined.

Lemma iterative_lookup_trace_witness :
  exists a rc tr w' new,
    _iterative_lookup Demo.walk_env Demo.srv 10 "example.com." 1 false Demo.w0
    = Ret (a, rc, tr) w'
    /\ contacted w' = contacted Demo.w0 ++ new
    /\ (length tr <= length new)%nat
    /\ cache w' = cache Demo.w0.
Proof.
  assert (H : exists a rc tr w',
             _iterative_lookup Demo.walk_env Demo.srv 10 "example.com." 1 false
                               Demo.w0 = Ret (a, rc, tr) w')
    by (eexists _, _, _, _; vm_compute; reflexivity).
  destruct H as (a & rc & tr & w' & H).
  destruct (iterative_lookup_trace _ _ _ _ _ _ _ _ _ _ _ H)
    as (new & Hc & _ & Hlen & _ & _ & Hcache).
  exists a, rc, tr, w', new. auto.
Defined.

Lemma for_servers_unglued_referral_witness :
  _extract_glue_ips Demo.unglued_referral = []
  /\ _extract_ns_names Demo.unglued_referral = inr ["ns1.example.net."]
  /\ exists ev w3,
       for_servers Demo.unglued_env 0%Q "Root" "example.net." 1 false
                   ["198.41.0.4"; "199.9.14.201"] rcode.SERVFAIL [] Demo.w0
       = Ret (PassBreak ["203.0.113.9"] rcode.NOERROR [ev]) w3
       /\ server ev = "198.41.0.4".
Proof.
  assert (Hglue : _extract_glue_ips Demo.unglued_referral = []) by reflexivity.
  assert (Hns : _extract_ns_names Demo.unglued_referral
                = inr ["ns1.example.net."]) by (vm_compute; reflexivity).
  split; [exact Hglue|]. split; [exact Hns|].
  destruct (for_servers_unglued_referral Demo.unglued_env 0%Q "Root"
              "example.net." 1 false "198.41.0.4" ["199.9.14.201"]
              rcode.SERVFAIL [] Demo.w0 Demo.unglued_referral
              "ns1.example.net." [] eq_refl eq_refl eq_refl Hglue Hns)
    as (ev & Hs & _ & _ & Hrun).
  assert (Hres : exists w3,
             _resolve_ns_addresses Demo.unglued_env ["ns1.example.net."]
               (mkWorld (cache Demo.w0) (5 + tick Demo.w0)
                        (contacted Demo.w0 ++ ["198.41.0.4"]))
             = Ret ["203.0.113.9"] w3)
    by (eexists; vm_compute; reflexivity).
  destruct Hres as (w3 & Hres). rewrite Hres in Hrun.
  exists ev, w3. split; [exact Hrun|exact Hs].
Defined.

Lemma resolve_result_shape_witness :
  exists a rc tr w',
    resolve Demo.walk_env Demo.srv 10 "example.com." 1 true Demo.w0
    = Ret (a, rc, tr, false) w'
    /\ Forall (fun e => cache_status e = "MISS") tr
    /\ (a <> [] -> rc = rcode.NOERROR).
Proof.
  assert (H : exists a rc tr w',
             resolve Demo.walk_env Demo.srv 10 "example.com." 1 true Demo.w0
             = Ret (a, rc, tr, false) w')
    by (eexists _, _, _, _; vm_compute; reflexivity).
  destruct H as (a & rc & tr & w' & H).
  destruct (resolve_result_shape _ _ _ _ _ _ _ _ _ _ _ _ H)
    as (Hrc & Hst & _).
  exists a, rc, tr, w'. auto.
Defined.

Lemma resolve_cache_disabled_witness :
  exists a rc tr hit w',
    resolve Demo.walk_env Demo.srv_no_cache 10 "example.com." 1 false Demo.w0
    = Ret (a, rc, tr, hit) w'
    /\ a <> [] /\ hit = false /\ cache w' = ∅.
Proof.
  assert (H : exists rc tr hit w',
             resolve Demo.walk_env Demo.srv_no_cache 10 "example.com." 1 false
                     Demo.w0 = Ret (Demo.example_answer, rc, tr, hit) w')
    by (eexists _, _, _, _; vm_compute; reflexivity).
  destruct H as (rc & tr & hit & w' & H).
  destruct (resolve_cache_disabled Demo.walk_env Demo.srv_no_cache 10
              "example.com." 1 false Demo.w0 w' _ rc tr hit eq_refl H)
    as (_ & _ & Hempty).
  destruct (Hempty eq_refl) as (Hhit & Hc).
  exists Demo.example_answer, rc, tr, hit, w'.
  split; [exact H|]. split; [discriminate|]. split; [exact Hhit|exact Hc].
Defined.

Lemma resolve_recursive_success_witness :
  exists ev w',
    resolve Demo.answering_env Demo.srv 0 "example.com." 1 true Demo.w0
    = Ret (Demo.example_answer, rcode.NOERROR, [ev], false) w'
    /\ step ev = "Recursive" /\ contacted w' = [].
Proof.
  destruct (resolve_recursive_success Demo.answering_env Demo.srv 0
              "example.com." 1 Demo.w0 Demo.w0
              (mkMessage rcode.NOERROR Demo.example_answer [] []))
    as (ev & w' & Hrun & Hstep & _ & _ & Hc).
  - reflexivity.
  - reflexivity.
  - discriminate.
  - reflexivity.
  - exists ev, w'. split; [exact Hrun|]. split; [exact Hstep|exact Hc].
Defined.

Lemma resolve_then_hit_witness :
  exists rc tr w' t0,
    resolve Demo.walk_env Demo.srv 10 "example.com." 1 false Demo.w0
    = Ret (Demo.example_answer, rc, tr, false) w'
    /\ cache w' !! _cache_key Demo.walk_env "example.com." 1
       = Some (mkCacheEntry Demo.example_answer
                 (Qplus (time_time Demo.walk_env t0) (inject_Z 300))).
Proof.
  assert (H : exists rc tr w',
             resolve Demo.walk_env Demo.srv 10 "example.com." 1 false Demo.w0
             = Ret (Demo.example_answer, rc, tr, false) w')
    by (eexists _, _, _; vm_compute; reflexivity).
  destruct H as (rc & tr & w' & H).
  destruct (resolve_then_hit Demo.walk_env Demo.srv 10 "example.com." 1 false
              Demo.w0 w' Demo.example_answer rc tr 300)
    as (t0 & Hstored & _).
  - reflexivity.
  - exact H.
  - discriminate.
  - split; [simpl; auto|]. simpl. intros x [<-|[]]; lia.
  - lia.
  - exists rc, tr, w', t0. split; [exact H|exact Hstored].
Defined.

Lemma handle_request_logs_trace_witness :
  (exists rows d w',
     _handle_request Demo.walk_env Demo.demo_host Demo.srv false 10 [x01] Demo.w0
     = Ret (rows, d) w'
     /\ length rows = 4%nat
     /\ forall e, d <> LogRaised e)
  /\ (exists rows w',
        _handle_request Demo.walk_env Demo.closing_log_host Demo.srv false 10
                        [x01] Demo.w0
        = Ret (rows, LogRaised OtherError) w'
        /\ length rows = 2%nat).
Proof.
  split; [|eexists _, _; split; vm_compute; reflexivity].
  assert (H : exists a rc tr hit w1,
             resolve Demo.walk_env Demo.srv 10 "example.com." 1 false Demo.w0
             = Ret (a, rc, tr, hit) w1 /\ length tr = 4%nat)
    by (eexists _, _, _, _, _; split; vm_compute; reflexivity).
  destruct H as (a & rc & tr & hit & w1 & H & Hlen).
  pose proof (handle_request_logs_trace Demo.walk_env Demo.demo_host Demo.srv
                false 10 [x01] Demo.demo_request
                (mkQuestion "example.com." 1) [] Demo.w0 w1 a rc tr hit
                eq_refl eq_refl H) as T.
  cbv beta iota delta [make_response Demo.demo_host] in T.
  destruct T as (rows & d & w' & Hrun & _ & _ & _ & _ & Hall & _).
  destruct (Hall (fun _ _ => eq_refl)) as [Hrows Hd].
  exists rows, d, w'. split; [exact Hrun|]. split; [|exact Hd].
  rewrite Hrows, length_map. exact Hlen.
Defined.

Lemma handle_request_silent_witness :
  _handle_request Demo.walk_env Demo.demo_host Demo.srv false 10 [x02] Demo.w0
  = Ret ([], NoReply) Demo.w0.
Proof.
  apply (handle_request_silent Demo.walk_env Demo.demo_host Demo.srv false 10
           [x02] Demo.w0).
  right. exists (mkRequest 8 false []). split; reflexivity.
Defined.

Lemma query_domain_roundtrip_witness :
  exists t packet,
    Legacy.build_query Legacy.encode_ascii 4660 "example.com" = Some (t, packet)
    /\ Legacy.parse_domain Legacy.decode_strict_ascii packet = Some "example.com".
Proof.
  assert (H : exists t packet,
             Legacy.build_query Legacy.encode_ascii 4660 "example.com"
             = Some (t, packet))
    by (eexists _, _; vm_compute; reflexivity).
  destruct H as (t & packet & H). exists t, packet. split; [exact H|].
  apply (query_domain_roundtrip Legacy.encode_ascii Legacy.decode_strict_ascii
           4660 "example.com" t packet H).
  intros x [<-|[<-|[]]]; (split; [discriminate|split; reflexivity]).
Defined.

Lemma build_query_shape_witness :
  match Legacy.build_query Legacy.encode_ascii 4660 "example.com" with
  | Some (t, packet) => t = 4660%nat /\ length packet = 29%nat
  | None => False
  end.
Proof.
  pose proof (build_query_shape Legacy.encode_ascii Legacy.decode_ascii 4660
                "example.com") as H.
  destruct (Legacy.build_query Legacy.encode_ascii 4660 "example.com")
    as [[t packet]|] eqn:Hq.
  - destruct H as (Ht & _ & _ & Hlen & _).
    + intros x [<-|[<-|[]]]; reflexivity.
    + split; [exact Ht|exact Hlen].
  - vm_compute in Hq. discriminate.
Defined.

Lemma reply_decodes_to_address_witness :
  exists t packet reply,
    Legacy.build_query Legacy.encode_ascii 4660 "example.com" = Some (t, packet)
    /\ Legacy.build_reply Legacy.int_decimal packet "93.184.216.34" = Some reply
    /\ Legacy.parse_response Legacy.decode_ascii reply = (["93.184.216.34"], []).
Proof.
  assert (H : exists t packet,
             Legacy.build_query Legacy.encode_ascii 4660 "example.com"
             = Some (t, packet))
    by (eexists _, _; vm_compute; reflexivity).
  destruct H as (t & packet & H).
  destruct (reply_decodes_to_address Legacy.encode_ascii Legacy.int_decimal
              Legacy.decode_ascii 4660 "example.com" t packet "93.184.216.34"
              x5d xb8 xd8 x22 H)
    as (reply & Hb & _ & _ & Hp).
  - intros x [<-|[<-|[]]]; (split; [discriminate|reflexivity]).
  - vm_compute. reflexivity.
  - exists t, packet, reply. split; [exact H|]. split; [exact Hb|].
    rewrite Hp. vm_compute. reflexivity.
Defined.
